(** * craystack codecs: a shallow embedding of [craystack/codecs.py]

    The development follows the Python module function by function.
    Python integers are [Z]; numpy [uint64]/[int64] values are [Z] with the
    wrap-around written where the source can overflow; 1-d numpy arrays are
    lists; a message is a pair of a head (one word per lane) and a tail.
    Python exceptions and a loop that never exits are outcomes of [result]. *)

From stdpp Require Import base list numbers sorting gmap.

Local Open Scope Z_scope.

(** ** Outcomes of a Python call *)

Inductive exn : Type :=
  | AssertionError
  | ValueError
  | IndexError
  | TypeError
  | StackExhausted.

Inductive result (A : Type) : Type :=
  | Ok (a : A)
  | Raise (e : exn)
  | Diverge.

Arguments Ok {A} a.
Arguments Raise {A} e.
Arguments Diverge {A}.

#[global] Instance result_ret : MRet result := fun A a => Ok a.

#[global] Instance result_bind : MBind result := fun A B f m =>
  match m with
  | Ok a => f a
  | Raise e => Raise e
  | Diverge => Diverge
  end.

#[global] Instance result_fmap : FMap result := fun A B f m =>
  match m with
  | Ok a => Ok (f a)
  | Raise e => Raise e
  | Diverge => Diverge
  end.

Definition of_option {A} (e : exn) (o : option A) : result A :=
  match o with
  | Some a => Ok a
  | None => Raise e
  end.

(** ** [_fold_sizes]

    [[
    def _fold_sizes(small, big):
        sizes = [small]
        while small != big:
            small = 2 * small if 2 * small <= big else big
            sizes.append(small)
        return sizes
    ]]

    The [while] loop is run with fuel: [None] stands for a loop that has not
    exited when the fuel is spent.  [_fold_sizes_loop] returns the elements
    appended to [sizes]. *)

Fixpoint _fold_sizes_loop (fuel : nat) (small big : Z) : option (list Z) :=
  if small =? big then Some []
  else match fuel with
       | O => None
       | S fuel' =>
           let small' := if 2 * small <=? big then 2 * small else big in
           cons small' <$> _fold_sizes_loop fuel' small' big
       end.

Definition _fold_sizes_fuel (fuel : nat) (small big : Z) : option (list Z) :=
  cons small <$> _fold_sizes_loop fuel small big.

(** The number of iterations never exceeds [fold_fuel]: the loop either
    exits within that many rounds or never ([fold_fuel_adequate]). *)
Definition fold_fuel (big : Z) : nat := S (Z.to_nat (Z.log2_up big)).

Definition _fold_sizes (small big : Z) : result (list Z) :=
  match _fold_sizes_fuel (fold_fuel big) small big with
  | Some sizes => Ok sizes
  | None => Diverge
  end.

(** Each element after the first is twice its predecessor, capped at [big]. *)
Fixpoint doubling_from (big prev : Z) (l : list Z) : Prop :=
  match l with
  | [] => True
  | x :: l' => x = Z.min (2 * prev) big /\ doubling_from big x l'
  end.

Definition doubling (big : Z) (l : list Z) : Prop :=
  match l with
  | [] => False
  | x :: l' => doubling_from big x l'
  end.

Fixpoint increasing_from (prev : Z) (l : list Z) : Prop :=
  match l with
  | [] => True
  | x :: l' => prev < x /\ increasing_from x l'
  end.

Definition increasing (l : list Z) : Prop :=
  match l with
  | [] => True
  | x :: l' => increasing_from x l'
  end.

(** [_resize_head_1d] calls [_fold_sizes] on the sorted pair of the target
    size and [np.size(head)]. *)
Definition resize_sizes (size n : Z) : result (list Z) :=
  _fold_sizes (Z.min size n) (Z.max size n).

(** ** numpy integers and the float64 detour

    [int64] and [uint64] are the wrap-around of numpy's fixed-width
    arithmetic.  [float64_of_int z] is the value of the integer [z] once
    converted to float64: round to nearest, ties to even, on a 53-bit
    significand (the exponent range is never reached by a 64-bit integer).
    [uint64_of_float64] is [.astype('uint64')] on a float that holds an
    integer. *)

Definition int64 (z : Z) : Z := (z + 2 ^ 63) mod 2 ^ 64 - 2 ^ 63.

Definition uint64 (z : Z) : Z := z mod 2 ^ 64.

Definition float64_of_int (z : Z) : Z :=
  let a := Z.abs z in
  let e := Z.log2 a - 52 in
  if e <=? 0 then z
  else
    let q := a / 2 ^ e in
    let r := a mod 2 ^ e in
    let half := 2 ^ (e - 1) in
    let q' := if (r <? half) || ((r =? half) && Z.even q) then q else q + 1 in
    Z.sgn z * (q' * 2 ^ e).

Definition uint64_of_float64 (v : Z) : Z := uint64 v.

Definition Zsum (l : list Z) : Z := foldr Z.add 0 l.

(** [np.sum] and [np.cumsum] of an int64 array accumulate in int64. *)
Definition np_sum_int64 (l : list Z) : Z :=
  fold_left (fun acc x => int64 (acc + x)) l 0.

Fixpoint np_cumsum_int64 (acc : Z) (l : list Z) : list Z :=
  match l with
  | [] => []
  | x :: l' => let acc' := int64 (acc + x) in acc' :: np_cumsum_int64 acc' l'
  end.

(** [np.argmax]: the first index that holds the maximum. *)
Fixpoint np_argmax_from (best_i : nat) (best : Z) (i : nat) (l : list Z) : nat :=
  match l with
  | [] => best_i
  | x :: l' =>
      if best <? x then np_argmax_from i x (S i) l'
      else np_argmax_from best_i best (S i) l'
  end.

Definition np_argmax (l : list Z) : option nat :=
  match l with
  | [] => None
  | x :: l' => Some (np_argmax_from 0 x 1 l')
  end.

(** Adjacent differences of a table: the bucket widths. *)
Definition np_diff (l : list Z) : list Z :=
  zip_with (fun a b => b - a) l (tail l).

(** ** [_cumulative_buckets_from_probs]

    [[
    probs = np.rint(probs * (1 << precision)).astype('int64')
    probs[probs == 0] = 1
    argmax_idxs = np.argmax(probs, axis=-1)[..., np.newaxis]
    max_value = np.take_along_axis(probs, argmax_idxs, axis=-1)
    diffs = (1 << precision) - np.sum(probs, axis=-1, keepdims=True)
    assert not np.any(max_value + diffs <= 0), ...
    lowered_maxes = (max_value + diffs)
    np.put_along_axis(probs, argmax_idxs, lowered_maxes, axis=-1)
    return np.concatenate((np.zeros(np.shape(probs)[:-1] + (1,), dtype='uint64'),
                           np.cumsum(probs, axis=-1)), axis=-1).astype('uint64')
    ]]

    The first line is the only floating-point computation on the
    probabilities; the model starts from its result, the int64 array
    [scaled] (a non-negative probability gives a non-negative entry).
    [np.concatenate] of a uint64 and an int64 array promotes both to
    float64, so every entry of the table goes through [float64_of_int]
    before [.astype('uint64')].  [np.argmax] of an empty row raises. *)

Definition _cumulative_buckets_from_probs (scaled : list Z) (precision : Z)
  : result (list Z) :=
  let probs := (fun x => if x =? 0 then 1 else x) <$> scaled in
  argmax_idx ← of_option ValueError (np_argmax probs);
  let max_value := default 0 (probs !! argmax_idx) in
  let diffs := int64 (1 ≪ precision - np_sum_int64 probs) in
  let lowered_maxes := int64 (max_value + diffs) in
  if lowered_maxes <=? 0 then Raise AssertionError
  else
    let probs := <[argmax_idx := lowered_maxes]> probs in
    Ok ((fun c => uint64_of_float64 (float64_of_int c))
          <$> (0 :: np_cumsum_int64 0 probs)).

(** The same on a 2-d array, one probability vector per row: the
    assertion is a single [np.any] over all rows. *)
Definition _cumulative_buckets_from_probs_rows (scaled : list (list Z))
  (precision : Z) : result (list (list Z)) :=
  mapM (fun row => _cumulative_buckets_from_probs row precision) scaled.

(** What the spec asks of a cumulative-bucket table at precision [p]. *)
Definition stat_table (p : Z) (t : list Z) : Prop :=
  head t = Some 0
  /\ list.last t = Some (2 ^ p)
  /\ Forall (fun w => 1 <= w) (np_diff t)
  /\ Zsum (np_diff t) = 2 ^ p.

(** Running sums without wrap-around, to state what [np.cumsum] computes
    when nothing overflows. *)
Fixpoint prefix_sums (acc : Z) (l : list Z) : list Z :=
  match l with
  | [] => []
  | x :: l' => (acc + x) :: prefix_sums (acc + x) l'
  end.

(** ** numpy values and messages

    A statistic function returns numpy values that broadcast against the
    head: a scalar, or an array with one entry per lane.  [lanes n v] is
    [v] on [n] lanes; [shaped n v] says that [v] is of one of these two
    kinds. *)

Inductive ndarray : Type :=
  | scalar (z : Z)
  | array (l : list Z).

Definition lanes (n : nat) (v : ndarray) : list Z :=
  match v with
  | scalar z => replicate n z
  | array l => l
  end.

Definition shaped (n : nat) (v : ndarray) : Prop :=
  match v with
  | scalar _ => True
  | array l => length l = n
  end.

(** Two 1-d operands of one elementwise operation: equal lengths pair
    up, an operand of length one is repeated, anything else does not
    broadcast. *)
Definition np_broadcast2 {A B C : Type} (f : A -> B -> C) (a : list A) (b : list B)
  : option (list C) :=
  if bool_decide (length a = length b) then Some (zip_with f a b)
  else match a, b with
       | [x], _ => Some (f x <$> b)
       | _, [y] => Some ((fun x => f x y) <$> a)
       | _, _ => None
       end.

(** [np.all(a <= b)] and [np.all(a < b)]: the comparison is exact and
    elementwise on the broadcast operands; [None] is the [ValueError] of
    two arrays that do not broadcast. *)
Definition np_all_cmp (r : Z -> Z -> bool) (a b : ndarray) : option bool :=
  match a, b with
  | scalar x, scalar y => Some (r x y)
  | scalar x, array l => Some (forallb (r x) l)
  | array l, scalar y => Some (forallb (fun x => r x y) l)
  | array l, array k => forallb id <$> np_broadcast2 r l k
  end.

(** [a + b].  The arrays of a statistic function are uint64 and a scalar
    is a non-negative Python int: a sum with an array is a uint64 array
    and wraps at [2 ** 64], the sum of two scalars is a Python int. *)
Definition np_add (a b : ndarray) : option ndarray :=
  match a, b with
  | scalar x, scalar y => Some (scalar (x + y))
  | scalar x, array l => Some (array ((fun y => uint64 (x + y)) <$> l))
  | array l, scalar y => Some (array ((fun x => uint64 (x + y)) <$> l))
  | array l, array k => array <$> np_broadcast2 (fun x y => uint64 (x + y)) l k
  end.

(** The asserted expression
    [np.all(start <= cf) and np.all(cf < start + freq)] for the uint64
    array [cf]: [and] evaluates its right operand only when the left one
    is true. *)
Definition np_interval_check (start freq : ndarray) (cf : list Z) : option bool :=
  match np_all_cmp Z.leb start (array cf) with
  | Some true => sum ← np_add start freq; np_all_cmp Z.ltb (array cf) sum
  | r => r
  end.

(** A message is the pair [(head, tail)]: the head holds one word per
    lane, the tail belongs to the primitive. *)
Definition Message (tail : Type) : Type := list Z * tail.

(** [shape(message)] for a 1-d head. *)
Definition shape {tail} (m : Message tail) : nat := length m.1.

(** ** The rANS primitive ([craystack.vectorans])

    Modelled from the spec: the module [craystack.vectorans] is not among
    the sources; the spec gives its interface,
    [push(message, start, freq, precision) -> message] and
    [pop(message, precision) -> (cumulative_frequency, finish)] with
    [finish(start, freq) -> message], and treats it as a black box.  The
    codecs below are written against this interface; [finish] may fail
    (the docstring of [reshape_head]: growing the head fails on an empty
    message), which is [None] here. *)
Class Vrans (tail : Type) : Type := {
  vrans_push : Message tail -> ndarray -> ndarray -> ndarray -> Message tail;
  vrans_pop : Message tail -> ndarray ->
              list Z * (ndarray -> ndarray -> option (Message tail));
  tail_ok : tail -> Prop
}.

(** A head word, as the docstring of [Benford64] gives the range of
    vectorans stack heads. *)
Definition word (x : Z) : Prop := 2 ^ 31 <= x < 2 ^ 63.

Definition wf_message {tail} {V : Vrans tail} (n : nat) (m : Message tail) : Prop :=
  length m.1 = n /\ Forall word m.1 /\ tail_ok m.2.

(** The constraints of the docstring of [NonUniform] on one lane
    ([0 < freq], [0 <= start], [start + freq <= 2 ** precision]), and the
    precisions a 64-bit head with 32-bit renormalisation can code. *)
Definition interval_ok (start freq precision : Z) : Prop :=
  0 <= precision <= 31 /\ 0 < freq /\ 0 <= start /\ start + freq <= 2 ^ precision.

Definition intervals_ok (n : nat) (start freq precision : ndarray) : Prop :=
  shaped n start /\ shaped n freq /\ shaped n precision
  /\ Forall3 interval_ok (lanes n start) (lanes n freq) (lanes n precision).

(** [cf] lies in the interval [(start, freq)], lane by lane. *)
Definition in_intervals (n : nat) (start freq : ndarray) (cf : list Z) : Prop :=
  Forall3 (fun s f c => s <= c < s + f) (lanes n start) (lanes n freq) cf.

(** numpy repeats an array of one entry as it repeats a scalar:
    [broadcasts n v] says that [v] broadcasts to [n] lanes, and
    [np_lanes n v] is [v] on these lanes. *)
Definition broadcasts (n : nat) (v : ndarray) : Prop :=
  match v with
  | scalar _ => True
  | array l => length l = n \/ length l = 1%nat
  end.

Definition np_lanes (n : nat) (v : ndarray) : list Z :=
  match v with
  | array [z] => replicate n z
  | _ => lanes n v
  end.

(** The upper end of one lane's interval as numpy adds it ([np_add]),
    and [cf] lying below it and not below [start], lane by lane. *)
Definition np_upper (start freq : ndarray) (s f : Z) : Z :=
  match start, freq with
  | scalar _, scalar _ => s + f
  | _, _ => uint64 (s + f)
  end.

Definition np_in_intervals (n : nat) (start freq : ndarray) (cf : list Z) : Prop :=
  Forall3 (fun s f c => s <= c < np_upper start freq s f)
    (np_lanes n start) (np_lanes n freq) cf.

(** Modelled from the spec: the contract of the primitive (section 3 of
    the spec: a push followed by a pop, or a pop followed by a push, at the
    same interval and precision reproduces message and symbol exactly; the
    head keeps its shape; the popped value lies below [2 ** precision]). *)
Class VransLaws (tail : Type) {V : Vrans tail} : Prop := {
  push_then_pop : forall n m start freq precision,
    wf_message n m -> intervals_ok n start freq precision ->
    wf_message n (vrans_push m start freq precision)
    /\ exists cf finish,
         vrans_pop (vrans_push m start freq precision) precision = (cf, finish)
         /\ in_intervals n start freq cf
         /\ finish start freq = Some m;
  pop_then_push : forall n m precision cf finish,
    wf_message n m -> shaped n precision ->
    Forall (fun p => 0 <= p <= 31) (lanes n precision) ->
    vrans_pop m precision = (cf, finish) ->
    Forall2 (fun c p => 0 <= c < 2 ^ p) cf (lanes n precision)
    /\ forall start freq m',
         intervals_ok n start freq precision ->
         in_intervals n start freq cf ->
         finish start freq = Some m' ->
         wf_message n m' /\ vrans_push m' start freq precision = m;
  push_shape : forall m start freq precision,
    shaped (shape m) start -> shaped (shape m) freq ->
    shaped (shape m) precision ->
    shape (vrans_push m start freq precision) = shape m;
  pop_shape : forall m precision cf finish start freq m',
    shaped (shape m) precision ->
    vrans_pop m precision = (cf, finish) ->
    length cf = shape m
    /\ (shaped (shape m) start -> shaped (shape m) freq ->
        finish start freq = Some m' -> shape m' = shape m)
}.

(** ** Codecs *)

(** A codec is the pair [(push, pop)]. *)
Definition codec (M S : Type) : Type :=
  (M -> S -> result M) * (M -> result (M * S)).

Section Codecs.
Context {tail : Type} {V : Vrans tail}.

(** [[
    def NonUniform(enc_statfun, dec_statfun, precision):
        def push(message, symbol):
            start, freq = enc_statfun(symbol)
            return vrans.push(message, start, freq, precision)

        def pop(message):
            cf, pop_fun = vrans.pop(message, precision)
            symbol = dec_statfun(cf)
            start, freq = enc_statfun(symbol)
            assert np.all(start <= cf) and np.all(cf < start + freq)
            return pop_fun(start, freq), symbol
        return push, pop
    ]]

    The assertion is [np_interval_check]: the comparisons broadcast
    [start], [freq] and [cf] as numpy does, shapes that do not broadcast
    raise [ValueError], and [start + freq] is numpy's sum. *)
Definition NonUniform {S : Type} (enc_statfun : S -> ndarray * ndarray)
    (dec_statfun : list Z -> S) (precision : ndarray) : codec (Message tail) S :=
  let push (message : Message tail) (symbol : S) : result (Message tail) :=
    let '(start, freq) := enc_statfun symbol in
    Ok (vrans_push message start freq precision) in
  let pop (message : Message tail) : result (Message tail * S) :=
    let '(cf, pop_fun) := vrans_pop message precision in
    let symbol := dec_statfun cf in
    let '(start, freq) := enc_statfun symbol in
    match np_interval_check start freq cf with
    | None => Raise ValueError
    | Some false => Raise AssertionError
    | Some true =>
        message' ← of_option StackExhausted (pop_fun start freq);
        Ok (message', symbol)
    end in
  (push, pop).

(** The two loops of [repeat]: push the symbols last to first, pop [n]
    symbols appending each to the list. *)
Fixpoint push_each {M S : Type} (push_ : M -> S -> result M) (message : M)
    (symbols : list S) : result M :=
  match symbols with
  | [] => Ok message
  | symbol :: symbols' =>
      message' ← push_ message symbol; push_each push_ message' symbols'
  end.

Fixpoint pop_times {M S : Type} (pop_ : M -> result (M * S)) (n : nat)
    (message : M) : result (M * list S) :=
  match n with
  | O => Ok (message, [])
  | S n' =>
      '(message', symbol) ← pop_ message;
      '(message'', symbols) ← pop_times pop_ n' message';
      Ok (message'', symbol :: symbols)
  end.

(** [[
    def repeat(codec, n):
        push_, pop_ = codec
        def push(message, symbols):
            assert np.shape(symbols)[0] == n
            for symbol in reversed(symbols):
                message = push_(message, symbol)
            return message

        def pop(message):
            symbols = []
            for i in range(n):
                message, symbol = pop_(message)
                symbols.append(symbol)
            return message, np.asarray(symbols)
        return push, pop
    ]] *)
Definition repeat {M S : Type} (codec_ : codec M S) (n : Z) : codec M (list S) :=
  let '(push_, pop_) := codec_ in
  let push (message : M) (symbols : list S) : result M :=
    if Z.of_nat (length symbols) =? n
    then push_each push_ message (reverse symbols)
    else Raise AssertionError in
  let pop (message : M) : result (M * list S) :=
    pop_times pop_ (Z.to_nat n) message in
  (push, pop).

(** [[
    def serial(codecs):
        def push(message, symbols):
            for (push, _), symbol in reversed(list(zip(codecs, symbols))):
                message = push(message, symbol)
            return message

        def pop(message):
            symbols = []
            for _, pop in codecs:
                message, symbol = pop(message)
                symbols.append(symbol)
            return message, symbols
        return push, pop
    ]] *)
Fixpoint serial_push {M S : Type} (pairs : list (codec M S * S)) (message : M)
  : result M :=
  match pairs with
  | [] => Ok message
  | ((push, _), symbol) :: pairs' =>
      message' ← push message symbol; serial_push pairs' message'
  end.

Fixpoint serial_pop {M S : Type} (codecs : list (codec M S)) (message : M)
  : result (M * list S) :=
  match codecs with
  | [] => Ok (message, [])
  | (_, pop) :: codecs' =>
      '(message', symbol) ← pop message;
      '(message'', symbols) ← serial_pop codecs' message';
      Ok (message'', symbol :: symbols)
  end.

Definition serial {M S : Type} (codecs : list (codec M S)) : codec M (list S) :=
  (fun message symbols => serial_push (reverse (zip codecs symbols)) message,
   fun message => serial_pop codecs message).

(** Modelled from the spec: [craystack.util.view_update] is not among the
    sources.  By the spec a view function selects a sub-view of the head
    and is paired with an update that writes a (possibly resized) sub-view
    back into the full head and nowhere else; its design notes give the
    view as a sub-range descriptor (offset and length).  [view_update]
    returns the selected lanes and the update for them. *)
Record view : Type := { view_offset : nat; view_width : nat }.

Definition view_update (head : list Z) (view_fun : view)
  : list Z * (list Z -> list Z) :=
  (take (view_width view_fun) (drop (view_offset view_fun) head),
   fun subhead =>
     take (view_offset view_fun) head ++ subhead
       ++ drop (view_offset view_fun + view_width view_fun) head).

(** [[
    def substack(codec, view_fun):
        push_, pop_ = codec
        def push(message, data, *args, **kwargs):
            head, tail = message
            subhead, update = util.view_update(head, view_fun)
            subhead, tail = push_((subhead, tail), data, *args, **kwargs)
            return update(subhead), tail
        def pop(message, *args, **kwargs):
            head, tail = message
            subhead, update = util.view_update(head, view_fun)
            (subhead, tail), data = pop_((subhead, tail), *args, **kwargs)
            return (update(subhead), tail), data
        return push, pop
    ]] *)
Definition substack {S : Type} (codec_ : codec (Message tail) S) (view_fun : view)
  : codec (Message tail) S :=
  let '(push_, pop_) := codec_ in
  let push (message : Message tail) (data : S) : result (Message tail) :=
    let '(head, tail) := message in
    let '(subhead, update) := view_update head view_fun in
    '(subhead, tail) ← push_ (subhead, tail) data;
    Ok (update subhead, tail) in
  let pop (message : Message tail) : result (Message tail * S) :=
    let '(head, tail) := message in
    let '(subhead, update) := view_update head view_fun in
    '((subhead, tail), data) ← pop_ (subhead, tail);
    Ok ((update subhead, tail), data) in
  (push, pop).

(** [[
    _uniform_enc_statfun = lambda s: (s, 1)
    _uniform_dec_statfun = lambda cf: cf
    def Uniform(precision):
        return NonUniform(_uniform_enc_statfun, _uniform_dec_statfun, precision)
    ]] *)
Definition _uniform_enc_statfun (s : list Z) : ndarray * ndarray :=
  (array s, scalar 1).

Definition _uniform_dec_statfun (cf : list Z) : list Z := cf.

Definition Uniform (precision : ndarray) : codec (Message tail) (list Z) :=
  NonUniform _uniform_enc_statfun _uniform_dec_statfun precision.

(** [[
    def Benford64():
        length_push, length_pop = Uniform(5)
        x_lower_push, x_lower_pop = Uniform(31)
        def push(message, x):
            message = x_lower_push(message, x & ((1 << 31) - 1))
            x_len = np.uint64(np.log2(x))
            x = x & ((1 << x_len) - 1)  # Rm leading 1
            x_higher_push, _ = Uniform(x_len - 31)
            message = x_higher_push(message, x >> 31)
            message = length_push(message, x_len - 31)
            return message

        def pop(message):
            message, x_len = length_pop(message)
            x_len = x_len + 31
            _, x_higher_pop = Uniform(x_len - 31)
            message, x_higher = x_higher_pop(message)
            message, x_lower = x_lower_pop(message)
            return message, (1 << x_len) | (x_higher << 31) | x_lower
        return push, pop
    ]]

    [x] is a uint64 array with one entry per lane of the head.  The
    parameter [np_log2] is [np.uint64(np.log2(x))] at one entry: numpy
    converts the uint64 to float64, takes the logarithm in floating point
    and truncates.  Subtractions and shifts wrap at 64 bits. *)
Definition Benford64 (np_log2 : Z -> Z) : codec (Message tail) (list Z) :=
  let '(length_push, length_pop) := Uniform (scalar 5) in
  let '(x_lower_push, x_lower_pop) := Uniform (scalar 31) in
  let push (message : Message tail) (x : list Z) : result (Message tail) :=
    message ← x_lower_push message ((fun xi => Z.land xi (1 ≪ 31 - 1)) <$> x);
    let x_len := np_log2 <$> x in
    let x := zip_with (fun xi li => Z.land xi (uint64 (uint64 (1 ≪ li) - 1))) x x_len in
    let '(x_higher_push, _) := Uniform (array ((fun li => uint64 (li - 31)) <$> x_len)) in
    message ← x_higher_push message ((fun xi => xi ≫ 31) <$> x);
    length_push message ((fun li => uint64 (li - 31)) <$> x_len) in
  let pop (message : Message tail) : result (Message tail * list Z) :=
    '(message, x_len) ← length_pop message;
    let x_len := (fun li => uint64 (li + 31)) <$> x_len in
    let '(_, x_higher_pop) := Uniform (array ((fun li => uint64 (li - 31)) <$> x_len)) in
    '(message, x_higher) ← x_higher_pop message;
    '(message, x_lower) ← x_lower_pop message;
    Ok (message,
        zip_with (fun li hl => Z.lor (Z.lor (uint64 (1 ≪ li)) (uint64 (hl.1 ≪ 31))) hl.2)
          x_len (zip x_higher x_lower)) in
  (push, pop).

(** [[
    _fold_codec = lambda diff: substack(Benford64, lambda head: head[:diff])

    def _fold_codecs(sizes):
        return [_fold_codec(diff) for diff in np.subtract(sizes[1:], sizes[:-1])]
    ]]

    The sizes of a schedule increase, so [diff] is positive and
    [head[:diff]] is the sub-range of the first [diff] lanes. *)
Definition _fold_codec (np_log2 : Z -> Z) (diff : Z) : codec (Message tail) (list Z) :=
  substack (Benford64 np_log2) {| view_offset := 0; view_width := Z.to_nat diff |}.

Definition _fold_codecs (np_log2 : Z -> Z) (sizes : list Z)
  : list (codec (Message tail) (list Z)) :=
  _fold_codec np_log2 <$> np_diff sizes.

(** [[
    def _resize_head_1d(message, size):
        head, tail = message
        sizes = _fold_sizes( *sorted((size, np.size(head))))
        codecs = _fold_codecs(sizes)
        if size < np.size(head):
            for (push, _), new_size in reversed(list(zip(codecs, sizes[:-1]))):
                head, tail = push((head[:new_size], tail), head[new_size:])
        elif size > np.size(head):
            for _, pop in codecs:
                (head, tail), head_ex = pop((head, tail))
                head = np.concatenate([head, head_ex])
        return head, tail
    ]]

    [resize_shrink] and [resize_grow] are the two loops.  Every size of a
    schedule that [_fold_sizes] returns for a non-empty head is positive,
    so [head[:new_size]] and [head[new_size:]] split the head at
    [new_size]. *)
Fixpoint resize_shrink (steps : list (codec (Message tail) (list Z) * Z))
    (message : Message tail) : result (Message tail) :=
  match steps with
  | [] => Ok message
  | ((push, _), new_size) :: steps' =>
      let '(head, tail) := message in
      message' ← push (take (Z.to_nat new_size) head, tail)
                      (drop (Z.to_nat new_size) head);
      resize_shrink steps' message'
  end.

Fixpoint resize_grow (codecs : list (codec (Message tail) (list Z)))
    (message : Message tail) : result (Message tail) :=
  match codecs with
  | [] => Ok message
  | (_, pop) :: codecs' =>
      '((head, tail), head_ex) ← pop message;
      resize_grow codecs' (head ++ head_ex, tail)
  end.

Definition _resize_head_1d (np_log2 : Z -> Z) (message : Message tail) (size : Z)
  : result (Message tail) :=
  let '(head, tail) := message in
  sizes ← resize_sizes size (Z.of_nat (length head));
  let codecs := _fold_codecs np_log2 sizes in
  if size <? Z.of_nat (length head)
  then resize_shrink (reverse (zip codecs (removelast sizes))) (head, tail)
  else if Z.of_nat (length head) <? size
  then resize_grow codecs (head, tail)
  else Ok (head, tail).

(** [[
    def reshape_head(message, shape):
        head, tail = message
        message = (np.ravel(head), tail)
        head, tail = _resize_head_1d(message, size=np.prod(shape))
        return np.reshape(head, shape), tail
    ]]

    for a 1-d head and the 1-d target shape [(size,)]: [np.ravel] returns
    the head, [np.prod] the size, and [np.reshape] raises [ValueError] if
    the resized head does not have [size] entries. *)
Definition reshape_head (np_log2 : Z -> Z) (message : Message tail) (size : Z)
  : result (Message tail) :=
  '(head, tail) ← _resize_head_1d np_log2 message size;
  if Z.of_nat (length head) =? size then Ok (head, tail) else Raise ValueError.

(** A schedule as [_fold_sizes] returns it: every size is larger than
    the one before and at most twice as large. *)
Fixpoint schedule (prev : Z) (l : list Z) : Prop :=
  match l with
  | [] => True
  | x :: l' => prev < x <= 2 * prev /\ schedule x l'
  end.

(** The words [Benford64] pops while [_resize_head_1d] grows a head, in
    the order they are popped: what the shrinking loop pushes back. *)
Fixpoint resize_grow_words (codecs : list (codec (Message tail) (list Z)))
    (message : Message tail) : list Z :=
  match codecs with
  | [] => []
  | (_, pop) :: codecs' =>
      match pop message with
      | Ok ((head, tail), head_ex) =>
          head_ex ++ resize_grow_words codecs' (head ++ head_ex, tail)
      | _ => []
      end
  end.

Definition reshape_grow_words (np_log2 : Z -> Z) (message : Message tail)
    (size : Z) : list Z :=
  match resize_sizes size (Z.of_nat (length message.1)) with
  | Ok sizes => resize_grow_words (_fold_codecs np_log2 sizes) message
  | _ => []
  end.

End Codecs.

(** ** [AutoRegressive]

    [[
    def AutoRegressive(param_fn, data_shape, params_shape, elem_idxs, elem_codec):
        def push(message, data, all_params=None):
            if not all_params:
                all_params = param_fn(data)
            for idx in reversed(elem_idxs):
                elem_params = all_params[idx]
                elem_push, _ = elem_codec(elem_params, idx)
                message = elem_push(message, data[idx].astype('uint64'))
            return message

        def pop(message):
            data = np.zeros(data_shape, dtype=np.uint64)
            all_params = np.zeros(params_shape, dtype=np.float32)
            for idx in elem_idxs:
                all_params = param_fn(data, all_params, idx)
                elem_params = all_params[idx]
                _, elem_pop = elem_codec(elem_params, idx)
                message, elem = elem_pop(message)
                data[idx] = elem
            return message, data
        return push, pop
    ]]

    [data] is an array of elements [E] indexed by position, the parameters
    an array of [P].  [param_fn] is one Python function called in two ways:
    [param_fn(data)] is [param_fn data None] and
    [param_fn(data, all_params, idx)] is [param_fn data (Some (all_params, idx))].
    The optional argument [all_params] of [push] is a Python value: [None],
    a scalar, a list or a numpy array. *)

Inductive py_params (P : Type) : Type :=
  | PyNone
  | PyScalar (p : P)
  | PyList (l : list P)
  | PyArray (a : list P).

Arguments PyNone {P}.
Arguments PyScalar {P} p.
Arguments PyList {P} l.
Arguments PyArray {P} a.

Section AutoRegressive.
Context {M E P : Type}.
Variable nonzero : P -> bool.
Variable astype_uint64 : E -> E.
Variable param_fn : list E -> option (list P * nat) -> list P.
Variable data_zeros : list E.
Variable params_zeros : list P.
Variable elem_idxs : list nat.
Variable elem_codec : P -> nat -> codec M E.

(** [not all_params]: [None], a zero scalar and an empty list are falsy; a
    numpy array of one element has the truth value of the element, an
    empty one is falsy (numpy 1.x, with a deprecation warning), and one of
    several elements raises [ValueError] ("the truth value of an array
    with more than one element is ambiguous"). *)
Definition py_not (all_params : py_params P) : result bool :=
  match all_params with
  | PyNone => Ok true
  | PyScalar p => Ok (negb (nonzero p))
  | PyList l => Ok (bool_decide (length l = 0%nat))
  | PyArray [] => Ok true
  | PyArray [p] => Ok (negb (nonzero p))
  | PyArray _ => Raise ValueError
  end.

(** [all_params[idx]]. *)
Definition py_getitem (all_params : py_params P) (idx : nat) : result P :=
  match all_params with
  | PyNone | PyScalar _ => Raise TypeError
  | PyList l | PyArray l => of_option IndexError (l !! idx)
  end.

Fixpoint AutoRegressive_push_loop (idxs : list nat) (all_params : py_params P)
    (data : list E) (message : M) : result M :=
  match idxs with
  | [] => Ok message
  | idx :: idxs' =>
      elem_params ← py_getitem all_params idx;
      let '(elem_push, _) := elem_codec elem_params idx in
      elem ← of_option IndexError (data !! idx);
      message' ← elem_push message (astype_uint64 elem);
      AutoRegressive_push_loop idxs' all_params data message'
  end.

Definition AutoRegressive_push (message : M) (data : list E)
    (all_params : py_params P) : result M :=
  py_not all_params ≫= fun falsy : bool =>
  let all_params := if falsy then PyArray (param_fn data None) else all_params in
  AutoRegressive_push_loop (reverse elem_idxs) all_params data message.

(** One round of the loop of [pop], as the loop sees it: the index, the
    message at the start of the round, the [data] and [all_params] handed
    to [param_fn], and the decoded element. *)
Record pop_step : Type := {
  step_idx : nat;
  step_message : M;
  step_data : list E;
  step_params : list P;
  step_elem : E
}.

(** [data[idx] = elem] raises [IndexError] outside the array. *)
Definition setitem (data : list E) (idx : nat) (elem : E) : result (list E) :=
  if bool_decide (idx < length data)%nat then Ok (<[idx:=elem]> data)
  else Raise IndexError.

Fixpoint AutoRegressive_pop_loop (idxs : list nat) (message : M) (data : list E)
    (all_params : list P) : result (M * list E * list pop_step) :=
  match idxs with
  | [] => Ok (message, data, [])
  | idx :: idxs' =>
      let all_params' := param_fn data (Some (all_params, idx)) in
      elem_params ← of_option IndexError (all_params' !! idx);
      let '(_, elem_pop) := elem_codec elem_params idx in
      '(message', elem) ← elem_pop message;
      data' ← setitem data idx elem;
      '(message'', data'', steps) ←
        AutoRegressive_pop_loop idxs' message' data' all_params';
      Ok (message'', data'',
          {| step_idx := idx; step_message := message; step_data := data;
             step_params := all_params; step_elem := elem |} :: steps)
  end.

(** The rounds of [pop] as a step relation: from [message], [data] and
    [all_params], a round at [idx] calls [param_fn] on the current [data]
    and [all_params], pops with the codec of the parameters at [idx], and
    writes the element at [idx] before the next round starts. *)
Inductive pop_run : M -> list E -> list P -> list pop_step -> M -> list E -> Prop :=
  | pop_run_done message data all_params :
      pop_run message data all_params [] message data
  | pop_run_step message data all_params idx elem_params message1 elem steps
      message' data' :
      param_fn data (Some (all_params, idx)) !! idx = Some elem_params ->
      (elem_codec elem_params idx).2 message = Ok (message1, elem) ->
      (idx < length data)%nat ->
      pop_run message1 (<[idx:=elem]> data)
        (param_fn data (Some (all_params, idx))) steps message' data' ->
      pop_run message data all_params
        ({| step_idx := idx; step_message := message; step_data := data;
            step_params := all_params; step_elem := elem |} :: steps)
        message' data'.

Definition AutoRegressive_pop (message : M) : result (M * list E) :=
  '(message', data, _) ←
    AutoRegressive_pop_loop elem_idxs message data_zeros params_zeros;
  Ok (message', data).

(** The codec: [push] with [all_params] left at its default. *)
Definition AutoRegressive : codec M (list E) :=
  (fun message data => AutoRegressive_push message data PyNone,
   AutoRegressive_pop).

End AutoRegressive.

(** ** A reference primitive

    Modelled from the spec: an implementation of the interface [Vrans]
    that satisfies [VransLaws], to instantiate the contract and to run the
    codecs on concrete messages.  It is the standard range-ANS step on
    64-bit head words kept in [2^31, 2^63) (the range the docstring of
    [Benford64] gives for stack heads), with 32-bit renormalisation words
    (the words [random_stack] draws) on a tail that is a stack of such
    words.  The words emitted by one push lie in lane order on top of the
    tail.  Intervals and precisions broadcast to the lanes of the head
    ([np_lanes]). *)
Module Reference.

Definition rans_l : Z := 1 ≪ 31.

Definition renormalises (h f p : Z) : bool := ((rans_l ≫ p) ≪ 32) * f <=? h.

Fixpoint push_lanes (hs starts freqs precisions : list Z) : list Z * list Z :=
  match hs, starts, freqs, precisions with
  | h :: hs', s :: starts', f :: freqs', p :: precisions' =>
      let '(hs'', ws) := push_lanes hs' starts' freqs' precisions' in
      let h1 := if renormalises h f p then h ≫ 32 else h in
      (((h1 / f) ≪ p) + h1 mod f + s :: hs'',
       if renormalises h f p then Z.land h (Z.ones 32) :: ws else ws)
  | _, _, _, _ => ([], [])
  end.

Definition push (m : Message (list Z)) (start freq precision : ndarray)
  : Message (list Z) :=
  let n := length m.1 in
  let '(hs, ws) :=
    push_lanes m.1 (np_lanes n start) (np_lanes n freq) (np_lanes n precision) in
  (hs, ws ++ m.2).

Fixpoint finish_lanes (hs starts freqs precisions : list Z) (t : list Z)
  : option (list Z * list Z) :=
  match hs, starts, freqs, precisions with
  | h :: hs', s :: starts', f :: freqs', p :: precisions' =>
      let h1 := f * (h ≫ p) + Z.land h (Z.ones p) - s in
      if h1 <? rans_l
      then match t with
           | [] => None
           | w :: t' =>
               '(hs'', t'') ← finish_lanes hs' starts' freqs' precisions' t';
               Some (Z.lor (h1 ≪ 32) w :: hs'', t'')
           end
      else '(hs'', t'') ← finish_lanes hs' starts' freqs' precisions' t;
           Some (h1 :: hs'', t'')
  | _, _, _, _ => Some ([], t)
  end.

Definition pop (m : Message (list Z)) (precision : ndarray)
  : list Z * (ndarray -> ndarray -> option (Message (list Z))) :=
  let n := length m.1 in
  (zip_with (fun h p => Z.land h (Z.ones p)) m.1 (np_lanes n precision),
   fun start freq =>
     finish_lanes m.1 (np_lanes n start) (np_lanes n freq) (np_lanes n precision)
       m.2).

#[global] Instance vrans : Vrans (list Z) := {
  vrans_push := push;
  vrans_pop := pop;
  tail_ok := Forall (fun w => 0 <= w < 2 ^ 32)
}.

(** [np.uint64(np.log2(x))] for [x >= 1]: numpy converts the uint64 to
    float64 ([float64_of_int]), rounds the logarithm of that value [v] to
    float64, and [np.uint64] truncates.  With [k = floor(log2 v)] the
    rounded logarithm reaches [k + 1] exactly when
    [log2 v >= k + 1 - h], where [h = 2 ** (e - 1)] is half the distance
    from [k + 1] to the float64 below it, that is when
    [(2^(k+1) - v) / 2^(k+1) <= 1 - 2 ** (-h)].  The right-hand side is
    [h * ln 2] up to a factor within [h] of one, and [6931471805 / 10^10]
    is [ln 2] to ten digits; on the float64 values below [2 ** 64] the
    two sides of the comparison differ by more than half a percent, so
    the constant decides it.  So [np_log2 (2^53 - 1) = 53] while
    [Z.log2 (2^53 - 1) = 52].  This is numpy's value where the library
    logarithm is correctly rounded; at a power of two every library's
    logarithm is exact. *)
Definition np_log2 (x : Z) : Z :=
  let v := float64_of_int x in
  let k := Z.log2 v in
  let e := (if 2 ^ Z.log2 (k + 1) =? k + 1
            then Z.log2 (k + 1) - 1 else Z.log2 (k + 1)) - 52 in
  if (2 ^ (k + 1) - v) * 2 ^ (1 - e) * 10 ^ 10 <=? 2 ^ (k + 1) * 6931471805
  then k + 1 else k.

End Reference.

(** ** What the claims speak of *)

(** A codec round-trips on the messages [wf] and the symbols [dom]:
    [push] returns, its result is again a message of [wf], and [pop] of it
    gives back the message and the symbol. *)
Definition roundtrip {M S : Type} (wf : M -> Prop) (dom : S -> Prop)
    (c : codec M S) : Prop :=
  forall m s, wf m -> dom s ->
    exists m', c.1 m s = Ok m' /\ wf m' /\ c.2 m' = Ok (m, s).

(** The statistic functions agree and satisfy the interval invariants on
    [dom], for heads of [n] lanes: [enc_statfun] gives valid intervals and
    [dec_statfun] sends every value of the interval back to the symbol. *)
Definition statfuns_ok {S : Type} (n : nat) (enc_statfun : S -> ndarray * ndarray)
    (dec_statfun : list Z -> S) (precision : ndarray) (dom : S -> Prop) : Prop :=
  forall s, dom s ->
    intervals_ok n (enc_statfun s).1 (enc_statfun s).2 precision
    /\ forall cf, in_intervals n (enc_statfun s).1 (enc_statfun s).2 cf ->
                  dec_statfun cf = s.

(** The codecs built by the algebra on heads of [n] lanes, each with the
    symbols it codes. *)
Inductive built {tail : Type} {V : Vrans tail} (n : nat)
  : forall {S : Type}, codec (Message tail) S -> (S -> Prop) -> Prop :=
  | built_NonUniform {S} (enc_statfun : S -> ndarray * ndarray) dec_statfun
      precision (dom : S -> Prop) :
      statfuns_ok n enc_statfun dec_statfun precision dom ->
      built n (NonUniform enc_statfun dec_statfun precision) dom
  | built_repeat {S} (c : codec (Message tail) S) (dom : S -> Prop) (k : nat) :
      built n c dom ->
      built n (repeat c (Z.of_nat k)) (fun l => length l = k /\ Forall dom l).

(** The symbols [Uniform(precision)] codes on [n] lanes: one value below
    [2 ** precision] per lane. *)
Definition uniform_dom (n : nat) (precision : ndarray) (s : list Z) : Prop :=
  Forall2 (fun x p => 0 <= x < 2 ^ p) s (lanes n precision).

(** The three symbols of the [Benford64] code of [x], in arithmetic:
    the low 31 bits, the bits above them without the leading one, and the
    position of the leading one less 31.  [bit_length] is Python's
    [int.bit_length]. *)
Definition bit_length (x : Z) : Z :=
  if x =? 0 then 0 else Z.log2 (Z.abs x) + 1.

Definition benford_low (x : Z) : Z := x mod 2 ^ 31.

Definition benford_high (x : Z) : Z := x mod 2 ^ Z.log2 x / 2 ^ 31.

Definition benford_length (x : Z) : Z := Z.log2 x - 31.

(** [np.uint64(np.log2(x))] returns the position of the leading one of
    [x]: what the float64 logarithm is meant to compute, and does except
    near the top of a binade. *)
Definition log2_exact (np_log2 : Z -> Z) (x : Z) : Prop := np_log2 x = Z.log2 x.

(** The value [Benford64]'s pop assembles from a length, the high and the
    low bits. *)
Definition benford_join_word (li : Z) (hl : Z * Z) : Z :=
  Z.lor (Z.lor (uint64 (1 ≪ li)) (uint64 (hl.1 ≪ 31))) hl.2.

(** [head'] is [head] with the lanes of the view replaced by [subhead]:
    the lanes before the view and the lanes after it are those of
    [head], in the same order. *)
Definition replaces_view (v : view) (head subhead head' : list Z) : Prop :=
  head' = take (view_offset v) head ++ subhead
          ++ drop (view_offset v + view_width v) head
  /\ (forall i, (i < view_offset v)%nat -> head' !! i = head !! i)
  /\ (forall i, head' !! (view_offset v + length subhead + i)%nat
                = head !! (view_offset v + view_width v + i)%nat).

(** [known data zeros idxs] is the buffer [zeros] after the elements of
    [data] at the positions [idxs] have been written into it, in that
    order: what a decoder knows of [data] once it has decoded [idxs]. *)
Definition known {E : Type} (data zeros : list E) (idxs : list nat) : list E :=
  foldl (fun d i => match data !! i with Some e => <[i:=e]> d | None => d end)
    zeros idxs.

(** [data[idx] = elem] for every round of a trace, first to last. *)
Definition written {M E P : Type} (zeros : list E)
    (steps : list (@pop_step M E P)) : list E :=
  foldl (fun d s => <[step_idx s := step_elem s]> d) zeros steps.

(** The scenario of the spec for the autoregressive ordering: three
    elements, the parameter of element [i] being [sum(data[0:i])].  An
    element is one row of lanes; its codec shifts the symbol by the
    parameter before coding it uniformly on 8 bits. *)
Module SumModel.

Definition param_fn (data : list (list Z)) (_ : option (list Z * nat)) : list Z :=
  0 :: prefix_sums 0 (hd 0 <$> data).

Definition elem_codec (p : Z) (idx : nat) : codec (Message (list Z)) (list Z) :=
  NonUniform (fun s => (array ((fun x => (x + p) mod 2 ^ 8) <$> s), scalar 1))
    (fun cf => (fun c => (c - p) mod 2 ^ 8) <$> cf) (scalar 8).

Definition data : list (list Z) := [[1]; [2]; [3]].

Definition Codec (elem_idxs : list nat) : codec (Message (list Z)) (list (list Z)) :=
  AutoRegressive (fun p => negb (p =? 0)) (fmap uint64) param_fn
    [[0]; [0]; [0]] [0; 0; 0] elem_idxs elem_codec.

End SumModel.

(** ** Statistic functions that index tables

    The statistic functions of [Bernoulli] and [Categorical] index arrays
    with the symbol, and numpy raises on an index outside the array or on
    arrays of shapes that do not fit.  [NonUniform_raising] is
    [NonUniform] (same source, same order of calls) for statistic
    functions that may raise: an exception of [enc_statfun] or
    [dec_statfun] ends [push] or [pop]. *)

Section Distributions.
Context {tail : Type} {V : Vrans tail}.

Definition NonUniform_raising {S : Type}
    (enc_statfun : S -> result (ndarray * ndarray))
    (dec_statfun : list Z -> result S) (precision : ndarray)
  : codec (Message tail) S :=
  let push (message : Message tail) (symbol : S) : result (Message tail) :=
    '(start, freq) ← enc_statfun symbol;
    Ok (vrans_push message start freq precision) in
  let pop (message : Message tail) : result (Message tail * S) :=
    let '(cf, pop_fun) := vrans_pop message precision in
    symbol ← dec_statfun cf;
    '(start, freq) ← enc_statfun symbol;
    match np_interval_check start freq cf with
    | None => Raise ValueError
    | Some false => Raise AssertionError
    | Some true =>
        message' ← of_option StackExhausted (pop_fun start freq);
        Ok (message', symbol)
    end in
  (push, pop).

(** [a[i]] for a 1-d array and an integer: a negative index counts from
    the end, an index outside [-len, len) raises [IndexError]. *)
Definition np_getitem (a : list Z) (i : Z) : result Z :=
  let n := Z.of_nat (length a) in
  if (0 <=? i) && (i <? n) then of_option IndexError (a !! Z.to_nat i)
  else if (- n <=? i) && (i <? 0) then of_option IndexError (a !! Z.to_nat (n + i))
  else Raise IndexError.

(** [[
    def _cdf_to_enc_statfun(cdf):
        def enc_statfun(s):
            lower = cdf(s)
            return lower, cdf(s + 1) - lower
        return enc_statfun
    ]]

    The values of every [cdf] of the module are uint64 arrays, so the
    difference wraps at 64 bits.  Symbols are integers far below the end
    of their integer type, so [s + 1] is the successor. *)
Definition _cdf_to_enc_statfun (cdf : list Z -> result (list Z)) (s : list Z)
  : result (ndarray * ndarray) :=
  lower ← cdf s;
  upper ← cdf (Z.succ <$> s);
  Ok (array lower, array (zip_with (fun u l => uint64 (u - l)) upper lower)).

(** [[
    def _cdf_from_cumulative_buckets(c_buckets):
        def cdf(s):
            ret = np.take_along_axis(c_buckets, s[..., np.newaxis], axis=-1)
            return ret[..., 0]
        return cdf
    ]]

    for a 2-d table with one row per lane and a 1-d array [s] of symbols:
    entry [i] of the result is [c_buckets[i][s[i]]]; the rows and the
    symbols broadcast against each other, and a failure to do so is the
    [IndexError] of numpy's index broadcasting. *)
Definition _cdf_from_cumulative_buckets (c_buckets : list (list Z)) (s : list Z)
  : result (list Z) :=
  picks ← of_option IndexError (np_broadcast2 np_getitem c_buckets s);
  mapM id picks.

(** [np.searchsorted(a, v, 'right')] on a sorted array [a]: the number of
    entries that are at most [v], which is the index [i] with
    [a[i-1] <= v < a[i]]. *)
Definition np_searchsorted_right (a : list Z) (v : Z) : Z :=
  Z.of_nat (length (filter (fun x => x <= v) a)).

(** [[
    def _ppf_from_cumulative_buckets(c_buckets):
        *shape, n = np.shape(c_buckets)
        cumulative_buckets = np.reshape(c_buckets, (-1, n))
        def ppf(cfs):
            cfs = np.ravel(cfs)
            ret = np.array(
                [np.searchsorted(bucket, cf, 'right') - 1 for bucket, cf in
                 zip(cumulative_buckets, cfs)])
            return np.reshape(ret, shape)
        return ppf
    ]]

    for a 2-d table: [shape] is the number of rows, [zip] stops at the
    shorter of the rows and [cfs], and [np.reshape] raises [ValueError]
    unless one symbol per row was found. *)
Definition _ppf_from_cumulative_buckets (c_buckets : list (list Z)) (cfs : list Z)
  : result (list Z) :=
  let ret := zip_with (fun bucket cf => np_searchsorted_right bucket cf - 1)
               c_buckets cfs in
  if bool_decide (length ret = length c_buckets) then Ok ret else Raise ValueError.

(** [[
    def Categorical(p, prec):
        cumulative_buckets = _cumulative_buckets_from_probs(p, prec)
        enc_statfun = _cdf_to_enc_statfun(_cdf_from_cumulative_buckets(cumulative_buckets))
        dec_statfun = _ppf_from_cumulative_buckets(cumulative_buckets)
        return NonUniform(enc_statfun, dec_statfun, prec)
    ]]

    As for [_cumulative_buckets_from_probs], the argument is the int64
    array [scaled] that the first line of that function computes from
    [p], one row per lane.  Building the codec raises if building the
    table does. *)
Definition Categorical (scaled : list (list Z)) (prec : Z)
  : result (codec (Message tail) (list Z)) :=
  cumulative_buckets ← _cumulative_buckets_from_probs_rows scaled prec;
  let enc_statfun :=
    _cdf_to_enc_statfun (_cdf_from_cumulative_buckets cumulative_buckets) in
  let dec_statfun := _ppf_from_cumulative_buckets cumulative_buckets in
  Ok (NonUniform_raising enc_statfun dec_statfun (scalar prec)).

(** [[
    def _ensure_nonzero_freq_bernoulli(p, precision):
        p[p == 0] += 1
        p[p == (1 << precision)] -=1
        return p
    ]]

    on a uint64 array, the second line reading what the first has
    written; [precision] is a Python int from 0 to 63. *)
Definition _ensure_nonzero_freq_bernoulli (p : list Z) (precision : Z) : list Z :=
  let p := (fun x => if x =? 0 then uint64 (x + 1) else x) <$> p in
  (fun x => if x =? 1 ≪ precision then uint64 (x - 1) else x) <$> p.

(** [(cf + 0.5) > onemp] for two uint64 entries: both sides are taken in
    float64.  Below [2^52] the sum [cf + 0.5] is exact; from there to
    [2^53] it is a tie that rounds to the even neighbour; above, it
    rounds back to [cf]. *)
Definition np_gt_half (cf onemp : Z) : bool :=
  let c := float64_of_int cf in
  let o := float64_of_int onemp in
  if c <? 2 ^ 52 then o <=? c
  else if (c <? 2 ^ 53) && Z.odd c then o <=? c
  else o <? c.

(** [[
    def _bernoulli_cdf(p, precision, safe=True):
        def cdf(s):
            ret = np.zeros(np.shape(s), "uint64")
            onemp = _nearest_int((1 - p[s==1]) * (1 << precision))
            onemp = (_ensure_nonzero_freq_bernoulli(onemp, precision) if safe
                     else onemp)
            ret[s == 1] += onemp
            ret[s == 2] = 1 << precision
            return ret
        return cdf

    def _bernoulli_ppf(p, precision, safe=True):
        onemp = _nearest_int((1 - p) * (1 << precision))
        onemp = _ensure_nonzero_freq_bernoulli(onemp, precision) if safe else onemp
        return lambda cf: np.uint64((cf + 0.5) > onemp)

    def Bernoulli(p, prec):
        enc_statfun = _cdf_to_enc_statfun(_bernoulli_cdf(p, prec))
        dec_statfun = _bernoulli_ppf(p, prec)
        return NonUniform(enc_statfun, dec_statfun, prec)
    ]]

    The floating-point expression [_nearest_int((1 - p) * (1 << precision))]
    is the same in both functions, entry by entry; the model starts from
    its value, the uint64 array [onemp] with one entry per lane.  The
    mask [s == 1] must have the shape of [p], else numpy raises
    [IndexError]; the comparison of [_bernoulli_ppf] broadcasts, else
    [ValueError].  The precision is a Python int from 0 to 63, so that
    [1 << precision] is a uint64. *)
Definition _bernoulli_cdf (onemp : list Z) (precision : Z) (safe : bool)
    (s : list Z) : result (list Z) :=
  if bool_decide (length s = length onemp) then
    let onemp := if safe then _ensure_nonzero_freq_bernoulli onemp precision
                 else onemp in
    Ok (zip_with (fun si o => if si =? 2 then 1 ≪ precision
                              else if si =? 1 then o else 0) s onemp)
  else Raise IndexError.

Definition _bernoulli_ppf (onemp : list Z) (precision : Z) (safe : bool)
    (cf : list Z) : result (list Z) :=
  let onemp := if safe then _ensure_nonzero_freq_bernoulli onemp precision
               else onemp in
  of_option ValueError
    (np_broadcast2 (fun c o => if np_gt_half c o then 1 else 0) cf onemp).

Definition Bernoulli (onemp : list Z) (prec : Z) : codec (Message tail) (list Z) :=
  let enc_statfun := _cdf_to_enc_statfun (_bernoulli_cdf onemp prec true) in
  let dec_statfun := _bernoulli_ppf onemp prec true in
  NonUniform_raising enc_statfun dec_statfun (scalar prec).

(** [[
    def parallel(codecs, view_funs):
        codecs = [substack(codec, view_fun)
                  for codec, view_fun in zip(codecs, view_funs)]
        def push(message, symbols):
            assert len(symbols) == len(codecs)
            for (push, _), symbol in reversed(list(zip(codecs, symbols))):
                message = push(message, symbol)
            return message
        def pop(message):
            symbols = []
            for _, pop in codecs:
                message, symbol = pop(message)
                symbols.append(symbol)
            assert len(symbols) == len(codecs)
            return message, symbols
        return push, pop
    ]]

    The two loops are those of [serial]. *)
Definition parallel {S : Type} (codecs : list (codec (Message tail) S))
    (view_funs : list view) : codec (Message tail) (list S) :=
  let codecs := zip_with substack codecs view_funs in
  let push (message : Message tail) (symbols : list S) : result (Message tail) :=
    if bool_decide (length symbols = length codecs)
    then serial_push (reverse (zip codecs symbols)) message
    else Raise AssertionError in
  let pop (message : Message tail) : result (Message tail * list S) :=
    '(message, symbols) ← serial_pop codecs message;
    if bool_decide (length symbols = length codecs) then Ok (message, symbols)
    else Raise AssertionError in
  (push, pop).

End Distributions.

(** A codec decodes on the messages [wf] into the symbols [dom]: whenever
    [pop] returns, its message is again one of [wf], the symbol lies in
    [dom], and pushing the symbol back gives the message popped from. *)
Definition pop_push {M S : Type} (wf : M -> Prop) (dom : S -> Prop)
    (c : codec M S) : Prop :=
  forall m m' s, wf m -> c.2 m = Ok (m', s) ->
    wf m' /\ dom s /\ c.1 m' s = Ok m.

(** [statfuns_ok] for statistic functions that may raise: on [dom] they
    return, with valid intervals that [dec_statfun] sends back to the
    symbol. *)
Definition statfuns_return {S : Type} (n : nat)
    (enc_statfun : S -> result (ndarray * ndarray))
    (dec_statfun : list Z -> result S) (precision : ndarray)
    (dom : S -> Prop) : Prop :=
  forall s, dom s ->
    exists start freq,
      enc_statfun s = Ok (start, freq)
      /\ intervals_ok n start freq precision
      /\ forall cf, in_intervals n start freq cf -> dec_statfun cf = Ok s.

(** The symbols a table codes: one index of a bucket per row. *)
Definition categorical_dom (scaled : list (list Z)) (s : list Z) : Prop :=
  Forall2 (fun x row => 0 <= x < Z.of_nat (length row)) s scaled.

(** The rows [_cumulative_buckets_from_probs] is meant for: non-negative
    entries whose int64 sum does not overflow. *)
Definition scaled_row (row : list Z) : Prop :=
  Forall (fun x => 0 <= x) row /\ Zsum row + Z.of_nat (length row) < 2 ^ 63.

(** ** The bucket caches

    [[
    std_gaussian_bucket_cache = {}  # Stores bucket endpoints
    std_gaussian_centres_cache = {}  # Stores bucket centres

    def std_gaussian_buckets(precision):
        if precision in std_gaussian_bucket_cache:
            return std_gaussian_bucket_cache[precision]
        else:
            buckets = norm.ppf(np.linspace(0, 1, (1 << precision) + 1))
            std_gaussian_bucket_cache[precision] = buckets
            return buckets

    def std_gaussian_centres(precision):
        if precision in std_gaussian_centres_cache:
            return std_gaussian_centres_cache[precision]
        else:
            centres = np.float32(
                norm.ppf((np.arange(1 << precision) + 0.5) / (1 << precision)))
            std_gaussian_centres_cache[precision] = centres
            return centres
    ]]

    The two module-level dicts are the state that a call reads and
    returns.  The floating-point expressions that fill them are the
    parameters [bucket_endpoints] and [bucket_centres]; they may raise
    ([1 << precision] does for a negative precision), and then the dict
    is left as it was.  Arrays are values here: no caller writes into an
    array it was handed. *)

Section Caches.
Context {A B : Type}.
Variable bucket_endpoints : Z -> result A.
Variable bucket_centres : Z -> result B.

Record caches : Type := {
  std_gaussian_bucket_cache : gmap Z A;
  std_gaussian_centres_cache : gmap Z B
}.

Definition std_gaussian_buckets (precision : Z) (st : caches)
  : result (A * caches) :=
  match std_gaussian_bucket_cache st !! precision with
  | Some buckets => Ok (buckets, st)
  | None =>
      buckets ← bucket_endpoints precision;
      Ok (buckets,
          {| std_gaussian_bucket_cache :=
               <[precision := buckets]> (std_gaussian_bucket_cache st);
             std_gaussian_centres_cache := std_gaussian_centres_cache st |})
  end.

Definition std_gaussian_centres (precision : Z) (st : caches)
  : result (B * caches) :=
  match std_gaussian_centres_cache st !! precision with
  | Some centres => Ok (centres, st)
  | None =>
      centres ← bucket_centres precision;
      Ok (centres,
          {| std_gaussian_bucket_cache := std_gaussian_bucket_cache st;
             std_gaussian_centres_cache :=
               <[precision := centres]> (std_gaussian_centres_cache st) |})
  end.

(** The states of the two dicts that calls of the two functions lead to,
    from the empty dicts of a freshly loaded module. *)
Inductive reachable : caches -> Prop :=
  | reachable_loaded :
      reachable {| std_gaussian_bucket_cache := ∅;
                   std_gaussian_centres_cache := ∅ |}
  | reachable_buckets st precision buckets st' :
      reachable st ->
      std_gaussian_buckets precision st = Ok (buckets, st') ->
      reachable st'
  | reachable_centres st precision centres st' :
      reachable st ->
      std_gaussian_centres precision st = Ok (centres, st') ->
      reachable st'.

End Caches.

Section Shrinking.
Context {tail : Type} {V : Vrans tail}.

(** The words [Benford64] pushes while [_resize_head_1d] shrinks a head,
    in the order they are pushed: the lanes [head[new_size:]] cut off at
    each step. *)
Fixpoint resize_shrink_words (steps : list (codec (Message tail) (list Z) * Z))
    (message : Message tail) : list Z :=
  match steps with
  | [] => []
  | ((push, _), new_size) :: steps' =>
      drop (Z.to_nat new_size) message.1
      ++ match push (take (Z.to_nat new_size) message.1, message.2)
                 (drop (Z.to_nat new_size) message.1) with
         | Ok message' => resize_shrink_words steps' message'
         | _ => []
         end
  end.

Definition reshape_shrink_words (np_log2 : Z -> Z) (message : Message tail)
    (size : Z) : list Z :=
  match resize_sizes size (Z.of_nat (length message.1)) with
  | Ok sizes =>
      resize_shrink_words
        (reverse (zip (_fold_codecs np_log2 sizes) (removelast sizes))) message
  | _ => []
  end.

End Shrinking.

(* ================================================================== *)
(** * Properties *)

(** ** The folding schedule *)

Lemma fold_loop_more_fuel fuel fuel' small big l :
  (fuel <= fuel')%nat ->
  _fold_sizes_loop fuel small big = Some l ->
  _fold_sizes_loop fuel' small big = Some l.
Proof.
  revert fuel' small l.
  induction fuel as [|fuel IH]; intros fuel' small l Hle Hrun.
  - simpl in Hrun. destruct fuel'; simpl; destruct (small =? big); congruence.
  - destruct fuel' as [|fuel']; [lia|].
    simpl in *. destruct (small =? big); [done|].
    destruct (_fold_sizes_loop fuel _ big) as [l'|] eqn:E; [|done].
    rewrite (IH fuel' _ l'); [done|lia|done].
Qed.

Lemma fold_loop_terminates fuel small big :
  1 <= small <= big -> big <= small * 2 ^ Z.of_nat fuel ->
  exists l, _fold_sizes_loop fuel small big = Some l
            /\ doubling_from big small l
            /\ increasing_from small l
            /\ list.last (small :: l) = Some big.
Proof.
  revert small. induction fuel as [|fuel IH]; intros small Hs Hb.
  - assert (small = big) as -> by (simpl in Hb; lia).
    exists []. simpl. rewrite Z.eqb_refl. done.
  - simpl _fold_sizes_loop.
    destruct (Z.eqb_spec small big) as [->|Hne].
    { exists []. done. }
    rewrite Nat2Z.inj_succ, Z.pow_succ_r in Hb by lia.
    set (small' := if 2 * small <=? big then 2 * small else big).
    assert (1 <= small' <= big /\ small < small'
            /\ small' = Z.min (2 * small) big) as (Hs' & Hlt & Hmin).
    { unfold small'. destruct (Z.leb_spec (2 * small) big); lia. }
    destruct (IH small' Hs') as (l & Hrun & Hd & Hi & Hl).
    { unfold small'. destruct (Z.leb_spec (2 * small) big); nia. }
    exists (small' :: l). rewrite Hrun. done.
Qed.

Lemma fold_loop_diverges fuel small big :
  small <= 0 -> small < big -> _fold_sizes_loop fuel small big = None.
Proof.
  revert small. induction fuel as [|fuel IH]; intros small H0 Hlt; simpl.
  - destruct (Z.eqb_spec small big); [lia|done].
  - destruct (Z.eqb_spec small big); [lia|].
    destruct (Z.leb_spec (2 * small) big); [|lia].
    rewrite IH; [done|lia|lia].
Qed.

Lemma fold_fuel_bound small big :
  1 <= small <= big -> big <= small * 2 ^ Z.of_nat (fold_fuel big).
Proof.
  intros H. unfold fold_fuel.
  rewrite Nat2Z.inj_succ, Z.pow_succ_r, Z2Nat.id by (try apply Z.log2_up_nonneg; lia).
  pose proof (Z.log2_log2_up_spec big ltac:(lia)) as [_ Hup].
  nia.
Qed.

(** The fuel [_fold_sizes] runs with loses nothing: when it is not enough,
    no amount of fuel is. *)
Lemma fold_fuel_adequate small big :
  _fold_sizes small big = Diverge <->
  forall fuel, _fold_sizes_fuel fuel small big = None.
Proof.
  unfold _fold_sizes, _fold_sizes_fuel. split.
  - intros Hd fuel.
    destruct (Z.lt_trichotomy small big) as [Hlt|[->|Hgt]].
    + destruct (Z.le_gt_cases small 0) as [H0|H1].
      * rewrite fold_loop_diverges; done.
      * destruct (fold_loop_terminates (fold_fuel big) small big) as (l & Hl & _);
          [lia|apply fold_fuel_bound; lia|].
        rewrite Hl in Hd. done.
    + unfold fold_fuel in Hd. simpl in Hd. rewrite Z.eqb_refl in Hd. done.
    + destruct (2 * small <=? big) eqn:E2;
        [apply Z.leb_le in E2 as H2|apply Z.leb_gt in E2 as H2].
      * destruct (Z.eq_dec (2 * small) big) as [Heq|Hne].
        { unfold fold_fuel in Hd. simpl in Hd.
          destruct (Z.eqb_spec small big); [lia|].
          rewrite E2 in Hd. simpl in Hd.
          destruct (Z.to_nat _); simpl in Hd;
            destruct (Z.eqb_spec (2 * small) big); done. }
        destruct fuel as [|fuel]; simpl;
          destruct (Z.eqb_spec small big); try lia; [done|].
        rewrite E2. rewrite fold_loop_diverges; [done|lia|lia].
      * unfold fold_fuel in Hd. simpl in Hd.
        destruct (Z.eqb_spec small big); [lia|].
        rewrite E2 in Hd. simpl in Hd.
        destruct (Z.to_nat _); simpl in Hd; rewrite Z.eqb_refl in Hd; done.
  - intros Hall. rewrite (Hall (fold_fuel big)). done.
Qed.

(** C8.  For 1 <= small <= big the loop of [_fold_sizes] exits: from some
    amount of fuel on it returns one and the same list, which starts at
    [small], ends at [big], doubles (capped at [big]) from each element to
    the next and is strictly increasing; and it is the schedule
    [_resize_head_1d] computes for any target size and head size whose
    sorted pair is [(small, big)]. *)
Theorem fold_sizes_terminates (small big : Z) :
  1 <= small <= big ->
  exists sizes,
    (exists n, forall fuel, (n <= fuel)%nat ->
               _fold_sizes_fuel fuel small big = Some sizes)
    /\ _fold_sizes small big = Ok sizes
    /\ head sizes = Some small
    /\ list.last sizes = Some big
    /\ doubling big sizes
    /\ increasing sizes
    /\ (forall size n, Z.min size n = small -> Z.max size n = big ->
        resize_sizes size n = Ok sizes).
Proof.
  intros H.
  destruct (fold_loop_terminates (fold_fuel big) small big H
              (fold_fuel_bound small big H)) as (l & Hrun & Hd & Hi & Hl).
  exists (small :: l).
  assert (_fold_sizes small big = Ok (small :: l)) as Hfs.
  { unfold _fold_sizes, _fold_sizes_fuel. rewrite Hrun. done. }
  repeat split; try done.
  - exists (fold_fuel big). intros fuel Hle. unfold _fold_sizes_fuel.
    rewrite (fold_loop_more_fuel _ _ _ _ _ Hle Hrun). done.
  - intros size n <- <-. done.
Qed.

Lemma fold_sizes_terminates_witness :
  exists sizes,
    (exists n, forall fuel, (n <= fuel)%nat ->
               _fold_sizes_fuel fuel 3 20 = Some sizes)
    /\ _fold_sizes 3 20 = Ok sizes
    /\ head sizes = Some 3
    /\ list.last sizes = Some 20
    /\ doubling 20 sizes
    /\ increasing sizes
    /\ (forall size n, Z.min size n = 3 -> Z.max size n = 20 ->
        resize_sizes size n = Ok sizes).
Proof. apply (fold_sizes_terminates 3 20). lia. Defined.

Example fold_sizes_3_20 : _fold_sizes 3 20 = Ok [3; 6; 12; 20].
Proof. reflexivity. Qed.

Example fold_sizes_from_zero fuel : _fold_sizes_fuel fuel 0 4 = None.
Proof. unfold _fold_sizes_fuel. rewrite fold_loop_diverges; [done|lia|lia]. Qed.

Lemma fold_sizes_from_zero_one fuel : _fold_sizes_fuel fuel 0 1 = None.
Proof. unfold _fold_sizes_fuel. rewrite fold_loop_diverges; [done|lia|lia]. Qed.

(** ** Cumulative bucket tables *)

Lemma int64_small z : - 2 ^ 63 <= z < 2 ^ 63 -> int64 z = z.
Proof. intros H. unfold int64. rewrite Z.mod_small; lia. Qed.

Lemma uint64_small z : 0 <= z < 2 ^ 64 -> uint64 z = z.
Proof. intros H. unfold uint64. rewrite Z.mod_small; lia. Qed.

Lemma float64_of_int_small z : Z.abs z <= 2 ^ 53 -> float64_of_int z = z.
Proof.
  intros H. unfold float64_of_int.
  destruct (Z.leb_spec (Z.log2 (Z.abs z) - 52) 0) as [|He]; [done|].
  assert (Z.abs z = 2 ^ 53) as Ha.
  { destruct (Z.eq_dec (Z.abs z) (2 ^ 53)) as [|Hne]; [done|].
    assert (0 < Z.abs z).
    { destruct (Z.eq_dec z 0) as [->|]; [simpl in He|]; lia. }
    assert (Z.log2 (Z.abs z) < 53); [|lia].
    apply Z.log2_lt_pow2; lia. }
  assert (z = 2 ^ 53 \/ z = - 2 ^ 53) as [-> | ->] by lia; reflexivity.
Qed.

Lemma table_entry_exact c :
  0 <= c <= 2 ^ 53 -> uint64_of_float64 (float64_of_int c) = c.
Proof.
  intros H. rewrite float64_of_int_small by lia.
  apply uint64_small. lia.
Qed.

Lemma Zsum_cons x l : Zsum (x :: l) = x + Zsum l.
Proof. reflexivity. Qed.

Lemma Forall_pos_nonneg l :
  Forall (fun x => 1 <= x) l -> Forall (fun x => 0 <= x) l.
Proof. intros H. eapply list.Forall_impl; [exact H|]. intros x Hx; simpl in *; lia. Qed.

Lemma Zsum_nonneg l : Forall (fun x => 0 <= x) l -> 0 <= Zsum l.
Proof. induction 1; simpl; lia. Qed.

Lemma Zsum_lookup_le l i x :
  Forall (fun x => 0 <= x) l -> l !! i = Some x -> x <= Zsum l.
Proof.
  intros Hl. revert i. induction Hl as [|y l Hy Hl IH]; intros [|i] Hi;
    simpl in *; try done.
  - inversion Hi; subst. pose proof (Zsum_nonneg l Hl). lia.
  - specialize (IH i Hi). lia.
Qed.

Lemma Zsum_insert l i x y :
  l !! i = Some x -> Zsum (<[i:=y]> l) = Zsum l - x + y.
Proof.
  revert i. induction l as [|z l IH]; intros [|i] Hi; simpl in *; try done.
  - inversion Hi; subst. lia.
  - rewrite (IH i Hi). lia.
Qed.

Lemma np_sum_int64_exact l :
  Forall (fun x => 0 <= x) l -> Zsum l < 2 ^ 63 -> np_sum_int64 l = Zsum l.
Proof.
  unfold np_sum_int64. intros Hl.
  enough (forall acc, 0 <= acc -> acc + Zsum l < 2 ^ 63 ->
          fold_left (fun acc x => int64 (acc + x)) l acc = acc + Zsum l) as Hgen.
  { intros. rewrite Hgen; lia. }
  induction Hl as [|x l Hx Hl IH]; intros acc Hacc Hb; simpl in *; [lia|].
  pose proof (Zsum_nonneg l Hl).
  rewrite int64_small by lia. rewrite IH; lia.
Qed.

Lemma np_cumsum_int64_exact l acc :
  Forall (fun x => 0 <= x) l -> 0 <= acc -> acc + Zsum l < 2 ^ 63 ->
  np_cumsum_int64 acc l = prefix_sums acc l.
Proof.
  intros Hl. revert acc.
  induction Hl as [|x l Hx Hl IH]; intros acc Hacc Hb; simpl in *; [done|].
  pose proof (Zsum_nonneg l Hl).
  rewrite int64_small by lia. rewrite IH; [done|lia|lia].
Qed.

Lemma np_argmax_from_lt l bi b i :
  (bi < i)%nat -> (np_argmax_from bi b i l < i + length l)%nat.
Proof.
  revert bi b i. induction l as [|x l IH]; intros bi b i Hbi; simpl; [lia|].
  destruct (b <? x).
  - specialize (IH i x (S i)). lia.
  - specialize (IH bi b (S i)). lia.
Qed.

Lemma np_argmax_lt l i : np_argmax l = Some i -> (i < length l)%nat.
Proof.
  destruct l as [|x l]; simpl; [done|]. intros [= <-].
  pose proof (np_argmax_from_lt l 0 x 1). lia.
Qed.

Lemma prefix_sums_bounds acc l :
  Forall (fun x => 1 <= x) l ->
  Forall (fun c => acc < c <= acc + Zsum l) (prefix_sums acc l).
Proof.
  intros Hl. revert acc.
  induction Hl as [|x l Hx Hl IH]; intros acc; cbn [prefix_sums].
  - constructor.
  - assert (0 <= Zsum l) by (by apply Zsum_nonneg, Forall_pos_nonneg).
    rewrite Zsum_cons.
    constructor; [lia|].
    eapply list.Forall_impl; [apply IH|]. simpl. intros c Hc. lia.
Qed.

Lemma prefix_sums_diff acc l : np_diff (acc :: prefix_sums acc l) = l.
Proof.
  revert acc. induction l as [|x l IH]; intros acc; [done|].
  specialize (IH (acc + x)). unfold np_diff in *. simpl in *.
  rewrite IH. f_equal. lia.
Qed.

Lemma prefix_sums_last acc l :
  list.last (acc :: prefix_sums acc l) = Some (acc + Zsum l).
Proof.
  revert acc. induction l as [|x l IH]; intros acc; cbn [prefix_sums].
  - simpl. f_equal. lia.
  - rewrite last_cons_cons, IH, Zsum_cons. f_equal. lia.
Qed.

Lemma prefix_sums_sorted acc l :
  Forall (fun x => 1 <= x) l -> StronglySorted Z.le (acc :: prefix_sums acc l).
Proof.
  intros Hl. revert acc. induction Hl as [|x l Hx Hl IH]; intros acc.
  - repeat constructor.
  - constructor; [apply IH|].
    pose proof (prefix_sums_bounds acc (x :: l) (Forall_cons_2 _ _ _ Hx Hl)) as Hb.
    eapply list.Forall_impl; [apply Hb|]. simpl. intros; lia.
Qed.

Lemma prefix_sums_length acc l : length (prefix_sums acc l) = length l.
Proof. revert acc. induction l; intros; simpl; [done|]. by rewrite IHl. Qed.

(** One row: under the stated bounds the returned table is the exact list
    of running sums of the rebalanced widths. *)
Lemma cumulative_buckets_row scaled precision t :
  0 <= precision <= 53 ->
  Forall (fun x => 0 <= x) scaled ->
  Zsum scaled + Z.of_nat (length scaled) < 2 ^ 63 ->
  _cumulative_buckets_from_probs scaled precision = Ok t ->
  length t = S (length scaled)
  /\ stat_table precision t
  /\ StronglySorted Z.le t.
Proof.
  intros Hp Hnn Hsum. unfold _cumulative_buckets_from_probs.
  set (probs := (fun x => if x =? 0 then 1 else x) <$> scaled).
  assert (Forall (fun x => 1 <= x) probs) as Hpos.
  { unfold probs. apply Forall_fmap. eapply list.Forall_impl; [exact Hnn|].
    simpl. intros x Hx. destruct (Z.eqb_spec x 0); lia. }
  assert (Zsum probs <= Zsum scaled + Z.of_nat (length scaled)) as Hle.
  { unfold probs. clear. induction scaled as [|x l IH]; [simpl; lia|].
    rewrite fmap_cons, !Zsum_cons. cbn [length]. rewrite Nat2Z.inj_succ.
    destruct (Z.eqb_spec x 0); lia. }
  assert (Forall (fun x => 0 <= x) probs) as Hnn'
    by (by apply Forall_pos_nonneg).
  assert (length probs = length scaled) as Hlen by (unfold probs; apply length_fmap).
  destruct (np_argmax probs) as [i|] eqn:Harg; simpl; [|done].
  apply np_argmax_lt in Harg.
  destruct (lookup_lt_is_Some_2 probs i Harg) as [m Hm].
  rewrite Hm. simpl.
  pose proof (Zsum_lookup_le _ _ _ Hnn' Hm) as Hmle.
  assert (1 <= m) as Hm1.
  { eapply (Forall_lookup_1 _ probs); done. }
  assert (0 < 2 ^ precision <= 2 ^ 53) as Hpow.
  { split; [apply Z.pow_pos_nonneg; lia|apply Z.pow_le_mono_r; lia]. }
  rewrite Z.shiftl_1_l.
  rewrite np_sum_int64_exact by (done || lia).
  rewrite (int64_small (2 ^ precision - Zsum probs)) by lia.
  rewrite (int64_small (m + _)) by lia.
  destruct (Z.leb_spec (m + (2 ^ precision - Zsum probs)) 0) as [|Hlow]; [done|].
  set (q := <[i:=m + (2 ^ precision - Zsum probs)]> probs).
  assert (Forall (fun x => 1 <= x) q) as Hq.
  { unfold q. apply Forall_insert; [done|lia]. }
  assert (Zsum q = 2 ^ precision) as Hqs.
  { unfold q. rewrite (Zsum_insert _ _ m) by done. lia. }
  assert (Forall (fun x => 0 <= x) q) as Hq0
    by (by apply Forall_pos_nonneg).
  rewrite np_cumsum_int64_exact by (done || lia).
  pose proof (prefix_sums_bounds 0 q Hq) as Hb. rewrite Hqs in Hb.
  assert ((fun c => uint64_of_float64 (float64_of_int c)) <$> (0 :: prefix_sums 0 q)
          = 0 :: prefix_sums 0 q) as Heq.
  { rewrite <- (list_fmap_id (0 :: prefix_sums 0 q)) at 2.
    apply Forall_fmap_ext_1. constructor.
    - reflexivity.
    - eapply list.Forall_impl; [exact Hb|]. simpl. intros c Hc.
      unfold id. apply table_entry_exact. lia. }
  simpl in Heq. rewrite Heq. intros [= <-].
  split; [|split].
  - simpl. rewrite prefix_sums_length. unfold q. rewrite length_insert. lia.
  - unfold stat_table. rewrite prefix_sums_diff, prefix_sums_last, Hqs.
    repeat split; try done.
  - by apply prefix_sums_sorted.
Qed.

(** X25.  For a precision of at most 53 bits and rows of non-negative
    scaled probabilities whose int64 sum does not overflow, whenever the
    rebalance assertion passes every returned table has one more entry
    than its row, starts at 0, ends at [2 ^ precision], is
    non-decreasing, has all adjacent differences at least 1, and its
    widths add up to [2 ^ precision]. *)
Theorem cumulative_buckets_partition (scaled : list (list Z)) (precision : Z)
    (tables : list (list Z)) :
  0 <= precision <= 53 ->
  Forall (fun row => Forall (fun x => 0 <= x) row
                     /\ Zsum row + Z.of_nat (length row) < 2 ^ 63) scaled ->
  _cumulative_buckets_from_probs_rows scaled precision = Ok tables ->
  Forall2 (fun row t => length t = S (length row)
                        /\ stat_table precision t
                        /\ StronglySorted Z.le t) scaled tables.
Proof.
  intros Hp Hrows. revert tables.
  unfold _cumulative_buckets_from_probs_rows.
  induction Hrows as [|row rows [Hnn Hsum] Hrows IH]; intros tables Hrun.
  - simpl in Hrun. injection Hrun as <-. constructor.
  - cbn [mapM] in Hrun.
    destruct (_cumulative_buckets_from_probs row precision) as [t| |] eqn:Hrow;
      simpl in Hrun; try done.
    destruct (mapM _ rows) as [ts| |] eqn:Hrest; simpl in Hrun; try done.
    injection Hrun as <-.
    constructor; [|by apply IH].
    by apply cumulative_buckets_row.
Qed.

Lemma cumulative_buckets_partition_witness :
  Forall2 (fun row t => length t = S (length row)
                        /\ stat_table 8 t
                        /\ StronglySorted Z.le t)
    [[256; 0]; [100; 0; 100; 56; 0]]
    [[0; 255; 256]; [0; 98; 99; 199; 255; 256]].
Proof.
  apply (cumulative_buckets_partition
           [[256; 0]; [100; 0; 100; 56; 0]] 8
           [[0; 255; 256]; [0; 98; 99; 199; 255; 256]]).
  - lia.
  - repeat constructor; simpl; lia.
  - reflexivity.
Defined.

(** C2.  The docstring of [_cumulative_buckets_from_probs] reads
    "Ensure each bucket has at least frequency 1", and the code breaks
    it: for the probability vector [1 - 2^-53; 2^-60] at precision 60
    the scaled row is [2^60 - 128; 1], the assertion passes, and the
    float64 detour of [np.concatenate] rounds the cumulative sum
    [2^60 - 1] up to [2^60]; the returned table is [0; 2^60; 2^60],
    which leaves symbol 1 a bucket of width 0. *)
Lemma cumulative_buckets_precision_60 :
  Forall (fun x => 0 <= x) [2 ^ 60 - 128; 1]
  /\ _cumulative_buckets_from_probs [2 ^ 60 - 128; 1] 60
     = Ok [0; 2 ^ 60; 2 ^ 60]
  /\ ~ Forall (fun w => 1 <= w) (np_diff [0; 2 ^ 60; 2 ^ 60]).
Proof.
  split; [repeat constructor; lia|]. split; [reflexivity|].
  intros H. inversion H as [|? ? _ H']; subst.
  inversion H' as [|? ? Hw _]; subst. lia.
Qed.

(** ** The reference primitive satisfies the contract *)

Lemma shaped_broadcasts n v : shaped n v -> broadcasts n v.
Proof. destruct v; simpl; auto. Qed.

Lemma np_lanes_shaped n v : shaped n v -> np_lanes n v = lanes n v.
Proof.
  destruct v as [z|[|z [|z' l]]]; simpl; try done. by intros <-.
Qed.

Lemma lor_shiftl_add a w k :
  0 <= k -> 0 <= w < 2 ^ k -> Z.lor (a ≪ k) w = a * 2 ^ k + w.
Proof.
  intros Hk Hw. rewrite <- Z.shiftl_mul_pow2 by done.
  symmetry. apply Z.add_nocarry_lor.
  apply Z.bits_inj'. intros n Hn.
  rewrite Z.land_spec, Z.bits_0.
  destruct (Z.lt_ge_cases n k) as [Hlt|Hge].
  - rewrite Z.shiftl_spec_low by done. done.
  - rewrite <- (Z.mod_small w (2 ^ k)) by done.
    rewrite Z.mod_pow2_bits_high by lia. apply andb_false_r.
Qed.

Lemma pow2_split p : 0 <= p <= 31 -> 2 ^ p * 2 ^ (31 - p) = 2 ^ 31.
Proof. intros Hp. rewrite <- Z.pow_add_r by lia. f_equal. lia. Qed.

Lemma rans_threshold p :
  0 <= p <= 31 -> (Reference.rans_l ≫ p) ≪ 32 = 2 ^ (31 - p) * 2 ^ 32.
Proof.
  intros Hp. unfold Reference.rans_l.
  rewrite Z.shiftl_mul_pow2, Z.shiftr_div_pow2, Z.shiftl_mul_pow2 by lia.
  rewrite Z.mul_1_l. f_equal.
  symmetry. apply Z.div_unique_exact; [apply Z.pow_nonzero; lia|].
  by rewrite pow2_split.
Qed.

(** The coding step on one lane, and its inverse, in plain arithmetic. *)
Lemma encode_step_decodes h1 s f P :
  0 <= h1 -> 0 < f -> 0 <= s -> s + f <= P ->
  let h' := h1 / f * P + h1 mod f + s in
  h' mod P = h1 mod f + s /\ h' / P = h1 / f
  /\ f * (h' / P) + h' mod P - s = h1.
Proof.
  intros Hh Hf Hs HP. cbv zeta.
  pose proof (Z.mod_pos_bound h1 f Hf) as Hr.
  pose proof (Z.div_mod h1 f ltac:(lia)) as Hdm.
  assert ((h1 / f * P + h1 mod f + s) mod P = h1 mod f + s) as Hm.
  { symmetry. apply (Z.mod_unique_pos _ _ (h1 / f)); lia. }
  assert ((h1 / f * P + h1 mod f + s) / P = h1 / f) as Hd.
  { symmetry. apply (Z.div_unique_pos _ _ _ (h1 mod f + s)); lia. }
  rewrite Hm, Hd. lia.
Qed.

Lemma decode_step_encodes h s f P :
  0 <= h -> 0 < f -> 0 < P -> s <= h mod P < s + f ->
  let h1 := f * (h / P) + h mod P - s in
  h1 / f = h / P /\ h1 mod f = h mod P - s /\ h1 / f * P + h1 mod f + s = h.
Proof.
  intros Hh Hf HP Hc. cbv zeta.
  pose proof (Z.div_mod h P ltac:(lia)) as Hdm.
  assert ((f * (h / P) + h mod P - s) / f = h / P) as Hd.
  { symmetry. apply (Z.div_unique_pos _ _ _ (h mod P - s)); lia. }
  assert ((f * (h / P) + h mod P - s) mod f = h mod P - s) as Hm.
  { symmetry. apply (Z.mod_unique_pos _ _ (h / P)); lia. }
  rewrite Hd, Hm. lia.
Qed.

Lemma push_lane_spec h s f p :
  word h -> interval_ok s f p ->
  let h1 := if Reference.renormalises h f p then h ≫ 32 else h in
  let h' := ((h1 / f) ≪ p) + h1 mod f + s in
  word h'
  /\ s <= Z.land h' (Z.ones p) < s + f
  /\ f * (h' ≫ p) + Z.land h' (Z.ones p) - s = h1
  /\ (if Reference.renormalises h f p
      then h1 < Reference.rans_l
           /\ Z.lor (h1 ≪ 32) (Z.land h (Z.ones 32)) = h
           /\ 0 <= Z.land h (Z.ones 32) < 2 ^ 32
      else ~ h1 < Reference.rans_l).
Proof.
  intros [Hlo Hhi] (Hp & Hf & Hs & Hsf). cbv zeta.
  unfold Reference.renormalises. rewrite rans_threshold by done.
  pose proof (pow2_split p Hp) as Hsplit.
  set (P := 2 ^ p) in *. set (Q := 2 ^ (31 - p)) in *.
  assert (0 < P) by (apply Z.pow_pos_nonneg; lia).
  assert (0 < Q) by (apply Z.pow_pos_nonneg; lia).
  change Reference.rans_l with (2 ^ 31).
  change (2 ^ 63) with (2 ^ 31 * 2 ^ 32) in Hhi.
  assert (0 < 2 ^ 32) as H32 by done.
  set (W := 2 ^ 32) in *.
  destruct (Z.leb_spec (Q * W * f) h) as [Hre|Hre].
  - rewrite Z.shiftr_div_pow2 by lia. fold W.
    set (h1 := h / W).
    pose proof (Z.div_mod h W ltac:(lia)) as Hdm. fold h1 in Hdm.
    pose proof (Z.mod_pos_bound h W H32) as Hmb.
    assert (h1 < 2 ^ 31) as Hh1 by (apply Z.div_lt_upper_bound; lia).
    assert (Q * f <= h1) as Hh1' by (apply Z.div_le_lower_bound; lia).
    assert (0 <= h1) by nia.
    rewrite !Z.shiftl_mul_pow2, Z.shiftr_div_pow2, !Z.land_ones by lia.
    fold P W.
    destruct (encode_step_decodes h1 s f P) as (Hm & Hd & Hinv); try lia.
    cbv zeta in *. rewrite Hm, Hd.
    pose proof (Z.mod_pos_bound h1 f Hf) as Hr.
    assert (Q <= h1 / f) by (apply Z.div_le_lower_bound; lia).
    assert (h1 / f <= h1) by (apply Z.div_le_upper_bound; nia).
    repeat split; try lia; try nia.
    unfold W in *. rewrite <- Z.shiftl_mul_pow2 by lia.
    rewrite lor_shiftl_add by lia. lia.
  - rewrite !Z.shiftl_mul_pow2, Z.shiftr_div_pow2, !Z.land_ones by lia.
    fold P.
    destruct (encode_step_decodes h s f P) as (Hm & Hd & Hinv); try lia.
    cbv zeta in *. rewrite Hm, Hd.
    pose proof (Z.mod_pos_bound h f Hf) as Hr.
    pose proof (Z.div_mod h f ltac:(lia)) as Hdm.
    assert (h / f < Q * W) by (apply Z.div_lt_upper_bound; lia).
    assert (0 <= h / f) by (apply Z.div_pos; lia).
    repeat split; try lia; try nia.
Qed.

Lemma pop_lane_spec h s f p :
  word h -> interval_ok s f p -> s <= Z.land h (Z.ones p) < s + f ->
  let h1 := f * (h ≫ p) + Z.land h (Z.ones p) - s in
  ((h1 / f) ≪ p) + h1 mod f + s = h
  /\ (h1 < Reference.rans_l -> forall w, 0 <= w < 2 ^ 32 ->
      let h'' := Z.lor (h1 ≪ 32) w in
      word h'' /\ Reference.renormalises h'' f p = true
      /\ h'' ≫ 32 = h1 /\ Z.land h'' (Z.ones 32) = w)
  /\ (~ h1 < Reference.rans_l ->
      word h1 /\ Reference.renormalises h1 f p = false).
Proof.
  intros [Hlo Hhi] (Hp & Hf & Hs & Hsf). cbv zeta.
  unfold Reference.renormalises. rewrite rans_threshold by done.
  rewrite !Z.shiftl_mul_pow2, Z.shiftr_div_pow2, !Z.land_ones by lia.
  pose proof (pow2_split p Hp) as Hsplit.
  set (P := 2 ^ p) in *. set (Q := 2 ^ (31 - p)) in *.
  assert (0 < P) by (apply Z.pow_pos_nonneg; lia).
  assert (0 < Q) by (apply Z.pow_pos_nonneg; lia).
  change Reference.rans_l with (2 ^ 31).
  change (2 ^ 63) with (2 ^ 31 * 2 ^ 32) in Hhi |- *.
  intros Hc.
  destruct (decode_step_encodes h s f P) as (Hd & Hm & Hinv); try lia.
  cbv zeta in *. set (h1 := f * (h / P) + h mod P - s) in *.
  pose proof (Z.div_mod h P ltac:(lia)) as Hdm.
  pose proof (Z.mod_pos_bound h P ltac:(lia)) as Hmb.
  assert (Q <= h / P) as Hq by (apply Z.div_le_lower_bound; lia).
  assert (h / P < Q * 2 ^ 32) as Hq' by (apply Z.div_lt_upper_bound; nia).
  assert (f <= P) by lia.
  split; [done|]. split.
  - intros Hlt w Hw. rewrite <- Z.shiftl_mul_pow2 by lia.
    rewrite lor_shiftl_add by lia.
    assert (Q * f <= h1) by (unfold h1; nia).
    assert ((h1 * 2 ^ 32 + w) / 2 ^ 32 = h1) as Hd32.
    { symmetry. apply (Z.div_unique_pos _ _ _ w); lia. }
    assert ((h1 * 2 ^ 32 + w) mod 2 ^ 32 = w) as Hm32.
    { symmetry. apply (Z.mod_unique_pos _ _ h1); lia. }
    rewrite Z.shiftr_div_pow2, Z.land_ones, Hd32, Hm32 by lia.
    unfold word. repeat split; first [lia | nia | apply Z.leb_le; nia].
  - intros Hge. unfold word.
    repeat split; first [lia | unfold h1; nia | apply Z.leb_gt; unfold h1; nia].
Qed.

Lemma lanes_length n v : shaped n v -> length (lanes n v) = n.
Proof. destruct v; simpl; [by rewrite length_replicate|done]. Qed.

Lemma Forall3_lengths {A B C} (R : A -> B -> C -> Prop) l k k' :
  Forall3 R l k k' -> length l = length k /\ length k = length k'.
Proof. induction 1; simpl; lia. Qed.

Lemma push_lanes_spec hs starts freqs precisions :
  Forall word hs ->
  Forall3 interval_ok starts freqs precisions ->
  length hs = length starts ->
  forall hs' ws, Reference.push_lanes hs starts freqs precisions = (hs', ws) ->
  length hs' = length hs /\ Forall word hs'
  /\ Forall (fun w => 0 <= w < 2 ^ 32) ws
  /\ Forall3 (fun s f c => s <= c < s + f) starts freqs
       (zip_with (fun h p => Z.land h (Z.ones p)) hs' precisions)
  /\ forall t, Reference.finish_lanes hs' starts freqs precisions (ws ++ t)
               = Some (hs, t).
Proof.
  intros Hw Hi. revert hs Hw.
  induction Hi as [|s f p starts freqs precisions Hsfp Hi IH];
    intros hs Hw Hlen hs' ws Hrun.
  - destruct hs; [|done]. simpl in Hrun. injection Hrun as <- <-.
    repeat split; constructor.
  - destruct hs as [|h hs]; [done|].
    apply Forall_cons in Hw as [Hh Hw]. simpl in Hlen.
    cbn [Reference.push_lanes] in Hrun.
    destruct (Reference.push_lanes hs starts freqs precisions) as [hs1 ws1] eqn:E.
    destruct (IH hs Hw ltac:(lia) hs1 ws1 E) as (Hl1 & Hw1 & Hws1 & Hc1 & Hf1).
    pose proof (push_lane_spec h s f p Hh Hsfp) as (Hw' & Hc' & Hinv & Hcase).
    cbv zeta in *. injection Hrun as <- <-.
    split; [simpl; lia|]. split; [by constructor|].
    split; [|split].
    + destruct (Reference.renormalises h f p); [|done].
      constructor; [|done]. lia.
    + simpl. by constructor.
    + intros t. cbn [Reference.finish_lanes]. rewrite Hinv.
      destruct (Reference.renormalises h f p).
      * destruct Hcase as (Hlt & Hlor & _).
        apply Z.ltb_lt in Hlt as Hlt'. rewrite Hlt'. simpl.
        rewrite Hf1. simpl. by rewrite Hlor.
      * apply Z.ltb_nlt in Hcase. rewrite Hcase. rewrite Hf1. done.
Qed.

Lemma finish_lanes_spec hs starts freqs precisions t hs0 t0 :
  Forall word hs -> Forall (fun w => 0 <= w < 2 ^ 32) t ->
  Forall3 interval_ok starts freqs precisions ->
  length hs = length starts ->
  Forall3 (fun s f c => s <= c < s + f) starts freqs
    (zip_with (fun h p => Z.land h (Z.ones p)) hs precisions) ->
  Reference.finish_lanes hs starts freqs precisions t = Some (hs0, t0) ->
  length hs0 = length hs /\ Forall word hs0
  /\ Forall (fun w => 0 <= w < 2 ^ 32) t0
  /\ exists ws, t = ws ++ t0
                /\ Reference.push_lanes hs0 starts freqs precisions = (hs, ws).
Proof.
  intros Hw Ht Hi. revert hs t hs0 t0 Hw Ht.
  induction Hi as [|s f p starts freqs precisions Hsfp Hi IH];
    intros hs t hs0 t0 Hw Ht Hlen Hc Hrun.
  - destruct hs; [|done]. simpl in Hrun. injection Hrun as <- <-.
    repeat split; try done. by exists [].
  - destruct hs as [|h hs]; [done|].
    apply Forall_cons in Hw as [Hh Hw]. simpl in Hlen, Hc.
    inversion Hc as [|? ? ? ? ? ? Hc0 Hc']; subst.
    pose proof (pop_lane_spec h s f p Hh Hsfp Hc0) as (Hinv & Hpull & Hkeep).
    cbv zeta in *. cbn [Reference.finish_lanes] in Hrun.
    set (h1 := f * (h ≫ p) + Z.land h (Z.ones p) - s) in *.
    destruct (Z.ltb_spec h1 Reference.rans_l) as [Hlt|Hge].
    + destruct t as [|w t]; [done|].
      apply Forall_cons in Ht as [Hw0 Ht].
      destruct (Reference.finish_lanes hs starts freqs precisions t)
        as [[hs1 t1]|] eqn:E; simpl in Hrun; [|done].
      injection Hrun as <- <-.
      destruct (IH hs t hs1 t1 Hw Ht ltac:(lia) Hc' E)
        as (Hl1 & Hw1 & Ht1 & ws & -> & Hpush).
      destruct (Hpull Hlt w Hw0) as (Hword & Hre & Hshr & Hland).
      split; [simpl; lia|]. split; [by constructor|]. split; [done|].
      exists (w :: ws). split; [done|].
      cbn [Reference.push_lanes]. rewrite Hpush, Hre, Hshr, Hland, Hinv. done.
    + destruct (Reference.finish_lanes hs starts freqs precisions t)
        as [[hs1 t1]|] eqn:E; simpl in Hrun; [|done].
      injection Hrun as <- <-.
      destruct (IH hs t hs1 t1 Hw Ht ltac:(lia) Hc' E)
        as (Hl1 & Hw1 & Ht1 & ws & -> & Hpush).
      destruct (Hkeep ltac:(lia)) as (Hword & Hre).
      split; [simpl; lia|]. split; [by constructor|]. split; [done|].
      exists ws. split; [done|].
      cbn [Reference.push_lanes]. rewrite Hpush, Hre, Hinv. done.
Qed.

Lemma push_lanes_length hs starts freqs precisions n :
  length hs = n -> length starts = n -> length freqs = n ->
  length precisions = n ->
  length (Reference.push_lanes hs starts freqs precisions).1 = n.
Proof.
  revert starts freqs precisions n.
  induction hs as [|h hs IH]; intros [|s ss] [|f fs] [|p ps] n; simpl;
    intros; try lia.
  specialize (IH ss fs ps (pred n)).
  destruct (Reference.push_lanes hs ss fs ps). simpl in *. lia.
Qed.

Lemma finish_lanes_length hs starts freqs precisions t hs0 t0 :
  length starts = length hs -> length freqs = length hs ->
  length precisions = length hs ->
  Reference.finish_lanes hs starts freqs precisions t = Some (hs0, t0) ->
  length hs0 = length hs.
Proof.
  revert starts freqs precisions t hs0 t0.
  induction hs as [|h hs IH]; intros [|s ss] [|f fs] [|p ps] t hs0 t0; simpl;
    intros Hs Hf Hp Hrun; try lia; try (injection Hrun as <- <-; done).
  destruct (_ <? _).
  - destruct t as [|w t]; [done|].
    destruct (Reference.finish_lanes hs ss fs ps t) as [[hs1 t1]|] eqn:E;
      simpl in Hrun; [|done].
    injection Hrun as <- <-. simpl. erewrite IH; [done|..|exact E]; lia.
  - destruct (Reference.finish_lanes hs ss fs ps t) as [[hs1 t1]|] eqn:E;
      simpl in Hrun; [|done].
    injection Hrun as <- <-. simpl. erewrite IH; [done|..|exact E]; lia.
Qed.

Lemma pop_cf_bounds hs precisions :
  length hs = length precisions ->
  Forall (fun p => 0 <= p <= 31) precisions ->
  Forall2 (fun c p => 0 <= c < 2 ^ p)
    (zip_with (fun h p => Z.land h (Z.ones p)) hs precisions) precisions.
Proof.
  intros Hlen Hp. revert hs Hlen.
  induction Hp as [|p ps Hp0 Hp IH]; intros [|h hs] Hlen; simpl in *;
    try done; try constructor.
  - rewrite Z.land_ones by lia. apply Z.mod_pos_bound.
    apply Z.pow_pos_nonneg; lia.
  - apply IH. lia.
Qed.

(** The reference primitive is a model of the contract. *)
Lemma reference_laws : VransLaws (list Z).
Proof.
  split.
  - intros n [hs t] start freq precision (Hlen & Hw & Ht)
      (Hss & Hsf & Hsp & Hi). simpl in *.
    unfold Reference.push, Reference.pop. simpl. rewrite Hlen.
    rewrite !np_lanes_shaped by done.
    destruct (Reference.push_lanes hs _ _ _) as [hs' ws] eqn:E.
    pose proof (lanes_length n start Hss) as Hls.
    destruct (push_lanes_spec hs _ _ _ Hw Hi ltac:(lia) hs' ws E)
      as (Hl' & Hw' & Hws & Hc & Hfin).
    split.
    + repeat split; simpl; [lia|done|]. by apply Forall_app.
    + eexists _, _. split; [reflexivity|]. simpl.
      assert (length hs' = n) as -> by lia.
      rewrite !np_lanes_shaped by done. split; [done|]. apply Hfin.
  - intros n [hs t] precision cf finish (Hlen & Hw & Ht) Hsp Hp Hpop.
    simpl in *. unfold Reference.pop in Hpop. simpl in Hpop.
    rewrite Hlen in Hpop. injection Hpop as <- <-.
    rewrite !np_lanes_shaped by done.
    split.
    + apply pop_cf_bounds; [|done]. by rewrite lanes_length.
    + intros start freq [hs0 t0] (Hss & Hsf & _ & Hi) Hc Hfin.
      rewrite !np_lanes_shaped in Hfin by done.
      pose proof (lanes_length n start Hss) as Hls.
      destruct (finish_lanes_spec hs _ _ _ t hs0 t0 Hw Ht Hi ltac:(lia) Hc Hfin)
        as (Hl0 & Hw0 & Ht0 & ws & -> & Hpush).
      split; [repeat split; simpl; [lia|done|done]|].
      unfold Reference.push. simpl.
      assert (length hs0 = n) as -> by lia.
      rewrite !np_lanes_shaped by done. by rewrite Hpush.
  - intros [hs t] start freq precision Hs Hf Hp. unfold shape in *. simpl in *.
    unfold Reference.push. simpl. rewrite !np_lanes_shaped by done.
    pose proof (push_lanes_length hs (lanes (length hs) start)
                  (lanes (length hs) freq) (lanes (length hs) precision)
                  (length hs) eq_refl) as Hl.
    rewrite !lanes_length in Hl by done.
    destruct (Reference.push_lanes hs _ _ _). simpl in *. by apply Hl.
  - intros [hs t] precision cf finish start freq [hs0 t0] Hp Hpop.
    unfold shape in *. simpl in *. unfold Reference.pop in Hpop. simpl in Hpop.
    injection Hpop as <- <-. rewrite !np_lanes_shaped by done. split.
    + rewrite length_zip_with, lanes_length by done. lia.
    + intros Hs Hf Hfin. simpl. rewrite !np_lanes_shaped in Hfin by done.
      eapply finish_lanes_length; [..|exact Hfin]; by rewrite lanes_length.
Qed.

(** ** [NonUniform] *)

Lemma np_broadcast2_same {A B C} (f : A -> B -> C) a b :
  length a = length b -> np_broadcast2 f a b = Some (zip_with f a b).
Proof. intros E. unfold np_broadcast2. by rewrite bool_decide_eq_true_2. Qed.

Lemma zip_with_replicate_l_fmap {A B C} (f : A -> B -> C) x (l : list B) :
  zip_with f (replicate (length l) x) l = f x <$> l.
Proof. induction l as [|y l IH]; simpl; [done|]. by rewrite IH. Qed.

Lemma zip_with_replicate_r_fmap {A B C} (f : A -> B -> C) (l : list A) y :
  zip_with f l (replicate (length l) y) = (fun x => f x y) <$> l.
Proof. induction l as [|x l IH]; simpl; [done|]. by rewrite IH. Qed.

Lemma forallb_id_fmap {A} (g : A -> bool) (l : list A) :
  forallb id (g <$> l) = forallb g l.
Proof. induction l as [|x l IH]; simpl; [done|]. by rewrite <- IH. Qed.

Lemma zip_with_replicate_both {A B C} (f : A -> B -> C) n x y :
  zip_with f (replicate n x) (replicate n y) = replicate n (f x y).
Proof. induction n as [|n IH]; simpl; [done|]. by rewrite IH. Qed.

Lemma np_lanes_length n v : broadcasts n v -> length (np_lanes n v) = n.
Proof.
  destruct v as [z|[|z [|z' l]]]; simpl; rewrite ?length_replicate; lia.
Qed.

(** The comparisons and the sum on operands that broadcast to the lanes
    of [cf]. *)
Lemma np_broadcast2_lanes_l {C} (f : Z -> Z -> C) l cf :
  broadcasts (length cf) (array l) ->
  np_broadcast2 f l cf = Some (zip_with f (np_lanes (length cf) (array l)) cf).
Proof.
  simpl. intros Hl. unfold np_broadcast2. case_bool_decide as E.
  - f_equal. f_equal. destruct l as [|z [|z' l]]; try done.
    destruct cf as [|c [|c' cf]]; done.
  - destruct Hl as [Hl|Hl]; [done|].
    destruct l as [|z [|z' l]]; try done.
    simpl. by rewrite zip_with_replicate_l_fmap.
Qed.

Lemma np_broadcast2_lanes_r {C} (f : Z -> Z -> C) l cf :
  broadcasts (length cf) (array l) ->
  np_broadcast2 f cf l = Some (zip_with f cf (np_lanes (length cf) (array l))).
Proof.
  simpl. intros Hl. unfold np_broadcast2. case_bool_decide as E.
  - f_equal. f_equal. destruct l as [|z [|z' l]]; try done.
    destruct cf as [|c [|c' cf]]; done.
  - destruct Hl as [Hl|Hl]; [done|].
    destruct l as [|z [|z' l]]; try done.
    destruct cf as [|c [|c' cf]]; try done;
      simpl; by rewrite <- zip_with_replicate_r_fmap.
Qed.

Lemma np_all_cmp_lanes_l r v cf :
  broadcasts (length cf) v ->
  np_all_cmp r v (array cf)
  = Some (forallb id (zip_with r (np_lanes (length cf) v) cf)).
Proof.
  destruct v as [x|l]; intros Hs.
  - simpl. by rewrite zip_with_replicate_l_fmap, forallb_id_fmap.
  - cbn [np_all_cmp]. by rewrite np_broadcast2_lanes_l.
Qed.

Lemma np_all_cmp_lanes_r r v cf :
  broadcasts (length cf) v ->
  np_all_cmp r (array cf) v
  = Some (forallb id (zip_with r cf (np_lanes (length cf) v))).
Proof.
  destruct v as [y|l]; intros Hs.
  - simpl. by rewrite zip_with_replicate_r_fmap, forallb_id_fmap.
  - cbn [np_all_cmp]. by rewrite np_broadcast2_lanes_r.
Qed.

Lemma np_add_lanes n start freq :
  broadcasts n start -> broadcasts n freq ->
  exists sum, np_add start freq = Some sum /\ broadcasts n sum
    /\ np_lanes n sum
       = zip_with (np_upper start freq) (np_lanes n start) (np_lanes n freq).
Proof.
  destruct start as [x|l], freq as [y|k]; unfold np_upper; intros Hs Hf.
  - exists (scalar (x + y)). split; [done|]. split; [done|]. simpl.
    by rewrite zip_with_replicate_both.
  - eexists. split; [done|]. simpl in Hf. split.
    { simpl. by rewrite length_fmap. }
    destruct k as [|y [|y' k]]; simpl in *.
    + by destruct n.
    + by rewrite zip_with_replicate_both.
    + assert (n = S (S (length k))) as -> by lia.
      simpl. by rewrite zip_with_replicate_l_fmap.
  - eexists. split; [done|]. simpl in Hs. split.
    { simpl. by rewrite length_fmap. }
    destruct l as [|x [|x' l]]; simpl in *.
    + done.
    + by rewrite zip_with_replicate_both.
    + assert (n = S (S (length l))) as -> by lia.
      simpl. by rewrite zip_with_replicate_r_fmap.
  - simpl in Hs, Hf. cbn [np_add]. unfold np_broadcast2.
    case_bool_decide as E.
    + eexists. split; [done|]. split.
      { simpl. rewrite length_zip_with. lia. }
      destruct l as [|x [|x' l]], k as [|y [|y' k]]; simpl in *; try done.
      by rewrite zip_with_replicate_both.
    + destruct l as [|x [|x' l]], k as [|y [|y' k]]; simpl in *;
        try lia; try done.
      * eexists. split; [done|]. split; [simpl; lia|]. by destruct n.
      * eexists. split; [done|]. split; [simpl; lia|]. by destruct n.
      * eexists. split; [done|]. split; [simpl; rewrite length_fmap; lia|].
        assert (n = S (S (length k))) as -> by lia.
        simpl. by rewrite zip_with_replicate_l_fmap.
      * eexists. split; [done|]. split; [simpl; rewrite length_fmap; lia|].
        assert (n = S (S (length l))) as -> by lia.
        simpl. by rewrite zip_with_replicate_r_fmap.
Qed.

Lemma np_checks_intervals (g : Z -> Z -> Z) starts freqs cf :
  length starts = length cf -> length freqs = length cf ->
  forallb id (zip_with Z.leb starts cf)
  && forallb id (zip_with Z.ltb cf (zip_with g starts freqs)) = true
  <-> Forall3 (fun s f c => s <= c < g s f) starts freqs cf.
Proof.
  revert starts freqs.
  induction cf as [|c cf IH]; intros [|s ss] [|f fs] Hs Hf; simpl in *; try done.
  - split; [constructor|done].
  - specialize (IH ss fs ltac:(lia) ltac:(lia)). rewrite andb_true_iff in IH.
    rewrite !andb_true_iff, Z.leb_le, Z.ltb_lt. split.
    + intros [[? ?] [? ?]]. constructor; [lia|]. by apply IH.
    + intros H'. inversion H' as [|? ? ? ? ? ? Hh Ht]; subst.
      apply IH in Ht as [? ?]. repeat split; (lia || done).
Qed.

(** The assertion of [pop] on an interval that broadcasts to the lanes of
    [cf]: numpy raises nothing, and the asserted expression is true
    exactly when every lane of [cf] lies between [start] and numpy's
    [start + freq]. *)
Lemma np_interval_check_broadcasts start freq cf :
  broadcasts (length cf) start -> broadcasts (length cf) freq ->
  exists b, np_interval_check start freq cf = Some b
            /\ (b = true <-> np_in_intervals (length cf) start freq cf).
Proof.
  intros Hs Hf. unfold np_interval_check, np_in_intervals.
  destruct (np_add_lanes _ _ _ Hs Hf) as (sum & Hsum & Hsh & Hl).
  rewrite (np_all_cmp_lanes_l _ _ _ Hs), Hsum. cbn [mbind option_bind].
  rewrite (np_all_cmp_lanes_r _ _ _ Hsh), Hl.
  pose proof (np_checks_intervals (np_upper start freq)
                (np_lanes (length cf) start) (np_lanes (length cf) freq) cf
                (np_lanes_length _ _ Hs) (np_lanes_length _ _ Hf)) as Hiff.
  destruct (forallb id (zip_with Z.leb _ _)); simpl in Hiff.
  - eexists. split; [done|]. done.
  - exists false. split; [done|]. done.
Qed.

(** Where [start + freq] stays below [2 ** 64] the sum does not wrap. *)
Lemma np_in_intervals_no_wrap n start freq cf :
  Forall2 (fun s f => 0 <= s + f < 2 ^ 64) (np_lanes n start) (np_lanes n freq) ->
  np_in_intervals n start freq cf
  <-> Forall3 (fun s f c => s <= c < s + f)
        (np_lanes n start) (np_lanes n freq) cf.
Proof.
  unfold np_in_intervals. intros Hb.
  assert (forall s f, 0 <= s + f < 2 ^ 64 -> np_upper start freq s f = s + f)
    as Hup.
  { intros s f Hsf. unfold np_upper, uint64.
    destruct start, freq; try done; by rewrite Z.mod_small. }
  revert cf. induction Hb as [|s f ss fs Hsf Hb IH]; intros cf.
  - split; inversion 1; constructor.
  - split; inversion 1; subst; constructor;
      try (by apply IH); rewrite ?(Hup _ _ Hsf) in *; done.
Qed.

Lemma np_in_intervals_shaped n start freq cf :
  shaped n start -> shaped n freq ->
  Forall2 (fun s f => 0 <= s + f < 2 ^ 64) (lanes n start) (lanes n freq) ->
  np_in_intervals n start freq cf <-> in_intervals n start freq cf.
Proof.
  intros Hs Hf Hb. unfold in_intervals.
  rewrite <- (np_lanes_shaped _ _ Hs), <- (np_lanes_shaped _ _ Hf) in Hb |- *.
  by apply np_in_intervals_no_wrap.
Qed.

Lemma intervals_ok_no_wrap n start freq precision :
  intervals_ok n start freq precision ->
  Forall2 (fun s f => 0 <= s + f < 2 ^ 64) (lanes n start) (lanes n freq).
Proof.
  intros (_ & _ & _ & H).
  induction H as [|s f p ss fs ps (Hp & Hf & Hs & Hsf) H IH]; constructor;
    [|done].
  assert (2 ^ p <= 2 ^ 31) by (apply Z.pow_le_mono_r; lia). lia.
Qed.

(** A valid interval that holds [cf] passes the assertion, and a passed
    assertion on a valid interval says that it holds [cf]. *)
Lemma in_intervals_checks n start freq precision cf :
  intervals_ok n start freq precision -> in_intervals n start freq cf ->
  np_interval_check start freq cf = Some true.
Proof.
  intros Hi Hin. pose proof Hi as (Hs & Hf & _).
  pose proof Hin as Hlen. apply Forall3_lengths in Hlen as [H1 H2].
  rewrite lanes_length in H1 by done. rewrite lanes_length in H2 by done.
  assert (length cf = n) as <- by lia.
  destruct (np_interval_check_broadcasts start freq cf
              (shaped_broadcasts _ _ Hs) (shaped_broadcasts _ _ Hf))
    as (b & -> & Hb).
  f_equal. apply Hb, np_in_intervals_shaped; [done..| |done].
  by eapply intervals_ok_no_wrap.
Qed.

Lemma checks_in_intervals start freq precision cf :
  intervals_ok (length cf) start freq precision ->
  np_interval_check start freq cf = Some true ->
  in_intervals (length cf) start freq cf.
Proof.
  intros Hi Hc. pose proof Hi as (Hs & Hf & _).
  destruct (np_interval_check_broadcasts start freq cf
              (shaped_broadcasts _ _ Hs) (shaped_broadcasts _ _ Hf))
    as (b & E & Hb).
  rewrite E in Hc. injection Hc as ->.
  eapply np_in_intervals_shaped; [done..|by eapply intervals_ok_no_wrap|].
  by apply Hb.
Qed.




(** An array of one entry broadcasts against the lanes of [cf], as a
    scalar does; arrays of two and of three entries do not broadcast. *)
Example np_interval_check_scenario :
  np_interval_check (array [5]) (array [1]) [5; 5] = Some true
  /\ np_interval_check (scalar 5) (scalar 1) [5; 5] = Some true
  /\ np_interval_check (array [5]) (array [1]) [5; 6] = Some false
  /\ np_interval_check (array [5; 5]) (array [1]) [5; 5; 5] = None.
Proof. repeat split. Qed.

(** On the reference primitive an interval given as arrays of one entry
    pops like the same interval given as scalars. *)
Example NonUniform_pop_broadcasts :
  let m : Message (list Z) := ([2 ^ 31 + 5; 2 ^ 40 + 5], [7]) in
  (NonUniform (fun s : list Z => (array [5], array [1])) (fun cf => cf)
     (scalar 5)).2 m
  = (NonUniform (fun s : list Z => (scalar 5, scalar 1)) (fun cf => cf)
       (scalar 5)).2 m
  /\ (NonUniform (fun s : list Z => (array [5], array [1])) (fun cf => cf)
        (scalar 5)).2 m = Ok (([2 ^ 58 + 7; 2 ^ 35], []), [5; 5]).
Proof. split; reflexivity. Qed.

(** A decoder that disagrees with the encoder trips the assertion. *)
Example NonUniform_pop_mismatch :
  (NonUniform _uniform_enc_statfun (fun cf => Z.succ <$> cf) (scalar 5)).2
    (([2 ^ 31 + 5], []) : Message (list Z))
  = Raise AssertionError.
Proof. reflexivity. Qed.

(** ** Round trips of the algebra *)

Lemma push_each_app {M S} (push_ : M -> S -> result M) m l1 l2 :
  push_each push_ m (l1 ++ l2) = push_each push_ m l1 ≫= fun m' => push_each push_ m' l2.
Proof.
  revert m. induction l1 as [|s l1 IH]; intros m; simpl; [done|].
  destruct (push_ m s); simpl; [apply IH|done|done].
Qed.

Lemma roundtrip_repeat {M S} (wf : M -> Prop) (dom : S -> Prop) (c : codec M S) k :
  roundtrip wf dom c ->
  roundtrip wf (fun l => length l = k /\ Forall dom l) (repeat c (Z.of_nat k)).
Proof.
  intros Hc m symbols Hm [Hlen Hdom].
  unfold repeat. destruct c as [push_ pop_]. simpl in *.
  rewrite Hlen, Z.eqb_refl, Nat2Z.id. subst k.
  revert m Hm. induction Hdom as [|s symbols Hs Hdom IH]; intros m Hm.
  - exists m. done.
  - rewrite reverse_cons, push_each_app.
    destruct (IH m Hm) as (m1 & Hpush & Hm1 & Hpop). rewrite Hpush. simpl.
    destruct (Hc m1 s Hm1 Hs) as (m2 & Hpush2 & Hm2 & Hpop2). simpl in *.
    rewrite Hpush2. exists m2. split; [done|]. split; [done|].
    rewrite Hpop2. simpl. rewrite Hpop. done.
Qed.

Section Roundtrip.
Context {tail : Type} {V : Vrans tail} {L : VransLaws tail}.

Lemma in_intervals_length n start freq cf :
  shaped n start -> in_intervals n start freq cf -> length cf = n.
Proof.
  intros Hs Hin. apply Forall3_lengths in Hin as [H1 H2].
  rewrite lanes_length in H1 by done. lia.
Qed.

Lemma roundtrip_NonUniform {S} n (enc_statfun : S -> ndarray * ndarray)
    dec_statfun precision (dom : S -> Prop) :
  statfuns_ok n enc_statfun dec_statfun precision dom ->
  roundtrip (wf_message n) dom (NonUniform enc_statfun dec_statfun precision).
Proof.
  intros Hstat m s Hm Hs.
  destruct (Hstat s Hs) as [Hi Hdec].
  destruct (enc_statfun s) as [start freq] eqn:Henc. simpl in *.
  destruct (push_then_pop n m start freq precision Hm Hi)
    as (Hm' & cf & finish & Hpop & Hin & Hfin).
  exists (vrans_push m start freq precision).
  rewrite Henc. split; [done|]. split; [done|].
  rewrite Hpop, (Hdec cf Hin), Henc.
  rewrite (in_intervals_checks _ _ _ _ _ Hi Hin), Hfin. done.
Qed.

Lemma Forall3_replicate_mid {A C} (R : A -> Z -> C -> Prop) z l k :
  Forall3 R l (replicate (length l) z) k <-> Forall2 (fun a c => R a z c) l k.
Proof.
  split.
  - revert k. induction l as [|a l IH]; intros k Hk; inversion Hk; subst;
      constructor; auto.
  - induction 1; simpl; constructor; auto.
Qed.

Lemma uniform_intervals s ps :
  Forall2 (fun x p => 0 <= x < 2 ^ p) s ps ->
  Forall (fun p => 0 <= p <= 31) ps ->
  Forall2 (fun a c => interval_ok a 1 c) s ps.
Proof.
  induction 1 as [|x p s ps Hx Hs IH]; intros Hp; [constructor|].
  apply Forall_cons in Hp as [Hp0 Hp].
  constructor; [|by apply IH]. unfold interval_ok. lia.
Qed.

Lemma uniform_statfuns_ok n precision :
  shaped n precision -> Forall (fun p => 0 <= p <= 31) (lanes n precision) ->
  statfuns_ok n _uniform_enc_statfun _uniform_dec_statfun precision
    (uniform_dom n precision).
Proof.
  intros Hsp Hp s Hs. unfold uniform_dom in Hs. simpl.
  pose proof (Forall2_length _ _ _ Hs) as Hlen.
  rewrite lanes_length in Hlen by done. subst n.
  split.
  - repeat split; try done. simpl.
    apply Forall3_replicate_mid. by apply uniform_intervals.
  - intros cf Hin. unfold in_intervals in Hin. simpl in Hin.
    apply Forall3_replicate_mid in Hin. unfold _uniform_dec_statfun.
    clear -Hin. induction Hin as [|x c s cf Hx Hin IH]; [done|].
    f_equal; [lia|done].
Qed.

Lemma Uniform_roundtrip n precision :
  shaped n precision -> Forall (fun p => 0 <= p <= 31) (lanes n precision) ->
  roundtrip (wf_message n) (uniform_dom n precision) (Uniform precision).
Proof. intros. by apply roundtrip_NonUniform, uniform_statfuns_ok. Qed.

(** The other direction: what [Uniform] pops, it pushes back. *)
Lemma Uniform_pop_push n precision m m' s :
  wf_message n m -> shaped n precision ->
  Forall (fun p => 0 <= p <= 31) (lanes n precision) ->
  (Uniform precision).2 m = Ok (m', s) ->
  wf_message n m' /\ uniform_dom n precision s
  /\ (Uniform precision).1 m' s = Ok m.
Proof.
  intros Hm Hsp Hp Hpop. unfold Uniform, NonUniform in *. simpl in *.
  destruct (vrans_pop m precision) as [cf finish] eqn:E.
  destruct (pop_then_push n m precision cf finish Hm Hsp Hp E) as [Hb Hback].
  pose proof (Forall2_length _ _ _ Hb) as Hlen.
  rewrite lanes_length in Hlen by done. subst n.
  unfold _uniform_dec_statfun in *.
  assert (intervals_ok (length cf) (array cf) (scalar 1) precision) as Hi.
  { repeat split; try done. simpl.
    apply Forall3_replicate_mid. by apply uniform_intervals. }
  assert (in_intervals (length cf) (array cf) (scalar 1) cf) as Hin.
  { unfold in_intervals. simpl. apply Forall3_replicate_mid.
    clear. induction cf; constructor; [lia|done]. }
  rewrite (in_intervals_checks _ _ _ _ _ Hi Hin) in Hpop.
  destruct (finish (array cf) (scalar 1)) as [m1|] eqn:Hfin; [|done].
  simpl in Hpop. injection Hpop as <- <-.
  destruct (Hback (array cf) (scalar 1) m1) as [Hm1 Hpush]; [done..|].
  split; [done|]. split; [done|]. by rewrite Hpush.
Qed.

(** *** [Benford64], lane by lane *)

Lemma word_log2 x : word x -> 31 <= Z.log2 x <= 62.
Proof.
  intros [Hlo Hhi]. split.
  - apply Z.log2_le_pow2; lia.
  - assert (Z.log2 x < 63); [|lia]. apply Z.log2_lt_pow2; lia.
Qed.

Lemma benford_split x :
  word x ->
  0 <= benford_low x < 2 ^ 31
  /\ 0 <= benford_length x <= 31
  /\ 0 <= benford_high x < 2 ^ benford_length x
  /\ x = 2 ^ Z.log2 x + benford_high x * 2 ^ 31 + benford_low x.
Proof.
  intros Hx. pose proof (word_log2 x Hx) as Hl.
  unfold benford_low, benford_high, benford_length.
  destruct Hx as [Hlo Hhi].
  pose proof (Z.log2_spec x ltac:(lia)) as [Hl1 Hl2].
  set (l := Z.log2 x) in *.
  assert (2 ^ l = 2 ^ (l - 31) * 2 ^ 31) as Hpow.
  { rewrite <- Z.pow_add_r by lia. f_equal. lia. }
  assert (2 ^ Z.succ l = 2 * 2 ^ l) as Hsucc by (apply Z.pow_succ_r; lia).
  assert (0 < 2 ^ (l - 31)) by (apply Z.pow_pos_nonneg; lia).
  assert (x mod 2 ^ l = x - 2 ^ l) as Hm.
  { symmetry. apply (Z.mod_unique_pos _ _ 1); lia. }
  rewrite Hm.
  pose proof (Z.div_mod (x - 2 ^ l) (2 ^ 31) ltac:(lia)) as Hdm.
  pose proof (Z.mod_pos_bound (x - 2 ^ l) (2 ^ 31) ltac:(lia)) as Hmb.
  assert ((x - 2 ^ l) mod 2 ^ 31 = x mod 2 ^ 31) as Hlow.
  { rewrite Hpow. rewrite <- (Z.mod_add (x - _) (2 ^ (l - 31)) (2 ^ 31)) by lia.
    f_equal. lia. }
  rewrite Hlow in *.
  pose proof (Z.mod_pos_bound x (2 ^ 31) ltac:(lia)).
  split; [done|]. split; [lia|]. split; [|lia]. split.
  - apply Z.div_pos; lia.
  - apply Z.div_lt_upper_bound; lia.
Qed.

Lemma benford_push_lane x :
  word x ->
  Z.land x (1 ≪ 31 - 1) = benford_low x
  /\ uint64 (Z.log2 x - 31) = benford_length x
  /\ Z.land x (uint64 (uint64 (1 ≪ Z.log2 x) - 1)) ≫ 31 = benford_high x.
Proof.
  intros Hx. pose proof (word_log2 x Hx) as Hl.
  unfold benford_low, benford_high, benford_length.
  change (1 ≪ 31 - 1) with (Z.ones 31). rewrite Z.land_ones by lia.
  split; [done|]. split; [apply uint64_small; lia|].
  rewrite Z.shiftl_1_l.
  assert (0 < 2 ^ Z.log2 x < 2 ^ 64) as Hpow.
  { split; [apply Z.pow_pos_nonneg; lia|apply Z.pow_lt_mono_r; lia]. }
  rewrite (uint64_small (2 ^ Z.log2 x)) by lia.
  rewrite uint64_small by lia.
  replace (2 ^ Z.log2 x - 1) with (Z.ones (Z.log2 x))
    by (rewrite Z.ones_equiv; lia).
  rewrite Z.land_ones, Z.shiftr_div_pow2 by lia. done.
Qed.

Lemma benford_join l5 hi lo :
  0 <= l5 < 2 ^ 5 -> 0 <= hi < 2 ^ l5 -> 0 <= lo < 2 ^ 31 ->
  let x := Z.lor (Z.lor (uint64 (1 ≪ uint64 (l5 + 31))) (uint64 (hi ≪ 31))) lo in
  uint64 (uint64 (l5 + 31) - 31) = l5
  /\ x = 2 ^ (l5 + 31) + hi * 2 ^ 31 + lo
  /\ word x /\ Z.log2 x = l5 + 31
  /\ benford_low x = lo /\ benford_high x = hi /\ benford_length x = l5.
Proof.
  intros Hl5 Hhi Hlo. cbv zeta.
  change (2 ^ 5) with 32 in Hl5.
  rewrite (uint64_small (l5 + 31)) by lia.
  replace (l5 + 31 - 31) with l5 by lia.
  rewrite (uint64_small l5) by lia.
  assert (2 ^ (l5 + 31) = 2 ^ l5 * 2 ^ 31) as Hpow by (apply Z.pow_add_r; lia).
  assert (0 < 2 ^ l5) by (apply Z.pow_pos_nonneg; lia).
  assert (2 ^ (l5 + 31) <= 2 ^ 62) by (apply Z.pow_le_mono_r; lia).
  assert (Z.lor (Z.lor (uint64 (1 ≪ (l5 + 31))) (uint64 (hi ≪ 31))) lo
          = 2 ^ (l5 + 31) + (hi * 2 ^ 31 + lo)) as Hx.
  { rewrite Z.shiftl_1_l, (Z.shiftl_mul_pow2 hi) by lia.
    rewrite (uint64_small (2 ^ (l5 + 31))), (uint64_small (hi * 2 ^ 31)) by nia.
    rewrite <- Z.lor_assoc.
    rewrite <- (Z.shiftl_mul_pow2 hi 31) by lia.
    rewrite (lor_shiftl_add hi lo 31) by lia.
    rewrite <- (Z.shiftl_1_l (l5 + 31)).
    rewrite lor_shiftl_add by nia.
    rewrite !Z.shiftl_mul_pow2 by lia. lia. }
  rewrite Hx.
  set (x := 2 ^ (l5 + 31) + (hi * 2 ^ 31 + lo)).
  assert (Z.log2 x = l5 + 31) as Hlog.
  { apply (Z.log2_unique' _ _ (hi * 2 ^ 31 + lo)); [lia|nia|done]. }
  unfold benford_low, benford_high, benford_length, word. rewrite Hlog.
  assert (x mod 2 ^ 31 = lo) as Hm1.
  { symmetry. apply (Z.mod_unique_pos _ _ (2 ^ l5 + hi)); unfold x; lia. }
  assert (x mod 2 ^ (l5 + 31) = hi * 2 ^ 31 + lo) as Hm2.
  { symmetry. apply (Z.mod_unique_pos _ _ 1); unfold x; nia. }
  assert ((hi * 2 ^ 31 + lo) / 2 ^ 31 = hi) as Hd.
  { symmetry. apply (Z.div_unique_pos _ _ _ lo); lia. }
  rewrite Hm1, Hm2, Hd. unfold x.
  repeat split; first [lia | nia].
Qed.

Lemma benford_symbols np_log2 x :
  Forall word x -> Forall (log2_exact np_log2) x ->
  (fun xi => Z.land xi (1 ≪ 31 - 1)) <$> x = benford_low <$> x
  /\ (fun li => uint64 (li - 31)) <$> (np_log2 <$> x) = benford_length <$> x
  /\ (fun xi => xi ≫ 31)
       <$> zip_with (fun xi li => Z.land xi (uint64 (uint64 (1 ≪ li) - 1)))
             x (np_log2 <$> x)
     = benford_high <$> x.
Proof.
  intros Hw. induction Hw as [|xi x Hxi Hw IH]; intros Hl; [done|].
  apply Forall_cons in Hl as [Hli Hl]. destruct (IH Hl) as (IH1 & IH2 & IH3).
  destruct (benford_push_lane xi Hxi) as (H1 & H2 & H3).
  unfold log2_exact in Hli. rewrite !fmap_cons. cbn [zip_with].
  rewrite !fmap_cons, IH1, IH2, IH3, Hli, H1, H2, H3. done.
Qed.

Lemma benford_rejoin x :
  Forall word x ->
  zip_with benford_join_word
    ((fun li => uint64 (li + 31)) <$> (benford_length <$> x))
    (zip (benford_high <$> x) (benford_low <$> x)) = x
  /\ (fun li => uint64 (li - 31))
       <$> ((fun li => uint64 (li + 31)) <$> (benford_length <$> x))
     = benford_length <$> x.
Proof.
  induction 1 as [|xi x Hxi Hw [IH1 IH2]]; [done|].
  rewrite !fmap_cons. cbn [zip zip_with]. rewrite IH1, IH2.
  destruct (benford_split xi Hxi) as (Hlo & Hlen & Hhi & Hx).
  destruct (benford_join (benford_length xi) (benford_high xi) (benford_low xi))
    as (Hu & Hj & _); [change (2 ^ 5) with 32; lia|done|done|].
  cbv zeta in Hj. unfold benford_join_word. simpl.
  rewrite (uint64_small (benford_length xi + 31)) in * by lia.
  rewrite Hj, Hu. split; [|done]. f_equal.
  unfold benford_length in *.
  replace (Z.log2 xi - 31 + 31) with (Z.log2 xi) by lia. lia.
Qed.

Lemma benford_join_lists l5s his los :
  Forall (fun l => 0 <= l < 2 ^ 5) l5s ->
  Forall2 (fun hi l => 0 <= hi < 2 ^ l) his l5s ->
  Forall2 (fun lo l => 0 <= lo < 2 ^ 31) los l5s ->
  let x := zip_with benford_join_word ((fun li => uint64 (li + 31)) <$> l5s)
             (zip his los) in
  (fun li => uint64 (li - 31)) <$> ((fun li => uint64 (li + 31)) <$> l5s) = l5s
  /\ length x = length l5s /\ Forall word x
  /\ benford_low <$> x = los /\ benford_high <$> x = his
  /\ benford_length <$> x = l5s.
Proof.
  intros Hl Hh. revert los.
  induction Hh as [|hi l5 his l5s Hhi Hh IH]; intros los Hlo; cbv zeta.
  { inversion Hlo; subst. done. }
  inversion Hlo as [|lo ? los' ? Hlo0 Hlo']; subst.
  apply Forall_cons in Hl as [Hl0 Hl].
  destruct (IH Hl los' Hlo') as (IH1 & IH2 & IH3 & IH4 & IH5 & IH6).
  destruct (benford_join l5 hi lo Hl0 Hhi Hlo0)
    as (Hu & Hj & Hw & Hlog & H1 & H2 & H3).
  cbv zeta in *.
  change (Z.lor _ lo) with (benford_join_word (uint64 (l5 + 31)) (hi, lo)) in *.
  rewrite !fmap_cons. cbn [zip zip_with].
  rewrite !fmap_cons, IH1, IH4, IH5, IH6, Hu, H1, H2, H3.
  repeat split; try done.
  - simpl. by rewrite IH2.
  - by constructor.
Qed.

Lemma bind_Ok {A B} (f : A -> result B) (a : A) : Ok a ≫= f = f a.
Proof. reflexivity. Qed.

Lemma Benford64_push_eq np_log2 (m : Message tail) x :
  (Benford64 np_log2).1 m x =
  (Uniform (scalar 31)).1 m ((fun xi => Z.land xi (1 ≪ 31 - 1)) <$> x) ≫= fun m1 =>
  (Uniform (array ((fun li => uint64 (li - 31)) <$> (np_log2 <$> x)))).1 m1
    ((fun xi => xi ≫ 31)
       <$> zip_with (fun xi li => Z.land xi (uint64 (uint64 (1 ≪ li) - 1)))
             x (np_log2 <$> x)) ≫= fun m2 =>
  (Uniform (scalar 5)).1 m2 ((fun li => uint64 (li - 31)) <$> (np_log2 <$> x)).
Proof. reflexivity. Qed.

Lemma Benford64_pop_eq np_log2 (m : Message tail) :
  (Benford64 np_log2).2 m =
  (Uniform (scalar 5)).2 m ≫= fun '(m1, l5s) =>
  (Uniform (array ((fun li => uint64 (li - 31))
                     <$> ((fun li => uint64 (li + 31)) <$> l5s)))).2 m1
    ≫= fun '(m2, his) =>
  (Uniform (scalar 31)).2 m2 ≫= fun '(m3, los) =>
  Ok (m3, zip_with benford_join_word ((fun li => uint64 (li + 31)) <$> l5s)
            (zip his los)).
Proof. reflexivity. Qed.

Lemma Forall2_replicate_const {A} (R : A -> Z -> Prop) l n z :
  length l = n -> Forall (fun a => R a z) l -> Forall2 R l (replicate n z).
Proof. intros Hl Hf. by apply Forall2_replicate_r. Qed.

(** [Benford64] round-trips on the words whose logarithm numpy gets
    right. *)
Lemma Benford64_push_pop np_log2 n (m : Message tail) x :
  wf_message n m -> length x = n -> Forall word x ->
  Forall (log2_exact np_log2) x ->
  exists m', (Benford64 np_log2).1 m x = Ok m' /\ wf_message n m'
             /\ (Benford64 np_log2).2 m' = Ok (m, x).
Proof.
  intros Hm Hlen Hw Hlog.
  destruct (benford_symbols np_log2 x Hw Hlog) as (E1 & E2 & E3).
  rewrite Benford64_push_eq, E1, E2, E3.
  assert (Forall (fun xi => 0 <= benford_low xi < 2 ^ 31
                            /\ 0 <= benford_length xi <= 31
                            /\ 0 <= benford_high xi < 2 ^ benford_length xi) x)
    as Hsplit.
  { eapply list.Forall_impl; [exact Hw|]. intros xi Hxi.
    destruct (benford_split xi Hxi) as (? & ? & ? & _). done. }
  destruct (Uniform_roundtrip n (scalar 31)) with (m := m) (s := benford_low <$> x)
    as (m1 & Hp1 & Hm1 & Hq1); try done.
  { simpl. apply Forall_replicate. lia. }
  { unfold uniform_dom. simpl. apply Forall2_replicate_const;
      [by rewrite length_fmap|]. apply Forall_fmap.
    eapply list.Forall_impl; [exact Hsplit|]. simpl. intros; lia. }
  rewrite Hp1. rewrite bind_Ok.
  destruct (Uniform_roundtrip n (array (benford_length <$> x)))
    with (m := m1) (s := benford_high <$> x) as (m2 & Hp2 & Hm2 & Hq2); try done.
  { simpl. by rewrite length_fmap. }
  { simpl. apply Forall_fmap. eapply list.Forall_impl; [exact Hsplit|].
    simpl. intros; lia. }
  { unfold uniform_dom. simpl. apply Forall2_fmap, Forall_Forall2_diag.
    eapply list.Forall_impl; [exact Hsplit|]. simpl. intros; lia. }
  rewrite Hp2. rewrite bind_Ok.
  destruct (Uniform_roundtrip n (scalar 5)) with (m := m2) (s := benford_length <$> x)
    as (m3 & Hp3 & Hm3 & Hq3); try done.
  { simpl. apply Forall_replicate. lia. }
  { unfold uniform_dom. simpl. apply Forall2_replicate_const;
      [by rewrite length_fmap|]. apply Forall_fmap.
    eapply list.Forall_impl; [exact Hsplit|]. simpl. intros. change (2 ^ 5) with 32. lia. }
  exists m3. split; [done|]. split; [done|].
  destruct (benford_rejoin x Hw) as [Hj Hu].
  rewrite Benford64_pop_eq, Hq3. rewrite bind_Ok. rewrite Hu, Hq2.
  rewrite bind_Ok. rewrite Hq1. rewrite bind_Ok. by rewrite Hj.
Qed.

Lemma Forall2_replicate_inv {A} (R : A -> Z -> Prop) l n z :
  Forall2 R l (replicate n z) -> length l = n /\ Forall (fun a => R a z) l.
Proof.
  intros Hf. pose proof (Forall2_length _ _ _ Hf) as Hlen.
  rewrite length_replicate in Hlen. split; [done|]. subst n.
  induction l as [|a l IH]; [constructor|].
  simpl in Hf. inversion Hf; subst. constructor; auto.
Qed.

Lemma Forall2_const_r {A B} (R : A -> Prop) (l : list A) (k : list B) :
  length l = length k -> Forall R l -> Forall2 (fun a _ => R a) l k.
Proof.
  intros Hlen Hf. revert k Hlen.
  induction Hf as [|a l Ha Hf IH]; intros [|b k] Hlen; simpl in *; try done;
    constructor; auto.
Qed.

(** What [Benford64] pops is a word per lane, and pushing it back restores
    the message, if numpy gets the logarithm of each of them right. *)
Lemma Benford64_pop_push np_log2 n (m m' : Message tail) x :
  wf_message n m -> (Benford64 np_log2).2 m = Ok (m', x) ->
  wf_message n m' /\ length x = n /\ Forall word x
  /\ (Forall (log2_exact np_log2) x -> (Benford64 np_log2).1 m' x = Ok m).
Proof.
  intros Hm Hpop. rewrite Benford64_pop_eq in Hpop.
  destruct ((Uniform (scalar 5)).2 m) as [[m1 l5s]| |] eqn:E5; try done.
  rewrite bind_Ok in Hpop.
  destruct (Uniform_pop_push n (scalar 5) m m1 l5s) as (Hm1 & Hd5 & Hb5);
    try done.
  { simpl. apply Forall_replicate. lia. }
  apply Forall2_replicate_inv in Hd5 as [Hlen5 Hd5].
  assert (Forall (fun l => 0 <= l <= 31) l5s) as Hl31.
  { eapply list.Forall_impl; [exact Hd5|]. simpl. change (2 ^ 5) with 32.
    intros; lia. }
  assert ((fun li => uint64 (li - 31)) <$> ((fun li => uint64 (li + 31)) <$> l5s)
          = l5s) as Hu.
  { clear -Hd5. induction Hd5 as [|l l5s Hl Hd5 IH]; [done|].
    rewrite !fmap_cons, IH. f_equal. change (2 ^ 5) with 32 in Hl.
    rewrite (uint64_small (l + 31)) by lia.
    replace (l + 31 - 31) with l by lia. apply uint64_small. lia. }
  rewrite Hu in Hpop.
  destruct ((Uniform (array l5s)).2 m1) as [[m2 his]| |] eqn:E2; try done.
  rewrite bind_Ok in Hpop.
  destruct (Uniform_pop_push n (array l5s) m1 m2 his) as (Hm2 & Hd2 & Hb2);
    try done.
  destruct ((Uniform (scalar 31)).2 m2) as [[m3 los]| |] eqn:E3; try done.
  rewrite bind_Ok in Hpop. injection Hpop as <- <-.
  destruct (Uniform_pop_push n (scalar 31) m2 m3 los) as (Hm3 & Hd3 & Hb3);
    try done.
  { simpl. apply Forall_replicate. lia. }
  apply Forall2_replicate_inv in Hd3 as [Hlen3 Hd3].
  unfold uniform_dom in Hd2. simpl in Hd2.
  destruct (benford_join_lists l5s his los) as (_ & Hlx & Hwx & Hlo & Hhi & Hle);
    try done.
  { apply Forall2_const_r; [lia|done]. }
  cbv zeta in *.
  split; [done|]. split; [lia|]. split; [done|].
  intros Hlog.
  destruct (benford_symbols np_log2 _ Hwx Hlog) as (F1 & F2 & F3).
  rewrite Benford64_push_eq, F1, F2, F3, Hlo, Hhi, Hle.
  rewrite Hb3, bind_Ok, Hb2, bind_Ok, Hb5. done.
Qed.

(** *** [substack] *)

Lemma substack_push_eq {S} (c : codec (Message tail) S) v head t data :
  (substack c v).1 (head, t) data =
  c.1 ((view_update head v).1, t) data ≫= fun '(subhead, t') =>
  Ok ((view_update head v).2 subhead, t').
Proof. destruct c. reflexivity. Qed.

Lemma substack_pop_eq {S} (c : codec (Message tail) S) v head t :
  (substack c v).2 (head, t) =
  c.2 ((view_update head v).1, t) ≫= fun '((subhead, t'), data) =>
  Ok (((view_update head v).2 subhead, t'), data).
Proof. destruct c. reflexivity. Qed.

Lemma view_update_replaces v head subhead :
  (view_offset v <= length head)%nat ->
  replaces_view v head subhead ((view_update head v).2 subhead).
Proof.
  intros Ho. unfold replaces_view, view_update. simpl.
  split; [done|]. split.
  - intros i Hi. rewrite lookup_app_l by (rewrite length_take; lia).
    apply lookup_take_lt. done.
  - intros i.
    rewrite lookup_app_r by (rewrite length_take; lia).
    rewrite length_take, Nat.min_l by done.
    rewrite lookup_app_r by lia.
    rewrite lookup_drop. f_equal. lia.
Qed.

(** *** Shapes *)

Lemma Uniform_push_shape precision (m : Message tail) s :
  length s = shape m -> shaped (shape m) precision ->
  exists m', (Uniform precision).1 m s = Ok m' /\ shape m' = shape m.
Proof.
  intros Hs Hp. eexists. split; [reflexivity|].
  apply push_shape; done.
Qed.

Lemma Uniform_pop_shape precision (m m' : Message tail) s :
  shaped (shape m) precision -> (Uniform precision).2 m = Ok (m', s) ->
  shape m' = shape m /\ length s = shape m.
Proof.
  intros Hp Hpop. unfold Uniform, NonUniform in Hpop. simpl in Hpop.
  destruct (vrans_pop m precision) as [cf finish] eqn:E.
  destruct (np_interval_check _ _ _) as [[|]|]; [|done..].
  destruct (finish _ _) as [m1|] eqn:Hfin; [|done].
  simpl in Hpop. injection Hpop as <- <-.
  destruct (pop_shape m precision cf finish
              (array (_uniform_dec_statfun cf)) (scalar 1) m1 Hp E) as [Hc Hm].
  split; [|done]. apply Hm; done.
Qed.

Lemma Benford64_push_shape np_log2 (m : Message tail) x :
  length x = shape m ->
  exists m', (Benford64 np_log2).1 m x = Ok m' /\ shape m' = shape m.
Proof.
  intros Hx. rewrite Benford64_push_eq.
  destruct (Uniform_push_shape (scalar 31) m
              ((fun xi => Z.land xi (1 ≪ 31 - 1)) <$> x))
    as (m1 & -> & H1); [by rewrite length_fmap|done|].
  rewrite bind_Ok.
  destruct (Uniform_push_shape
              (array ((fun li => uint64 (li - 31)) <$> (np_log2 <$> x))) m1
              ((fun xi => xi ≫ 31)
                 <$> zip_with (fun xi li => Z.land xi (uint64 (uint64 (1 ≪ li) - 1)))
                       x (np_log2 <$> x)))
    as (m2 & -> & H2).
  { rewrite length_fmap, length_zip_with, length_fmap. lia. }
  { cbn [shaped]. rewrite !length_fmap. lia. }
  rewrite bind_Ok.
  destruct (Uniform_push_shape (scalar 5) m2
              ((fun li => uint64 (li - 31)) <$> (np_log2 <$> x)))
    as (m3 & -> & H3); [rewrite !length_fmap; lia|done|].
  exists m3. split; [done|lia].
Qed.

Lemma Benford64_pop_shape np_log2 (m m' : Message tail) x :
  (Benford64 np_log2).2 m = Ok (m', x) ->
  shape m' = shape m /\ length x = shape m.
Proof.
  intros Hpop. rewrite Benford64_pop_eq in Hpop.
  destruct ((Uniform (scalar 5)).2 m) as [[m1 l5s]| |] eqn:E5; try done.
  rewrite bind_Ok in Hpop.
  destruct (Uniform_pop_shape (scalar 5) m m1 l5s I E5) as [H1 Hl1].
  match type of Hpop with
  | context [Uniform (array ?p)] =>
      assert (shaped (shape m1) (array p)) as Hsh
        by (cbn [shaped]; rewrite !length_fmap; lia)
  end.
  destruct ((Uniform (array _)).2 m1) as [[m2 his]| |] eqn:E2; try done.
  rewrite bind_Ok in Hpop.
  destruct (Uniform_pop_shape _ m1 m2 his Hsh E2) as [H2 Hl2].
  destruct ((Uniform (scalar 31)).2 m2) as [[m3 los]| |] eqn:E3; try done.
  rewrite bind_Ok in Hpop. injection Hpop as <- <-.
  destruct (Uniform_pop_shape (scalar 31) m2 m3 los I E3) as [H3 Hl3].
  split; [lia|].
  rewrite length_zip_with, length_fmap, length_zip. lia.
Qed.

(** *** One step of the folding schedule *)

Lemma fold_view_update d (head : list Z) :
  view_update head {| view_offset := 0; view_width := d |}
  = (take d head, fun subhead => subhead ++ drop d head).
Proof. reflexivity. Qed.

Lemma fold_push_shape np_log2 d head (t : tail) x :
  (Z.to_nat d <= length head)%nat -> length x = Z.to_nat d ->
  exists m', (_fold_codec np_log2 d).1 (head, t) x = Ok m'
             /\ shape m' = length head.
Proof.
  intros Hd Hx. unfold _fold_codec.
  rewrite substack_push_eq, fold_view_update. cbn [fst snd].
  destruct (Benford64_push_shape np_log2 (take (Z.to_nat d) head, t) x)
    as ([sub t'] & -> & Hs).
  { unfold shape. simpl. rewrite length_take. lia. }
  rewrite bind_Ok. eexists. split; [reflexivity|].
  unfold shape in *. simpl in *.
  rewrite length_app, length_drop, Hs, length_take. lia.
Qed.

Lemma fold_pop_shape np_log2 d head (t : tail) m' x :
  (Z.to_nat d <= length head)%nat ->
  (_fold_codec np_log2 d).2 (head, t) = Ok (m', x) ->
  shape m' = length head /\ length x = Z.to_nat d.
Proof.
  intros Hd Hpop. unfold _fold_codec in Hpop.
  rewrite substack_pop_eq, fold_view_update in Hpop. cbn [fst snd] in Hpop.
  destruct ((Benford64 np_log2).2 _) as [[[sub t'] ex]| |] eqn:E; try done.
  rewrite bind_Ok in Hpop. injection Hpop as <- <-.
  apply Benford64_pop_shape in E as [Hs Hx].
  unfold shape in *. simpl in *. rewrite length_take in Hs, Hx.
  rewrite length_app, length_drop. lia.
Qed.

Lemma fold_pop_push np_log2 k d head (t : tail) head' t' x :
  wf_message k (head, t) -> (Z.to_nat d <= k)%nat ->
  (_fold_codec np_log2 d).2 (head, t) = Ok ((head', t'), x) ->
  wf_message k (head', t') /\ length x = Z.to_nat d /\ Forall word x
  /\ (Forall (log2_exact np_log2) x ->
      (_fold_codec np_log2 d).1 (head', t') x = Ok (head, t)).
Proof.
  intros (Hlen & Hw & Ht) Hd Hpop. simpl in Hlen, Hw, Ht.
  unfold _fold_codec in *.
  rewrite substack_pop_eq, fold_view_update in Hpop. cbn [fst snd] in Hpop.
  destruct ((Benford64 np_log2).2 _) as [[[sub t1] ex]| |] eqn:E; try done.
  rewrite bind_Ok in Hpop. injection Hpop as <- <- <-.
  destruct (Benford64_pop_push np_log2 (Z.to_nat d)
              (take (Z.to_nat d) head, t) (sub, t1) ex)
    as ((Hls & Hws & Hts) & Hlx & Hwx & Hback); [|done|].
  { repeat split; simpl; [rewrite length_take; lia|by apply Forall_take|done]. }
  simpl in Hls, Hws, Hts.
  split; [|split; [done|split; [done|]]].
  - repeat split; simpl; [|apply Forall_app; split; [done|by apply Forall_drop]|done].
    rewrite length_app, length_drop. lia.
  - intros Hlog. rewrite substack_push_eq, fold_view_update. cbn [fst snd].
    rewrite take_app_length' by done.
    rewrite (Hback Hlog), bind_Ok.
    rewrite drop_app_length' by done. by rewrite take_drop.
Qed.

(** *** The resizing loops *)

Lemma last_cons_default {A} (x d : A) l : List.last (x :: l) d = List.last l x.
Proof.
  revert x d. induction l as [|y l IH]; intros x d; [done|].
  change (List.last (x :: y :: l) d) with (List.last (y :: l) d).
  rewrite !IH. done.
Qed.

Lemma fold_sizes_schedule small big :
  1 <= small <= big ->
  exists l, _fold_sizes small big = Ok (small :: l)
            /\ schedule small l /\ List.last l small = big.
Proof.
  intros Hs.
  destruct (fold_loop_terminates (fold_fuel big) small big Hs
              (fold_fuel_bound small big Hs)) as (l & Hrun & Hd & Hi & Hl).
  exists l. split.
  { unfold _fold_sizes, _fold_sizes_fuel. by rewrite Hrun. }
  clear Hrun Hs. revert small Hd Hi Hl.
  induction l as [|x l IH]; intros small Hd Hi Hl.
  - simpl in *. split; [done|]. congruence.
  - destruct Hd as [Hx Hd], Hi as [Hlt Hi]. rewrite last_cons_cons in Hl.
    destruct (IH x Hd Hi Hl) as [Hsch Hlast].
    split; [simpl; split; [lia|done]|].
    by rewrite last_cons_default.
Qed.

Lemma fold_codecs_cons np_log2 s x l :
  _fold_codecs (tail := tail) np_log2 (s :: x :: l)
  = _fold_codec np_log2 (x - s) :: _fold_codecs np_log2 (x :: l).
Proof. reflexivity. Qed.

Lemma removelast_cons2 {A} (s x : A) l :
  removelast (s :: x :: l) = s :: removelast (x :: l).
Proof. reflexivity. Qed.

Lemma resize_grow_cons c cs (m : Message tail) :
  resize_grow (c :: cs) m
  = c.2 m ≫= fun '((head, t), head_ex) => resize_grow cs (head ++ head_ex, t).
Proof. destruct c. reflexivity. Qed.

Lemma resize_grow_words_cons c cs (m : Message tail) :
  resize_grow_words (c :: cs) m
  = match c.2 m with
    | Ok ((head, t), head_ex) =>
        head_ex ++ resize_grow_words cs (head ++ head_ex, t)
    | _ => []
    end.
Proof. destruct c. reflexivity. Qed.

Lemma resize_shrink_cons c new_size steps head (t : tail) :
  resize_shrink ((c, new_size) :: steps) (head, t)
  = c.1 (take (Z.to_nat new_size) head, t) (drop (Z.to_nat new_size) head)
    ≫= resize_shrink steps.
Proof. destruct c. reflexivity. Qed.

Lemma resize_shrink_app steps1 steps2 (m : Message tail) :
  resize_shrink (steps1 ++ steps2) m
  = resize_shrink steps1 m ≫= resize_shrink steps2.
Proof.
  revert m. induction steps1 as [|[[push pop] new_size] steps1 IH];
    intros [head t]; [done|].
  cbn [app resize_shrink]. destruct (push _ _); [apply IH|done|done].
Qed.

Lemma grow_then_shrink np_log2 l :
  forall s (m m1 : Message tail),
    1 <= s -> schedule s l -> wf_message (Z.to_nat s) m ->
    resize_grow (_fold_codecs np_log2 (s :: l)) m = Ok m1 ->
    wf_message (Z.to_nat (List.last l s)) m1
    /\ (Forall (log2_exact np_log2)
          (resize_grow_words (_fold_codecs np_log2 (s :: l)) m) ->
        resize_shrink
          (reverse (zip (_fold_codecs np_log2 (s :: l)) (removelast (s :: l)))) m1
        = Ok m).
Proof.
  induction l as [|x l IH]; intros s [head t] m1 Hs Hsch Hm Hgrow.
  - simpl in Hgrow. injection Hgrow as <-. done.
  - destruct Hsch as [Hx Hsch].
    rewrite fold_codecs_cons in *.
    rewrite resize_grow_cons in Hgrow. rewrite resize_grow_words_cons.
    destruct ((_fold_codec np_log2 (x - s)).2 (head, t))
      as [[[head' t'] ex]| |] eqn:E; try done.
    rewrite bind_Ok in Hgrow.
    destruct (fold_pop_push np_log2 (Z.to_nat s) (x - s) head t head' t' ex Hm
                ltac:(lia) E) as ((Hl' & Hw' & Ht') & Hlx & Hwx & Hback).
    simpl in Hl', Hw', Ht'.
    destruct (IH x (head' ++ ex, t') m1 ltac:(lia) Hsch) as [Hm1 Hshrink];
      [|done|].
    { repeat split; simpl; [|by apply Forall_app|done].
      rewrite length_app. lia. }
    rewrite last_cons_default.
    split; [done|]. intros Hlog. apply Forall_app in Hlog as [Hlog1 Hlog2].
    rewrite removelast_cons2. cbn [zip zip_with]. rewrite reverse_cons.
    rewrite resize_shrink_app, (Hshrink Hlog2), bind_Ok.
    rewrite resize_shrink_cons.
    rewrite take_app_length', drop_app_length' by done.
    rewrite (Hback Hlog1). done.
Qed.

Lemma shrink_shape np_log2 l :
  forall s head (t : tail),
    1 <= s -> schedule s l -> length head = Z.to_nat (List.last l s) ->
    exists m',
      resize_shrink
        (reverse (zip (_fold_codecs np_log2 (s :: l)) (removelast (s :: l))))
        (head, t) = Ok m'
      /\ shape m' = Z.to_nat s.
Proof.
  induction l as [|x l IH]; intros s head t Hs Hsch Hlen.
  - exists (head, t). done.
  - destruct Hsch as [Hx Hsch]. rewrite last_cons_default in Hlen.
    destruct (IH x head t ltac:(lia) Hsch Hlen) as ([head' t'] & Hrun & Hsh).
    rewrite fold_codecs_cons, removelast_cons2. cbn [zip zip_with].
    rewrite reverse_cons, resize_shrink_app, Hrun, bind_Ok, resize_shrink_cons.
    unfold shape in Hsh. simpl in Hsh.
    destruct (fold_push_shape np_log2 (x - s) (take (Z.to_nat s) head') t'
                (drop (Z.to_nat s) head')) as (m' & Hpush & Hsh').
    { rewrite length_take. lia. }
    { rewrite length_drop. lia. }
    rewrite Hpush. exists m'. split; [done|].
    rewrite Hsh', length_take. lia.
Qed.

Lemma grow_shape np_log2 l :
  forall s (m m1 : Message tail),
    1 <= s -> schedule s l -> shape m = Z.to_nat s ->
    resize_grow (_fold_codecs np_log2 (s :: l)) m = Ok m1 ->
    shape m1 = Z.to_nat (List.last l s).
Proof.
  induction l as [|x l IH]; intros s [head t] m1 Hs Hsch Hsh Hgrow.
  - simpl in Hgrow. injection Hgrow as <-. done.
  - destruct Hsch as [Hx Hsch]. unfold shape in Hsh. simpl in Hsh.
    rewrite fold_codecs_cons, resize_grow_cons in Hgrow.
    destruct ((_fold_codec np_log2 (x - s)).2 (head, t))
      as [[[head' t'] ex]| |] eqn:E; try done.
    rewrite bind_Ok in Hgrow.
    destruct (fold_pop_shape np_log2 (x - s) head t (head', t') ex ltac:(lia) E)
      as [Hsh' Hex].
    unfold shape in Hsh'. simpl in Hsh'.
    rewrite last_cons_default.
    apply (IH x (head' ++ ex, t') m1); [lia|done| |done].
    unfold shape. simpl. rewrite length_app. lia.
Qed.

(** [_resize_head_1d] returns a head of exactly the requested size. *)
Lemma resize_result_shape np_log2 (m m1 : Message tail) size :
  (1 <= shape m)%nat -> 1 <= size ->
  _resize_head_1d np_log2 m size = Ok m1 -> Z.of_nat (shape m1) = size.
Proof.
  destruct m as [head t]. unfold shape. simpl. intros Ha Hb Hrun.
  unfold resize_sizes in Hrun.
  destruct (fold_sizes_schedule (Z.min size (Z.of_nat (length head)))
              (Z.max size (Z.of_nat (length head))) ltac:(lia))
    as (l & Hsizes & Hsch & Hlast).
  rewrite Hsizes, bind_Ok in Hrun.
  destruct (Z.ltb_spec size (Z.of_nat (length head))) as [Hlt|Hge].
  - rewrite Z.min_l in * by lia. rewrite Z.max_r in Hlast by lia.
    destruct (shrink_shape np_log2 l size head t Hb Hsch) as (m' & Hrun' & Hsh).
    { rewrite Hlast. lia. }
    rewrite Hrun' in Hrun. injection Hrun as <-.
    unfold shape in Hsh. lia.
  - destruct (Z.ltb_spec (Z.of_nat (length head)) size) as [Hlt|Hge'].
    + rewrite Z.min_r in * by lia. rewrite Z.max_l in Hlast by lia.
      pose proof (grow_shape np_log2 l (Z.of_nat (length head)) (head, t) m1
                    ltac:(lia) Hsch ltac:(unfold shape; simpl; lia) Hrun) as Hsh.
      rewrite Hlast in Hsh. unfold shape in Hsh. lia.
    + injection Hrun as <-. simpl. lia.
Qed.

Lemma reshape_of_resize np_log2 (m m1 : Message tail) size :
  (1 <= shape m)%nat -> 1 <= size ->
  _resize_head_1d np_log2 m size = Ok m1 ->
  reshape_head np_log2 m size = Ok m1.
Proof.
  intros Ha Hb Hrun. pose proof (resize_result_shape _ _ _ _ Ha Hb Hrun) as Hsh.
  unfold reshape_head. rewrite Hrun, bind_Ok. destruct m1 as [head1 t1].
  unfold shape in Hsh. simpl in Hsh. rewrite <- Hsh, Z.eqb_refl. done.
Qed.

Lemma resize_of_reshape np_log2 (m m1 : Message tail) size :
  reshape_head np_log2 m size = Ok m1 ->
  _resize_head_1d np_log2 m size = Ok m1 /\ Z.of_nat (shape m1) = size.
Proof.
  unfold reshape_head. intros Hrun.
  destruct (_resize_head_1d np_log2 m size) as [[head1 t1]| |]; try done.
  rewrite bind_Ok in Hrun.
  destruct (Z.eqb_spec (Z.of_nat (length head1)) size); [|done].
  injection Hrun as <-. done.
Qed.

(** C6 (amended).  Let the head of [m] have [a >= 1] lanes and let the
    target size [b] be at least 1.  Whenever [_resize_head_1d] returns,
    the head has exactly [b] lanes and so does [reshape_head]'s; shrinking
    always returns; whenever [reshape_head] to [b] and back to [a] both
    return, the result has the shape of [m]; and for a well-formed [m] and
    [b >= a], if growing returns and numpy takes the logarithm of each word
    that growing popped exactly, reshaping back to [a] returns [m]. *)
Theorem reshape_roundtrip np_log2 (m : Message tail) (b : Z) :
  (1 <= shape m)%nat -> 1 <= b ->
  (forall m1, _resize_head_1d np_log2 m b = Ok m1 ->
              reshape_head np_log2 m b = Ok m1 /\ Z.of_nat (shape m1) = b)
  /\ (b <= Z.of_nat (shape m) -> exists m1, reshape_head np_log2 m b = Ok m1)
  /\ (forall m1 m2,
        reshape_head np_log2 m b = Ok m1 ->
        reshape_head np_log2 m1 (Z.of_nat (shape m)) = Ok m2 ->
        shape m2 = shape m)
  /\ (Z.of_nat (shape m) <= b -> wf_message (shape m) m ->
      forall m1,
        reshape_head np_log2 m b = Ok m1 ->
        Forall (log2_exact np_log2) (reshape_grow_words np_log2 m b) ->
        reshape_head np_log2 m1 (Z.of_nat (shape m)) = Ok m).
Proof.
  intros Ha Hb. split; [|split; [|split]].
  - intros m1 Hrun. split; [by apply reshape_of_resize|].
    by eapply resize_result_shape.
  - intros Hle. destruct m as [head t]. unfold shape in *. simpl in *.
    destruct (Z.ltb_spec b (Z.of_nat (length head))) as [Hlt|Hge].
    + destruct (fold_sizes_schedule b (Z.of_nat (length head)) ltac:(lia))
        as (l & Hsizes & Hsch & Hlast).
      destruct (shrink_shape np_log2 l b head t Hb Hsch) as (m' & Hrun & Hsh).
      { rewrite Hlast. lia. }
      exists m'. apply reshape_of_resize; [unfold shape; simpl; lia|done|].
      unfold _resize_head_1d, resize_sizes.
      rewrite Z.min_l, Z.max_r, Hsizes, bind_Ok by lia.
      destruct (Z.ltb_spec b (Z.of_nat (length head))); [done|lia].
    + exists (head, t). apply reshape_of_resize; [unfold shape; simpl; lia|done|].
      assert (b = Z.of_nat (length head)) as -> by lia.
      unfold _resize_head_1d, resize_sizes.
      rewrite Z.min_id, Z.max_id.
      destruct (fold_sizes_schedule (Z.of_nat (length head))
                  (Z.of_nat (length head)) ltac:(lia)) as (l & -> & _).
      rewrite bind_Ok, Z.ltb_irrefl. done.
  - intros m1 m2 _ Hback. apply resize_of_reshape in Hback as [_ Hsh]. lia.
  - intros Hle Hwf m1 Hrun Hwords.
    apply resize_of_reshape in Hrun as [Hrun Hsh1].
    destruct m as [head t]. unfold shape in *. simpl in Ha, Hle, Hwf.
    unfold reshape_grow_words, _resize_head_1d, resize_sizes in *.
    cbn [fst] in *.
    destruct (fold_sizes_schedule (Z.of_nat (length head)) b ltac:(lia))
      as (l & Hsizes & Hsch & Hlast).
    rewrite Z.min_r, Z.max_l, Hsizes in * by lia. rewrite bind_Ok in Hrun.
    destruct (Z.ltb_spec b (Z.of_nat (length head))) as [|_]; [lia|].
    destruct (Z.ltb_spec (Z.of_nat (length head)) b) as [Hlt|Hge].
    + destruct (grow_then_shrink np_log2 l (Z.of_nat (length head)) (head, t) m1
                  ltac:(lia) Hsch) as [Hm1 Hshrink]; [|done|].
      { by rewrite Nat2Z.id. }
      apply reshape_of_resize; [unfold shape; simpl; lia|lia|].
      destruct m1 as [head1 t1]. unfold shape in Hsh1. simpl in Hsh1 |- *.
      unfold resize_sizes.
      rewrite Hsh1. rewrite Z.min_l, Z.max_r, Hsizes, bind_Ok by lia.
      destruct (Z.ltb_spec (Z.of_nat (length head)) b); [|lia].
      by apply Hshrink.
    + injection Hrun as <-. apply reshape_of_resize; [unfold shape; simpl; lia|lia|].
      simpl. unfold resize_sizes.
      assert (b = Z.of_nat (length head)) as Hb' by lia.
      rewrite <- Hb', Z.min_id, Z.max_id in *.
      rewrite Hsizes, bind_Ok, Z.ltb_irrefl. done.
Qed.

Lemma benford_join_unwrapped l5s his los :
  Forall (fun l => 0 <= l < 2 ^ 5) l5s ->
  Forall2 (fun hi l => 0 <= hi < 2 ^ l) his l5s ->
  Forall2 (fun lo l => 0 <= lo < 2 ^ 31) los l5s ->
  zip_with benford_join_word ((fun li => uint64 (li + 31)) <$> l5s) (zip his los)
  = zip_with (fun li hl => Z.lor (Z.lor (1 ≪ (li + 31)) (hl.1 ≪ 31)) hl.2)
      l5s (zip his los).
Proof.
  intros Hl Hh. revert los.
  induction Hh as [|hi l5 his l5s Hhi Hh IH]; intros los Hlo.
  { by inversion Hlo. }
  inversion Hlo as [|lo ? los' ? Hlo0 Hlo']; subst.
  apply Forall_cons in Hl as [Hl0 Hl].
  rewrite fmap_cons. cbn [zip zip_with]. rewrite (IH Hl los' Hlo').
  f_equal. unfold benford_join_word. simpl.
  change (2 ^ 5) with 32 in Hl0.
  rewrite (uint64_small (l5 + 31)) by lia.
  assert (2 ^ (l5 + 31) = 2 ^ l5 * 2 ^ 31) as Hpow by (apply Z.pow_add_r; lia).
  assert (0 < 2 ^ l5) by (apply Z.pow_pos_nonneg; lia).
  assert (2 ^ (l5 + 31) <= 2 ^ 62) by (apply Z.pow_le_mono_r; lia).
  rewrite !uint64_small; [done| |].
  - rewrite Z.shiftl_mul_pow2 by lia. nia.
  - rewrite Z.shiftl_1_l. lia.
Qed.

Lemma bit_length_word x : word x -> bit_length x = Z.log2 x + 1.
Proof.
  intros [Hlo Hhi]. unfold bit_length.
  destruct (Z.eqb_spec x 0); [lia|]. rewrite Z.abs_eq by lia. done.
Qed.

(** X24.  On a well-formed message and words whose logarithm numpy
    takes exactly, [Benford64]'s push is the push of the low 31 bits
    at precision 31, then of the bits above them without the leading one
    at a precision of [bit_length(x) - 32] bits, then of
    [bit_length(x) - 32] itself (between 0 and 31) at precision 5, where
    [x = 2^(bit_length(x) - 1) + high * 2^31 + low]; its pop reads the
    length at precision 5, the high bits at that width and the low bits at
    precision 31, and returns [(1 << (length + 31)) | (high << 31) | low]. *)
Theorem Benford64_code np_log2 (n : nat) (m : Message tail) (x : list Z) :
  wf_message n m -> length x = n -> Forall word x ->
  Forall (log2_exact np_log2) x ->
  (Benford64 np_log2).1 m x =
    ((Uniform (scalar 31)).1 m (benford_low <$> x) ≫= fun m1 =>
     (Uniform (array (benford_length <$> x))).1 m1 (benford_high <$> x) ≫= fun m2 =>
     (Uniform (scalar 5)).1 m2 (benford_length <$> x))
  /\ Forall (fun xi => benford_length xi = bit_length xi - 32
                       /\ 0 <= benford_length xi <= 31
                       /\ 0 <= benford_low xi < 2 ^ 31
                       /\ 0 <= benford_high xi < 2 ^ benford_length xi
                       /\ xi = 2 ^ (bit_length xi - 1)
                               + benford_high xi * 2 ^ 31 + benford_low xi) x
  /\ (Benford64 np_log2).2 m =
       ((Uniform (scalar 5)).2 m ≫= fun '(m1, l) =>
        (Uniform (array l)).2 m1 ≫= fun '(m2, hi) =>
        (Uniform (scalar 31)).2 m2 ≫= fun '(m3, lo) =>
        Ok (m3, zip_with (fun li hl => Z.lor (Z.lor (1 ≪ (li + 31)) (hl.1 ≪ 31)) hl.2)
                  l (zip hi lo))).
Proof.
  intros Hm Hlen Hw Hlog. split; [|split].
  - destruct (benford_symbols np_log2 x Hw Hlog) as (E1 & E2 & E3).
    by rewrite Benford64_push_eq, E1, E2, E3.
  - eapply list.Forall_impl; [exact Hw|]. intros xi Hxi.
    destruct (benford_split xi Hxi) as (H1 & H2 & H3 & H4).
    rewrite (bit_length_word xi Hxi). unfold benford_length in *.
    replace (Z.log2 xi + 1 - 1) with (Z.log2 xi) by lia.
    repeat split; lia.
  - rewrite Benford64_pop_eq.
    destruct ((Uniform (scalar 5)).2 m) as [[m1 l5s]| |] eqn:E5; try done.
    rewrite !bind_Ok.
    destruct (Uniform_pop_push n (scalar 5) m m1 l5s) as (Hm1 & Hd5 & _);
      try done.
    { simpl. apply Forall_replicate. lia. }
    apply Forall2_replicate_inv in Hd5 as [Hlen5 Hd5].
    assert (Forall (fun l => 0 <= l <= 31) l5s) as Hl31.
    { eapply list.Forall_impl; [exact Hd5|]. simpl. change (2 ^ 5) with 32.
      intros; lia. }
    assert ((fun li => uint64 (li - 31)) <$> ((fun li => uint64 (li + 31)) <$> l5s)
            = l5s) as ->.
    { clear -Hd5. induction Hd5 as [|l l5s Hl Hd5 IH]; [done|].
      rewrite !fmap_cons, IH. f_equal. change (2 ^ 5) with 32 in Hl.
      rewrite (uint64_small (l + 31)) by lia.
      replace (l + 31 - 31) with l by lia. apply uint64_small. lia. }
    destruct ((Uniform (array l5s)).2 m1) as [[m2 his]| |] eqn:E2; try done.
    rewrite !bind_Ok.
    destruct (Uniform_pop_push n (array l5s) m1 m2 his) as (Hm2 & Hd2 & _);
      try done.
    destruct ((Uniform (scalar 31)).2 m2) as [[m3 los]| |] eqn:E3; try done.
    rewrite !bind_Ok.
    destruct (Uniform_pop_push n (scalar 31) m2 m3 los) as (Hm3 & Hd3 & _);
      try done.
    { simpl. apply Forall_replicate. lia. }
    apply Forall2_replicate_inv in Hd3 as [Hlen3 Hd3].
    rewrite benford_join_unwrapped; try done.
    apply Forall2_const_r; [lia|done].
Qed.

(** C1 (amended).  Every codec built by the algebra from [NonUniform]
    and [repeat], over statistic functions that agree and satisfy the
    interval invariants at a precision from 0 to 31 ([statfuns_ok], by
    [interval_ok]), round-trips: for every well-formed message and every
    symbol of its domain, [push] returns a message on which [pop] returns
    exactly the original message and symbol; the pushed message is again
    well formed, so the property carries over to any number of further
    pushes. *)
Theorem algebra_roundtrip (n : nat) {S : Type} (c : codec (Message tail) S)
    (dom : S -> Prop) :
  built n c dom -> roundtrip (wf_message n) dom c.
Proof.
  induction 1 as [S enc dec precision dom Hstat|S c dom k Hc IH].
  - by apply roundtrip_NonUniform.
  - by apply roundtrip_repeat.
Qed.

End Roundtrip.

Lemma algebra_roundtrip_witness :
  roundtrip (wf_message 2)
    (fun l => length l = 3%nat /\ Forall (uniform_dom 2 (scalar 8)) l)
    (repeat (Uniform (tail := list Z) (scalar 8)) 3).
Proof.
  apply (algebra_roundtrip (L := reference_laws) 2
           (repeat (Uniform (scalar 8)) (Z.of_nat 3))).
  apply built_repeat, built_NonUniform.
  apply uniform_statfuns_ok; [done|].
  repeat constructor; lia.
Defined.

(** C1 as stated fails without a bound on the precision: at precision
    40 the statistic functions of [Uniform] agree and satisfy the interval
    invariants ([0 < freq], [0 <= start], [start + freq <= 2 ** 40]) on
    the symbols [1] and [2], the message is well formed, and yet
    [repeat(Uniform(40), 2)] pops another message and other data than it
    was given: the first push takes the head out of the range of head
    words. *)
Lemma algebra_roundtrip_precision_40 :
  let m : Message (list Z) := ([2 ^ 62 + 5], [7]) in
  let c := repeat (Uniform (scalar 40)) 2 in
  wf_message 1 m
  /\ Forall (fun s =>
        Forall3 (fun st f p => 0 < f /\ 0 <= st /\ st + f <= 2 ^ p)
          (lanes 1 (_uniform_enc_statfun s).1)
          (lanes 1 (_uniform_enc_statfun s).2) (lanes 1 (scalar 40))
        /\ forall cf, in_intervals 1 (_uniform_enc_statfun s).1
                        (_uniform_enc_statfun s).2 cf ->
                      _uniform_dec_statfun cf = s) [[1]; [2]]
  /\ (c.1 m [[1]; [2]] ≫= c.2) = Ok (([2], [5; 7]), [[1]; [2 ^ 38]])
  /\ (c.1 m [[1]; [2]] ≫= c.2) <> Ok (m, [[1]; [2]]).
Proof.
  cbv zeta. split; [repeat split; repeat constructor; lia|].
  split; [|split; vm_compute; congruence].
  assert (forall x cf, in_intervals 1 (array [x]) (scalar 1) cf -> cf = [x])
    as Hdec.
  { intros x cf Hin. unfold in_intervals in Hin. simpl in Hin.
    inversion Hin as [|? ? c ? ? cf' Hc Hrest]; subst.
    inversion Hrest; subst. f_equal. lia. }
  repeat constructor; simpl; try lia; apply Hdec.
Qed.

(** A head word below [2^31] is no message of the primitive: popping
    what was pushed on it takes a word from the tail. *)
Example uniform_low_head :
  let m : Message (list Z) := ([5], [7]) in
  ~ wf_message 1 m
  /\ ((Uniform (scalar 8)).1 m [1] ≫= (Uniform (scalar 8)).2)
     = Ok (([5 * 2 ^ 32 + 7], []), [1]).
Proof.
  cbv zeta. split; [|reflexivity].
  intros (_ & Hw & _). apply Forall_cons_1 in Hw as [[Hw _] _]. lia.
Qed.

(** Three symbols of two lanes each, pushed and popped on a concrete
    message of the reference primitive. *)
Example repeat_uniform_roundtrip :
  let m : Message (list Z) := ([2 ^ 31 + 5; 2 ^ 62 + 1], [9]) in
  let c := repeat (Uniform (scalar 8)) 3 in
  c.1 m [[1; 2]; [255; 0]; [17; 200]] ≫= c.2
  = Ok (m, [[1; 2]; [255; 0]; [17; 200]]).
Proof. reflexivity. Qed.

(** C9.  For every inner codec and every sub-range view that starts
    inside the head: when [substack]'s push (or pop) returns, the inner
    codec returned on the viewed lanes and the given tail, the returned
    tail is the inner codec's tail, and the returned head is the input
    head with the viewed lanes replaced by the inner codec's sub-head, the
    lanes before and after the view unchanged. *)
Theorem substack_frame {tail : Type} {V : Vrans tail} {S : Type}
    (c : codec (Message tail) S) (v : view) (head : list Z) (t : tail) :
  (view_offset v <= length head)%nat ->
  (forall data head' t',
     (substack c v).1 (head, t) data = Ok (head', t') ->
     exists subhead,
       c.1 ((view_update head v).1, t) data = Ok (subhead, t')
       /\ replaces_view v head subhead head')
  /\ (forall head' t' data,
        (substack c v).2 (head, t) = Ok ((head', t'), data) ->
        exists subhead,
          c.2 ((view_update head v).1, t) = Ok ((subhead, t'), data)
          /\ replaces_view v head subhead head').
Proof.
  intros Ho. split.
  - intros data head' t' Hrun. rewrite substack_push_eq in Hrun.
    destruct (c.1 _ data) as [[subhead t1]| |]; try done.
    simpl in Hrun. injection Hrun as <- <-.
    exists subhead. split; [done|]. by apply view_update_replaces.
  - intros head' t' data Hrun. rewrite substack_pop_eq in Hrun.
    destruct (c.2 _) as [[[subhead t1] data1]| |]; try done.
    simpl in Hrun. injection Hrun as <- <- <-.
    exists subhead. split; [done|]. by apply view_update_replaces.
Qed.

Lemma substack_frame_witness :
  let c := Uniform (tail := list Z) (scalar 8) in
  let v := {| view_offset := 1; view_width := 2 |} in
  let head := [2 ^ 31 + 1; 2 ^ 31 + 2; 2 ^ 31 + 3; 2 ^ 31 + 4] in
  (forall data head' t',
     (substack c v).1 (head, [5]) data = Ok (head', t') ->
     exists subhead,
       c.1 ((view_update head v).1, [5]) data = Ok (subhead, t')
       /\ replaces_view v head subhead head')
  /\ (forall head' t' data,
        (substack c v).2 (head, [5]) = Ok ((head', t'), data) ->
        exists subhead,
          c.2 ((view_update head v).1, [5]) = Ok ((subhead, t'), data)
          /\ replaces_view v head subhead head').
Proof.
  cbv zeta.
  apply (substack_frame (Uniform (scalar 8))
           {| view_offset := 1; view_width := 2 |}
           [2 ^ 31 + 1; 2 ^ 31 + 2; 2 ^ 31 + 3; 2 ^ 31 + 4] [5]).
  simpl. lia.
Defined.

(** The codec runs on lanes 1 and 2 only; lanes 0 and 3 keep their
    words. *)
Example substack_uniform_push :
  (substack (Uniform (tail := list Z) (scalar 8))
     {| view_offset := 1; view_width := 2 |}).1
    ([2 ^ 31 + 1; 2 ^ 31 + 2; 2 ^ 31 + 3; 2 ^ 31 + 4], [5]) [7; 9]
  = Ok ([2 ^ 31 + 1; (2 ^ 31 + 2) * 2 ^ 8 + 7; (2 ^ 31 + 3) * 2 ^ 8 + 9;
         2 ^ 31 + 4], [5]).
Proof. reflexivity. Qed.

(** ** [Benford64] on the reference primitive *)

Lemma Benford64_code_witness :
  let m : Message (list Z) := ([2 ^ 31 + 5; 2 ^ 40 + 3], [7]) in
  let x := [2 ^ 31 + 12345; 2 ^ 62 + 99] in
  (Benford64 Reference.np_log2).1 m x =
    ((Uniform (scalar 31)).1 m (benford_low <$> x) ≫= fun m1 =>
     (Uniform (array (benford_length <$> x))).1 m1 (benford_high <$> x) ≫= fun m2 =>
     (Uniform (scalar 5)).1 m2 (benford_length <$> x))
  /\ Forall (fun xi => benford_length xi = bit_length xi - 32
                       /\ 0 <= benford_length xi <= 31
                       /\ 0 <= benford_low xi < 2 ^ 31
                       /\ 0 <= benford_high xi < 2 ^ benford_length xi
                       /\ xi = 2 ^ (bit_length xi - 1)
                               + benford_high xi * 2 ^ 31 + benford_low xi) x
  /\ (Benford64 Reference.np_log2).2 m =
       ((Uniform (scalar 5)).2 m ≫= fun '(m1, l) =>
        (Uniform (array l)).2 m1 ≫= fun '(m2, hi) =>
        (Uniform (scalar 31)).2 m2 ≫= fun '(m3, lo) =>
        Ok (m3, zip_with (fun li hl => Z.lor (Z.lor (1 ≪ (li + 31)) (hl.1 ≪ 31)) hl.2)
                  l (zip hi lo))).
Proof.
  cbv zeta.
  apply (Benford64_code (L := reference_laws) Reference.np_log2 2
           ([2 ^ 31 + 5; 2 ^ 40 + 3], [7]) [2 ^ 31 + 12345; 2 ^ 62 + 99]).
  - repeat split; repeat constructor; lia.
  - reflexivity.
  - repeat constructor; lia.
  - repeat constructor.
Defined.

(** The scenario of the spec: [2^31 + 12345] is coded as low bits 12345,
    length 0 and high bits 0, and decodes to itself. *)
Example Benford64_scenario :
  let m : Message (list Z) := ([2 ^ 31 + 5], []) in
  let x := 2 ^ 31 + 12345 in
  benford_low x = 12345 /\ benford_length x = 0 /\ benford_high x = 0
  /\ log2_exact Reference.np_log2 x
  /\ ((Benford64 Reference.np_log2).1 m [x] ≫= (Benford64 Reference.np_log2).2)
     = Ok (m, [x]).
Proof. repeat split. Qed.

(** C4 at the top of the range.  With [bit_length] read as the position
    of the leading one (the code's [x_len]), the word [2^63 - 1] has length
    [62 - 31 = 31] and 31 bits above the low ones.  The float64 logarithm
    gives 63: push codes the length 32, which is no symbol of the 5-bit
    codec, and the high part at a width of 32 bits with the leading one
    still in it; this is not the push of the low bits, the 31 high bits
    and the length 31, and pop does not return [x]. *)
Theorem Benford64_length_out_of_range :
  let m : Message (list Z) := ([2 ^ 31 + 5], []) in
  let x := 2 ^ 63 - 1 in
  word x
  /\ benford_low x = 2 ^ 31 - 1 /\ benford_high x = 2 ^ 31 - 1
  /\ benford_length x = 31
  /\ uint64 (Reference.np_log2 x - 31) = 32
  /\ ~ uniform_dom 1 (scalar 5) [32]
  /\ (Benford64 Reference.np_log2).1 m [x] =
       ((Uniform (scalar 31)).1 m [2 ^ 31 - 1] ≫= fun m1 =>
        (Uniform (array [32])).1 m1 [2 ^ 32 - 1] ≫= fun m2 =>
        (Uniform (scalar 5)).1 m2 [32])
  /\ (Benford64 Reference.np_log2).1 m [x] <>
       ((Uniform (scalar 31)).1 m [benford_low x] ≫= fun m1 =>
        (Uniform (array [benford_length x])).1 m1 [benford_high x] ≫= fun m2 =>
        (Uniform (scalar 5)).1 m2 [benford_length x])
  /\ ((Benford64 Reference.np_log2).1 m [x] ≫= (Benford64 Reference.np_log2).2)
     <> Ok (m, [x]).
Proof.
  cbv zeta. split; [unfold word; lia|].
  do 4 (split; [vm_compute; reflexivity|]).
  split.
  { unfold uniform_dom. simpl. intros H.
    apply Forall2_cons_1 in H as [H _]. lia. }
  split; [vm_compute; reflexivity|].
  split; vm_compute; congruence.
Qed.

(** The logarithm also rounds up below smaller powers of two: at
    [2^53 - 1], a float64, numpy's [x_len] is 53 where the leading one
    stands at 52; push keeps the leading one among the 22 high bits and
    pop returns [2^54 - 1]. *)
Example Benford64_below_power_of_two :
  let m : Message (list Z) := ([2 ^ 31 + 5], []) in
  let x := 2 ^ 53 - 1 in
  word x /\ float64_of_int x = x
  /\ Reference.np_log2 x = 53 /\ Z.log2 x = 52
  /\ ((Benford64 Reference.np_log2).1 m [x] ≫= (Benford64 Reference.np_log2).2)
     = Ok (m, [2 ^ 54 - 1]).
Proof.
  cbv zeta. split; [unfold word; lia|].
  repeat split; vm_compute; congruence.
Qed.

(** C3 at the top of the range.  The float64 image of [2^63 - 1] is
    [2^63], so [np.uint64(np.log2(x))] is 63 where the leading one stands
    at 62: push leaves the leading one in the high bits, codes them at a
    width of 32 bits and hands the length 32 to the 5-bit codec; pop then
    returns another number and another message. *)
Theorem Benford64_top_of_range :
  let m : Message (list Z) := ([2 ^ 31 + 5], []) in
  let x := 2 ^ 63 - 1 in
  2 ^ 31 <= x < 2 ^ 63
  /\ float64_of_int x = 2 ^ 63
  /\ Reference.np_log2 x = 63 /\ Z.log2 x = 62
  /\ (Benford64 Reference.np_log2).1 m [x] =
       ((Uniform (scalar 31)).1 m [2 ^ 31 - 1] ≫= fun m1 =>
        (Uniform (array [32])).1 m1 [2 ^ 32 - 1] ≫= fun m2 =>
        (Uniform (scalar 5)).1 m2 [32])
  /\ ((Benford64 Reference.np_log2).1 m [x] ≫= (Benford64 Reference.np_log2).2)
     = Ok (([2 ^ 31 + 7], [2 ^ 32 - 1]), [2 ^ 32 - 1]).
Proof. repeat split; vm_compute; congruence. Qed.

(** The same slip in [reshape_head]: a well-formed message from which
    growing pops the word [2^63 - 1] is not restored by shrinking back. *)
Example reshape_float_slip :
  let m : Message (list Z) := ([17179869247], [2147483647; 4294967295]) in
  wf_message 1 m
  /\ reshape_head Reference.np_log2 m 2 = Ok ([2 ^ 31 + 5; 2 ^ 63 - 1], [])
  /\ reshape_head Reference.np_log2 ([2 ^ 31 + 5; 2 ^ 63 - 1], []) 1
     = Ok ([34359738464], [4294967295; 4294967295]).
Proof.
  cbv zeta. split; [|split; reflexivity].
  repeat split; repeat constructor; lia.
Qed.

(** ** [reshape_head] on the reference primitive *)

Lemma reshape_roundtrip_witness :
  let m : Message (list Z) :=
    ([2 ^ 31 + 5; 2 ^ 40 + 3; 2 ^ 62 + 77; 2 ^ 33; 2 ^ 50 + 1], [1; 2; 3]) in
  let np_log2 := Reference.np_log2 in
  (forall m1, _resize_head_1d np_log2 m 7 = Ok m1 ->
              reshape_head np_log2 m 7 = Ok m1 /\ Z.of_nat (shape m1) = 7)
  /\ (7 <= Z.of_nat (shape m) -> exists m1, reshape_head np_log2 m 7 = Ok m1)
  /\ (forall m1 m2,
        reshape_head np_log2 m 7 = Ok m1 ->
        reshape_head np_log2 m1 (Z.of_nat (shape m)) = Ok m2 ->
        shape m2 = shape m)
  /\ (Z.of_nat (shape m) <= 7 -> wf_message (shape m) m ->
      forall m1,
        reshape_head np_log2 m 7 = Ok m1 ->
        Forall (log2_exact np_log2) (reshape_grow_words np_log2 m 7) ->
        reshape_head np_log2 m1 (Z.of_nat (shape m)) = Ok m).
Proof.
  cbv zeta.
  apply (reshape_roundtrip (L := reference_laws) Reference.np_log2
           ([2 ^ 31 + 5; 2 ^ 40 + 3; 2 ^ 62 + 77; 2 ^ 33; 2 ^ 50 + 1], [1; 2; 3])
           7).
  - unfold shape. simpl. lia.
  - lia.
Defined.

(** Growing five lanes to seven takes two words from the stream; numpy's
    logarithm is exact on both, and shrinking back restores the message. *)
Example reshape_grow_shrink :
  let m : Message (list Z) :=
    ([2 ^ 31 + 5; 2 ^ 40 + 3; 2 ^ 62 + 77; 2 ^ 33; 2 ^ 50 + 1], [1; 2; 3]) in
  wf_message 5 m
  /\ reshape_grow_words Reference.np_log2 m 7 = [70866960384; 17179869184]
  /\ Forall (log2_exact Reference.np_log2) (reshape_grow_words Reference.np_log2 m 7)
  /\ (reshape_head Reference.np_log2 m 7 ≫= fun m1 =>
      reshape_head Reference.np_log2 m1 5) = Ok m.
Proof.
  cbv zeta. split; [repeat split; repeat constructor; lia|].
  split; [reflexivity|]. split; [repeat constructor|reflexivity].
Qed.

(** C6 as stated fails: reshaping to size 0 never returns (the loop of
    [_fold_sizes] doubles 0 for ever), and growing a one-lane message
    whose tail is empty fails in the primitive. *)
Lemma reshape_head_counterexample :
  let m : Message (list Z) := ([2 ^ 31 + 5], []) in
  wf_message 1 m
  /\ reshape_head Reference.np_log2 m 0 = Diverge
  /\ (forall fuel, _fold_sizes_fuel fuel 0 1 = None)
  /\ reshape_head Reference.np_log2 m 2 = Raise StackExhausted.
Proof.
  cbv zeta. split; [repeat split; repeat constructor; lia|].
  split; [reflexivity|]. split; [|reflexivity].
  intros fuel. apply fold_sizes_from_zero_one.
Qed.

(** ** [AutoRegressive] *)

Section AutoRegressive_facts.
Context {M E P : Type}.
Variable nonzero : P -> bool.
Variable astype_uint64 : E -> E.
Variable param_fn : list E -> option (list P * nat) -> list P.
Variable data_zeros : list E.
Variable params_zeros : list P.
Variable elem_codec : P -> nat -> codec M E.

Lemma AutoRegressive_push_loop_app idxs1 idxs2 all_params data (m : M) :
  AutoRegressive_push_loop astype_uint64 elem_codec (idxs1 ++ idxs2) all_params data m
  = AutoRegressive_push_loop astype_uint64 elem_codec idxs1 all_params data m
    ≫= AutoRegressive_push_loop astype_uint64 elem_codec idxs2 all_params data.
Proof.
  revert m. induction idxs1 as [|idx idxs1 IH]; intros m; [done|].
  cbn [app AutoRegressive_push_loop].
  destruct (py_getitem all_params idx) as [p| |]; try done. simpl.
  destruct (elem_codec p idx) as [elem_push elem_pop].
  destruct (data !! idx) as [e|]; [|done]. simpl.
  destruct (elem_push m (astype_uint64 e)); simpl; [apply IH|done|done].
Qed.

(** The loop of [pop] returns exactly when the rounds are a run of the
    step relation over the indices it was given. *)
Lemma AutoRegressive_pop_loop_run idxs :
  forall (m : M) data all_params m' data' steps,
    AutoRegressive_pop_loop param_fn elem_codec idxs m data all_params
    = Ok (m', data', steps)
    <-> pop_run param_fn elem_codec m data all_params steps m' data'
        /\ step_idx <$> steps = idxs.
Proof.
  induction idxs as [|idx idxs IH]; intros m data all_params m' data' steps.
  - simpl. split.
    + intros [= <- <- <-]. split; [constructor|done].
    + intros [Hrun Hidx]. destruct steps; [|done]. by inversion Hrun.
  - cbn [AutoRegressive_pop_loop]. split.
    + intros Hrun.
      destruct (_ !! idx) as [p|] eqn:Hp; [|done]. simpl in Hrun.
      destruct (elem_codec p idx) as [elem_push elem_pop] eqn:Hc.
      destruct (elem_pop m) as [[m1 e]| |] eqn:Hpop; try done. simpl in Hrun.
      unfold setitem in Hrun. destruct (bool_decide_reflect (idx < length data)%nat);
        [|done]. simpl in Hrun.
      destruct (AutoRegressive_pop_loop _ _ idxs m1 _ _)
        as [[[m2 d2] steps2]| |] eqn:Erun; try done.
      simpl in Hrun. injection Hrun as <- <- <-.
      apply IH in Erun as [Hrest Hidx].
      split; [|rewrite fmap_cons; simpl; by rewrite Hidx].
      econstructor; [exact Hp|by rewrite Hc|done|done].
    + intros [Hrun Hidx]. inversion Hrun as [|? ? ? idx0 p m1 e steps' ? ? Hp Hpop Hlt Hrest];
        subst; [done|].
      simpl in Hidx. injection Hidx as <- Hidx.
      rewrite Hp. simpl. destruct (elem_codec p idx0) as [elem_push elem_pop].
      simpl in Hpop. rewrite Hpop. simpl.
      unfold setitem. rewrite bool_decide_eq_true_2 by done. simpl.
      assert (AutoRegressive_pop_loop param_fn elem_codec idxs m1
                (<[idx0:=e]> data) (param_fn data (Some (all_params, idx0)))
              = Ok (m', data', steps')) as -> by (apply IH; done).
      done.
Qed.

(** Along a run, round [k] is handed the buffer holding exactly the
    elements written in the rounds before it, and the returned data is the
    buffer after the last write. *)
Lemma pop_run_written (m : M) data all_params steps m' data' :
  pop_run param_fn elem_codec m data all_params steps m' data' ->
  data' = written data steps
  /\ forall k s, steps !! k = Some s -> step_data s = written data (take k steps).
Proof.
  induction 1 as [|m data ps idx p m1 e steps m' data' Hp Hpop Hlt Hrun [IH1 IH2]].
  - split; [done|]. intros k s Hs. done.
  - split; [done|]. intros [|k] s Hs; simpl in Hs.
    + injection Hs as <-. done.
    + simpl. by apply IH2.
Qed.

Variable wf : M -> Prop.
Variable dom : E -> Prop.
Variable elem_idxs : list nat.
Variable data : list E.

Lemma known_length idxs : length (known data data_zeros idxs) = length data_zeros.
Proof.
  unfold known. induction idxs as [|i idxs IH] using rev_ind; [done|].
  rewrite foldl_app. simpl. destruct (data !! i); [|done].
  by rewrite length_insert.
Qed.

Lemma known_snoc idxs idx elem :
  data !! idx = Some elem ->
  known data data_zeros (idxs ++ [idx]) = <[idx:=elem]> (known data data_zeros idxs).
Proof. intros He. unfold known. rewrite foldl_app. simpl. by rewrite He. Qed.

Hypothesis elem_roundtrip : forall p idx, roundtrip wf dom (elem_codec p idx).
Hypothesis astype_dom : forall e, dom e -> astype_uint64 e = e.
Hypothesis coded : forall idx, idx ∈ elem_idxs ->
  exists e p, data !! idx = Some e /\ dom e /\ param_fn data None !! idx = Some p.
Hypothesis causal : forall pre idx suf all_params,
  elem_idxs = pre ++ idx :: suf ->
  param_fn (known data data_zeros pre) (Some (all_params, idx)) !! idx
  = param_fn data None !! idx.
Hypothesis zeros_shape : length data_zeros = length data.

Lemma AutoRegressive_suffix suf :
  forall pre (m : M),
    elem_idxs = pre ++ suf -> wf m ->
    exists m1,
      AutoRegressive_push_loop astype_uint64 elem_codec (reverse suf)
        (PyArray (param_fn data None)) data m = Ok m1
      /\ wf m1
      /\ forall all_params, exists steps,
           AutoRegressive_pop_loop param_fn elem_codec suf m1
             (known data data_zeros pre) all_params
           = Ok (m, known data data_zeros (pre ++ suf), steps).
Proof.
  induction suf as [|idx suf IH]; intros pre m Hidxs Hm.
  - exists m. split; [done|]. split; [done|]. intros ps. exists [].
    by rewrite app_nil_r.
  - destruct (IH (pre ++ [idx]) m) as (m1 & Hpush & Hm1 & Hpop);
      [by rewrite <- app_assoc|done|].
    destruct (coded idx) as (e & p & He & Hde & Hp).
    { rewrite Hidxs. apply elem_of_app. right. by left. }
    destruct (elem_roundtrip p idx m1 e Hm1 Hde) as (m2 & Hpush2 & Hm2 & Hpop2).
    exists m2. split; [|split; [done|]].
    + rewrite reverse_cons, AutoRegressive_push_loop_app, Hpush. simpl.
      rewrite Hp, He. simpl. destruct (elem_codec p idx) as [elem_push elem_pop].
      simpl in Hpush2. rewrite (astype_dom e Hde), Hpush2. done.
    + intros ps. cbn [AutoRegressive_pop_loop].
      rewrite (causal pre idx suf ps Hidxs), Hp. simpl.
      destruct (elem_codec p idx) as [elem_push elem_pop].
      simpl in Hpop2. rewrite Hpop2. simpl.
      unfold setitem. rewrite bool_decide_eq_true_2.
      2:{ rewrite known_length, zeros_shape. by eapply lookup_lt_Some. }
      simpl. rewrite <- (known_snoc pre idx e He).
      destruct (Hpop (param_fn (known data data_zeros pre) (Some (ps, idx))))
        as [steps Hsteps].
      rewrite Hsteps. simpl. rewrite <- app_assoc. simpl. eauto.
Qed.

(** C7.  [pop] runs one round per index of [elem_idxs], in that order: a
    round calls [param_fn] on the data buffer holding exactly the elements
    decoded so far (zeros elsewhere) and on the running parameters, pops
    the element with the codec of the parameters at its index, and writes
    it into the buffer before the next round.  With element codecs that
    round-trip and a [param_fn] whose parameters at an index depend only
    on the elements decoded before it, [pop] after [push] (which pushes in
    the reverse order) returns the message and the data. *)
Theorem AutoRegressive_ordered (m : M) :
  wf m -> known data data_zeros elem_idxs = data ->
  (forall m0 m' data' steps,
     AutoRegressive_pop_loop param_fn elem_codec elem_idxs m0 data_zeros
       params_zeros = Ok (m', data', steps) ->
     pop_run param_fn elem_codec m0 data_zeros params_zeros steps m' data'
     /\ step_idx <$> steps = elem_idxs
     /\ data' = written data_zeros steps
     /\ forall k s, steps !! k = Some s ->
                    step_data s = written data_zeros (take k steps))
  /\ exists m',
       (AutoRegressive nonzero astype_uint64 param_fn data_zeros params_zeros
          elem_idxs elem_codec).1 m data = Ok m'
       /\ wf m'
       /\ (AutoRegressive nonzero astype_uint64 param_fn data_zeros params_zeros
             elem_idxs elem_codec).2 m' = Ok (m, data).
Proof.
  intros Hm Hknown. split.
  - intros m0 m' data' steps Hrun.
    apply AutoRegressive_pop_loop_run in Hrun as [Hrun Hidx].
    destruct (pop_run_written _ _ _ _ _ _ Hrun) as [Hd Hk]. done.
  - destruct (AutoRegressive_suffix elem_idxs [] m eq_refl Hm)
      as (m' & Hpush & Hm' & Hpop).
    exists m'. split; [done|]. split; [done|].
    destruct (Hpop params_zeros) as [steps Hsteps].
    change (known data data_zeros []) with data_zeros in Hsteps.
    rewrite app_nil_l, Hknown in Hsteps.
    cbn [snd AutoRegressive]. unfold AutoRegressive_pop.
    rewrite Hsteps. done.
Qed.

End AutoRegressive_facts.

(** *** The scenario: parameters [sum(data[0:i])], data [[1, 2, 3]] *)

Lemma shifted_statfuns_ok n p :
  statfuns_ok n
    (fun s => (array ((fun x => (x + p) mod 2 ^ 8) <$> s), scalar 1))
    (fun cf => (fun c => (c - p) mod 2 ^ 8) <$> cf) (scalar 8)
    (uniform_dom n (scalar 8)).
Proof.
  intros s Hs. unfold uniform_dom in Hs. simpl in *.
  apply Forall2_replicate_inv in Hs as [Hlen Hs]. subst n. split.
  - repeat split; simpl; [by rewrite length_fmap|].
    rewrite <- (length_fmap (fun x => (x + p) mod 2 ^ 8) s).
    apply Forall3_replicate_mid, Forall2_replicate_r; [done|].
    apply Forall_fmap, Forall_true. intros x. simpl. unfold interval_ok.
    pose proof (Z.mod_pos_bound (x + p) (2 ^ 8) ltac:(lia)). lia.
  - intros cf Hin. unfold in_intervals in Hin. simpl in Hin.
    rewrite <- (length_fmap (fun x => (x + p) mod 2 ^ 8) s) in Hin.
    apply Forall3_replicate_mid in Hin.
    apply Forall2_fmap_l in Hin.
    induction Hin as [|x c s cf Hx Hin IH]; [done|].
    apply Forall_cons in Hs as [Hx0 Hs]. rewrite fmap_cons, (IH Hs).
    f_equal. simpl in Hx. replace c with ((x + p) mod 2 ^ 8) by lia.
    rewrite Zminus_mod_idemp_l. replace (x + p - p) with x by lia.
    apply Z.mod_small. done.
Qed.

Lemma sum_codec_roundtrip p idx :
  roundtrip (wf_message 1) (uniform_dom 1 (scalar 8)) (SumModel.elem_codec p idx).
Proof.
  apply (roundtrip_NonUniform (L := reference_laws)), shifted_statfuns_ok.
Qed.

Lemma uniform_dom_uint64 n e : uniform_dom n (scalar 8) e -> uint64 <$> e = e.
Proof.
  intros He. apply Forall2_replicate_inv in He as [_ He].
  induction He as [|x e Hx He IH]; [done|].
  rewrite fmap_cons, IH. f_equal. apply uint64_small. lia.
Qed.

Lemma AutoRegressive_ordered_witness :
  let m : Message (list Z) := ([2 ^ 31 + 5], [4]) in
  (forall m0 m' data' steps,
     AutoRegressive_pop_loop SumModel.param_fn SumModel.elem_codec [0; 1; 2]%nat
       m0 [[0]; [0]; [0]] [0; 0; 0] = Ok (m', data', steps) ->
     pop_run SumModel.param_fn SumModel.elem_codec m0 [[0]; [0]; [0]] [0; 0; 0]
       steps m' data'
     /\ step_idx <$> steps = [0; 1; 2]%nat
     /\ data' = written [[0]; [0]; [0]] steps
     /\ forall k s, steps !! k = Some s ->
                    step_data s = written [[0]; [0]; [0]] (take k steps))
  /\ exists m',
       (SumModel.Codec [0; 1; 2]%nat).1 m SumModel.data = Ok m'
       /\ wf_message 1 m'
       /\ (SumModel.Codec [0; 1; 2]%nat).2 m' = Ok (m, SumModel.data).
Proof.
  cbv zeta.
  apply (AutoRegressive_ordered (fun p => negb (p =? 0)) (fmap uint64)
           SumModel.param_fn [[0]; [0]; [0]] [0; 0; 0] SumModel.elem_codec
           (wf_message 1) (uniform_dom 1 (scalar 8)) [0; 1; 2]%nat SumModel.data).
  - apply sum_codec_roundtrip.
  - apply uniform_dom_uint64.
  - intros idx Hidx.
    repeat (apply elem_of_cons in Hidx as [->|Hidx]);
      [..|by apply elem_of_nil in Hidx];
      eexists _, _; (split; [reflexivity|]); (split; [|reflexivity]);
      repeat constructor; lia.
  - intros pre idx suf ps Hidxs.
    destruct pre as [|a [|b [|c pre]]]; simpl in Hidxs;
      [by simplify_eq..|].
    exfalso. injection Hidxs as _ _ _ Hnil. by destruct pre.
  - reflexivity.
  - repeat split; repeat constructor; lia.
  - reflexivity.
Defined.

(** The data come back in forward order; a decoder that visits the
    positions in another order returns other data. *)
Example AutoRegressive_sum_scenario :
  let m : Message (list Z) := ([2 ^ 31 + 5], [4]) in
  ((SumModel.Codec [0; 1; 2]%nat).1 m SumModel.data
     ≫= (SumModel.Codec [0; 1; 2]%nat).2) = Ok (m, [[1]; [2]; [3]])
  /\ ((SumModel.Codec [0; 1; 2]%nat).1 m SumModel.data
        ≫= (SumModel.Codec [2; 1; 0]%nat).2) = Ok (m, [[6]; [3]; [1]]).
Proof. split; reflexivity. Qed.

(** *** The optional argument [all_params] of [push] *)

(** C10.  [push] takes its parameters from one call [param_fn(data)]
    exactly when [not all_params] holds, which is the case for [None], a
    zero scalar, an empty list, an empty array and an array of one zero;
    when [not all_params] is false the loop runs on the given
    [all_params] and [param_fn] plays no part; and for a numpy array of
    two or more elements the test [not all_params] raises [ValueError],
    and so does [push], whatever the message and the data. *)
Theorem AutoRegressive_push_all_params {M E P : Type}
    (nonzero : P -> bool) (astype_uint64 : E -> E)
    (param_fn : list E -> option (list P * nat) -> list P)
    (elem_idxs : list nat) (elem_codec : P -> nat -> codec M E)
    (m : M) (data : list E) (all_params : py_params P) :
  let push := AutoRegressive_push nonzero astype_uint64 param_fn elem_idxs
                elem_codec m data in
  let loop := fun ps => AutoRegressive_push_loop astype_uint64 elem_codec
                          (reverse elem_idxs) ps data m in
  (py_not nonzero all_params = Ok true <->
     all_params = PyNone \/ all_params = PyList [] \/ all_params = PyArray []
     \/ exists p, nonzero p = false
                  /\ (all_params = PyScalar p \/ all_params = PyArray [p]))
  /\ (py_not nonzero all_params = Ok true ->
      push all_params = loop (PyArray (param_fn data None)))
  /\ (py_not nonzero all_params = Ok false -> push all_params = loop all_params)
  /\ (forall a, all_params = PyArray a -> (2 <= length a)%nat ->
      py_not nonzero all_params = Raise ValueError
      /\ push all_params = Raise ValueError).
Proof.
  cbv zeta. unfold AutoRegressive_push. repeat split.
  - destruct all_params as [|p|l|a]; simpl.
    + auto.
    + destruct (nonzero p) eqn:Hp; [done|]. intros _. right; right; right.
      exists p. auto.
    + destruct l; [auto|done].
    + destruct a as [|p [|q a]]; [auto| |done].
      destruct (nonzero p) eqn:Hp; [done|]. intros _. right; right; right.
      exists p. auto.
  - intros [->|[->|[->|(p & Hp & [->| ->])]]]; simpl; by rewrite ?Hp.
  - intros ->. done.
  - intros ->. done.
  - subst all_params. destruct a as [|p [|q a]]; simpl in *; [lia..|done].
  - subst all_params. destruct a as [|p [|q a]]; simpl in *; [lia..|done].
Qed.

(** The array that [param_fn(data)] itself returns for three elements
    cannot be handed to [push]; left out, or given as a list, it is used. *)
Example AutoRegressive_push_precomputed :
  let m : Message (list Z) := ([2 ^ 31 + 5], [4]) in
  let all_params := SumModel.param_fn SumModel.data None in
  all_params = [0; 1; 3; 6]
  /\ (SumModel.Codec [0; 1; 2]%nat).1 m SumModel.data
     = AutoRegressive_push (fun p => negb (p =? 0)) (fmap uint64)
         SumModel.param_fn [0; 1; 2]%nat SumModel.elem_codec m SumModel.data
         PyNone
  /\ AutoRegressive_push (fun p => negb (p =? 0)) (fmap uint64)
       SumModel.param_fn [0; 1; 2]%nat SumModel.elem_codec m SumModel.data
       (PyArray all_params) = Raise ValueError
  /\ AutoRegressive_push (fun p => negb (p =? 0)) (fmap uint64)
       SumModel.param_fn [0; 1; 2]%nat SumModel.elem_codec m SumModel.data
       (PyList all_params)
     = (SumModel.Codec [0; 1; 2]%nat).1 m SumModel.data.
Proof. repeat split. Qed.

(* ================================================================== *)
(** * Further properties of the module *)

(** ** [NonUniform] with statistic functions that may raise *)

Lemma NonUniform_raising_total {tail : Type} {V : Vrans tail} {S : Type}
    (enc_statfun : S -> ndarray * ndarray) (dec_statfun : list Z -> S)
    (precision : ndarray) :
  NonUniform_raising (fun s => Ok (enc_statfun s)) (fun cf => Ok (dec_statfun cf))
    precision
  = NonUniform enc_statfun dec_statfun precision.
Proof. reflexivity. Qed.

Section Decoding.
Context {tail : Type} {V : Vrans tail} {L : VransLaws tail}.

Lemma roundtrip_NonUniform_raising {S} n
    (enc_statfun : S -> result (ndarray * ndarray)) dec_statfun precision
    (dom : S -> Prop) :
  statfuns_return n enc_statfun dec_statfun precision dom ->
  roundtrip (wf_message n) dom (NonUniform_raising enc_statfun dec_statfun precision).
Proof.
  intros Hstat m s Hm Hs.
  destruct (Hstat s Hs) as (start & freq & Henc & Hi & Hdec).
  destruct (push_then_pop n m start freq precision Hm Hi)
    as (Hm' & cf & finish & Hpop & Hin & Hfin).
  exists (vrans_push m start freq precision). simpl.
  rewrite Henc. split; [done|]. split; [done|].
  rewrite Hpop, (Hdec cf Hin). simpl. rewrite Henc. simpl.
  rewrite (in_intervals_checks _ _ _ _ _ Hi Hin), Hfin. done.
Qed.

(** Whenever [pop] returns, the assertion has held on the interval of
    the returned symbol. *)
Lemma NonUniform_raising_pop_inv {S} (enc_statfun : S -> result (ndarray * ndarray))
    dec_statfun precision (m m' : Message tail) s :
  (NonUniform_raising enc_statfun dec_statfun precision).2 m = Ok (m', s) ->
  exists start freq,
    dec_statfun (vrans_pop m precision).1 = Ok s
    /\ enc_statfun s = Ok (start, freq)
    /\ np_interval_check start freq (vrans_pop m precision).1 = Some true
    /\ (vrans_pop m precision).2 start freq = Some m'.
Proof.
  simpl. destruct (vrans_pop m precision) as [cf finish].
  destruct (dec_statfun cf) as [s0| |] eqn:Hdec; simpl; try done.
  destruct (enc_statfun s0) as [[start freq]| |] eqn:Henc; simpl; try done.
  destruct (np_interval_check start freq cf) as [[|]|] eqn:Hin; try done.
  destruct (finish start freq) as [m1|] eqn:Hfin; simpl; [|done].
  intros [= <- <-]. by exists start, freq.
Qed.

Lemma pop_push_NonUniform_raising {S} n
    (enc_statfun : S -> result (ndarray * ndarray)) dec_statfun precision
    (dom : S -> Prop) :
  shaped n precision -> Forall (fun p => 0 <= p <= 31) (lanes n precision) ->
  (forall cf s start freq,
     Forall2 (fun c p => 0 <= c < 2 ^ p) cf (lanes n precision) ->
     dec_statfun cf = Ok s -> enc_statfun s = Ok (start, freq) ->
     np_interval_check start freq cf = Some true ->
     dom s /\ intervals_ok n start freq precision) ->
  pop_push (wf_message n) dom (NonUniform_raising enc_statfun dec_statfun precision).
Proof.
  intros Hsp Hp Hok m m' s Hm Hpop.
  destruct (NonUniform_raising_pop_inv _ _ _ _ _ _ Hpop)
    as (start & freq & Hdec & Henc & Hchk & Hfin).
  destruct (vrans_pop m precision) as [cf finish] eqn:Hvp. simpl in *.
  destruct (pop_then_push n m precision cf finish Hm Hsp Hp Hvp) as [Hcf Hback].
  assert (length cf = n) as Hlen.
  { apply Forall2_length in Hcf. by rewrite lanes_length in Hcf. }
  destruct (Hok cf s start freq Hcf Hdec Henc Hchk) as [Hdom Hi].
  assert (in_intervals n start freq cf) as Hin.
  { rewrite <- Hlen in Hi |- *. by eapply checks_in_intervals. }
  destruct (Hback start freq m' Hi Hin Hfin) as [Hm' Hpush].
  split; [done|]. split; [done|].
  cbn [fst NonUniform_raising]. rewrite Henc. simpl. by rewrite Hpush.
Qed.

End Decoding.

(** ** Tables of cumulative buckets as statistic functions *)

Lemma diff_pos_sorted t :
  Forall (fun w => 1 <= w) (np_diff t) -> StronglySorted Z.lt t.
Proof.
  induction t as [|a [|b t] IH]; intros Hd.
  - constructor.
  - repeat constructor.
  - unfold np_diff in Hd. cbn [tail zip_with] in Hd.
    apply Forall_cons in Hd as [Hab Hd].
    specialize (IH Hd). constructor; [done|].
    constructor; [lia|].
    apply StronglySorted_inv in IH as [_ Hb].
    eapply list.Forall_impl; [exact Hb|]. intros x Hx; simpl in *; lia.
Qed.

Lemma sorted_lt_lookup t i j a b :
  StronglySorted Z.lt t -> t !! i = Some a -> t !! j = Some b ->
  (i < j)%nat -> a < b.
Proof.
  intros Hs. revert i j.
  induction Hs as [|x t Hs IH Hx]; intros i j Hi Hj Hij; [done|].
  destruct j as [|j]; [lia|]. destruct i as [|i]; simpl in *.
  - injection Hi as ->. eapply (Forall_lookup_1 _ t); done.
  - eapply IH; [done..|lia].
Qed.

Lemma filter_le_above (t : list Z) v :
  Forall (fun x => v < x) t -> filter (fun x => x <= v) t = [].
Proof.
  induction 1 as [|x t Hx Ht IH]; [done|].
  rewrite filter_cons_False by lia. done.
Qed.

(** On a strictly increasing table, [searchsorted(.., 'right') - 1] is
    the index of the bucket that holds the value. *)
Lemma searchsorted_bucket t i a b cf :
  StronglySorted Z.lt t -> t !! i = Some a -> t !! S i = Some b ->
  a <= cf < b -> np_searchsorted_right t cf - 1 = Z.of_nat i.
Proof.
  unfold np_searchsorted_right. intros Hs. revert i.
  induction Hs as [|x t Hs IH Hx]; intros i Hi Hj Hcf; [done|].
  destruct i as [|i]; simpl in Hi, Hj.
  - injection Hi as ->. rewrite filter_cons_True by lia.
    rewrite filter_le_above; [simpl; lia|].
    destruct t as [|y t]; [done|]. injection Hj as ->.
    apply StronglySorted_inv in Hs as [_ Hb].
    constructor; [lia|].
    eapply list.Forall_impl; [exact Hb|]. intros z Hz; simpl in *; lia.
  - assert (x < a) by (eapply (Forall_lookup_1 _ t); done).
    rewrite filter_cons_True by lia.
    specialize (IH i Hi Hj Hcf). cbn [length]. lia.
Qed.

(** Every value from the first entry up to the last lies in a bucket. *)
Lemma table_bracket t a0 z cf :
  head t = Some a0 -> list.last t = Some z -> a0 <= cf < z ->
  exists i a b, t !! i = Some a /\ t !! S i = Some b /\ a <= cf < b.
Proof.
  revert a0. induction t as [|x [|y t] IH]; intros a0 Hh Hl Hcf; [done| |].
  - simpl in *. simplify_eq. lia.
  - simpl in Hh. injection Hh as ->.
    destruct (Z.lt_ge_cases cf y) as [Hlt|Hge].
    + exists 0%nat, a0, y. simpl. repeat split; [lia|done].
    + destruct (IH y) as (i & a & b & Hi & Hj & Hab); [done|done|lia|].
      exists (S i), a, b. done.
Qed.

Lemma table_bounds p t i a :
  stat_table p t -> t !! i = Some a -> 0 <= a <= 2 ^ p.
Proof.
  intros (Hh & Hl & Hd & _) Hi.
  pose proof (diff_pos_sorted t Hd) as Hs.
  rewrite last_lookup in Hl. rewrite head_lookup in Hh.
  pose proof (lookup_lt_Some _ _ _ Hi) as Hlt.
  split.
  - destruct i as [|i]; [by simplify_eq|].
    pose proof (sorted_lt_lookup t 0 (S i) 0 a Hs Hh Hi ltac:(lia)). lia.
  - destruct (decide (i = pred (length t))) as [->|Hne]; [by simplify_eq|].
    pose proof (sorted_lt_lookup t i (pred (length t)) a (2 ^ p) Hs Hi Hl
                  ltac:(lia)). lia.
Qed.

(** One lane of a table: the interval of bucket [x] and what lies in it. *)
Lemma table_interval p t n x :
  p < 64 -> length t = S n -> stat_table p t -> 0 <= x < Z.of_nat n ->
  exists a b,
    np_getitem t x = Ok a /\ np_getitem t (Z.succ x) = Ok b
    /\ 0 <= a /\ 0 < b - a /\ a + (b - a) <= 2 ^ p
    /\ uint64 (b - a) = b - a
    /\ forall cf, a <= cf < a + (b - a) -> np_searchsorted_right t cf - 1 = x.
Proof.
  intros Hp Hlen Ht Hx.
  destruct (lookup_lt_is_Some_2 t (Z.to_nat x)) as [a Ha]; [lia|].
  destruct (lookup_lt_is_Some_2 t (S (Z.to_nat x))) as [b Hb]; [lia|].
  pose proof (table_bounds p t _ a Ht Ha) as Hab.
  pose proof (table_bounds p t _ b Ht Hb) as Hbb.
  destruct Ht as (_ & _ & Hd & _).
  pose proof (diff_pos_sorted t Hd) as Hs.
  pose proof (sorted_lt_lookup t _ _ a b Hs Ha Hb ltac:(lia)) as Hlt.
  exists a, b. unfold np_getitem. rewrite Hlen.
  destruct (Z.leb_spec 0 x); [|lia].
  destruct (Z.ltb_spec x (Z.of_nat (S n))); [|lia].
  destruct (Z.leb_spec 0 (Z.succ x)); [|lia].
  destruct (Z.ltb_spec (Z.succ x) (Z.of_nat (S n))); [|lia].
  simpl. rewrite Ha. rewrite Z2Nat.inj_succ by lia. rewrite Hb.
  repeat split; try done; try lia.
  - apply uint64_small.
    assert (2 ^ p < 2 ^ 64); [|lia].
    destruct (Z.le_gt_cases 0 p); [|rewrite Z.pow_neg_r in *; lia].
    apply Z.pow_lt_mono_r; lia.
  - intros cf Hcf.
    rewrite (searchsorted_bucket t (Z.to_nat x) a b cf); [lia|done..|lia].
Qed.

Lemma cdf_from_buckets_cons t tables x s :
  length tables = length s ->
  _cdf_from_cumulative_buckets (t :: tables) (x :: s)
  = np_getitem t x ≫= fun v =>
    _cdf_from_cumulative_buckets tables s ≫= fun vs => Ok (v :: vs).
Proof.
  intros Hlen. unfold _cdf_from_cumulative_buckets, np_broadcast2.
  rewrite !bool_decide_eq_true_2 by (simpl; lia). reflexivity.
Qed.

Lemma cdf_from_buckets_nil : _cdf_from_cumulative_buckets [] [] = Ok [].
Proof. reflexivity. Qed.

(** The tables of a codec, row by row. *)
Lemma cumulative_buckets_tables scaled precision tables :
  0 <= precision <= 53 -> Forall scaled_row scaled ->
  _cumulative_buckets_from_probs_rows scaled precision = Ok tables ->
  Forall2 (fun t row => length t = S (length row) /\ stat_table precision t)
    tables scaled.
Proof.
  intros Hp Hrows. revert tables.
  unfold _cumulative_buckets_from_probs_rows.
  induction Hrows as [|row rows [Hnn Hsum] Hrows IH]; intros tables Hrun.
  - injection Hrun as <-. constructor.
  - cbn [mapM] in Hrun.
    destruct (_cumulative_buckets_from_probs row precision) as [t| |] eqn:Hrow;
      simpl in Hrun; try done.
    destruct (mapM _ rows) as [ts| |] eqn:Hrest; simpl in Hrun; try done.
    injection Hrun as <-.
    destruct (cumulative_buckets_row row precision t Hp Hnn Hsum Hrow)
      as (Hlen & Ht & _).
    constructor; [done|by apply IH].
Qed.

Lemma categorical_lanes prec tables scaled s :
  0 <= prec <= 31 ->
  Forall2 (fun t row => length t = S (length row) /\ stat_table prec t)
    tables scaled ->
  categorical_dom scaled s ->
  exists starts uppers,
    _cdf_from_cumulative_buckets tables s = Ok starts
    /\ _cdf_from_cumulative_buckets tables (Z.succ <$> s) = Ok uppers
    /\ length starts = length tables /\ length uppers = length tables
    /\ Forall3 interval_ok starts
         (zip_with (fun u l => uint64 (u - l)) uppers starts)
         (replicate (length tables) prec)
    /\ forall cf,
         Forall3 (fun a f c => a <= c < a + f) starts
           (zip_with (fun u l => uint64 (u - l)) uppers starts) cf ->
         zip_with (fun bucket c => np_searchsorted_right bucket c - 1) tables cf = s.
Proof.
  intros Hp Ht Hs. revert s Hs.
  induction Ht as [|t row tables scaled [Hlen Hst] Ht IH]; intros s Hs.
  - apply Forall2_nil_inv_r in Hs as ->. exists [], [].
    repeat split; try done; try constructor.
  - apply Forall2_cons_inv_r in Hs as (x & s' & Hx & Hs' & ->).
    destruct (IH s' Hs') as (starts & uppers & E1 & E2 & L1 & L2 & Hi & Hdec).
    destruct (table_interval prec t (length row) x ltac:(lia) Hlen Hst Hx)
      as (a & b & Ga & Gb & Ha & Hab & Hb & Hu & Hsearch).
    pose proof (Forall2_length _ _ _ Hs') as Hls.
    pose proof (Forall2_length _ _ _ Ht) as Hlt.
    exists (a :: starts), (b :: uppers).
    rewrite fmap_cons, !cdf_from_buckets_cons
      by (rewrite ?length_fmap; lia).
    rewrite Ga, Gb, E1, E2. cbn [zip_with length replicate].
    rewrite Hu. repeat split; try done; try (simpl; lia).
    + constructor; [|done]. unfold interval_ok. lia.
    + intros cf Hcf. inversion Hcf as [|? ? c ? ? cf' Hc Hcf']; subst.
      cbn [zip_with]. rewrite (Hsearch c Hc), (Hdec cf' Hcf'). done.
Qed.

Lemma ppf_in_dom prec tables scaled cf s :
  Forall2 (fun t row => length t = S (length row) /\ stat_table prec t)
    tables scaled ->
  Forall (fun c => 0 <= c < 2 ^ prec) cf ->
  _ppf_from_cumulative_buckets tables cf = Ok s ->
  categorical_dom scaled s.
Proof.
  unfold _ppf_from_cumulative_buckets, categorical_dom.
  intros Ht Hcf. case_bool_decide as Hlen; [|done]. intros [= <-].
  revert cf Hcf Hlen.
  induction Ht as [|t row tables scaled [Hl Hst] Ht IH]; intros cf Hcf Hlen.
  - constructor.
  - destruct cf as [|c cf]; [done|].
    apply Forall_cons in Hcf as [Hc Hcf]. cbn [zip_with length] in *.
    constructor; [|apply IH; [done|lia]].
    destruct Hst as (Hh & Hla & Hd & Hsum).
    destruct (table_bracket t 0 (2 ^ prec) c Hh Hla Hc)
      as (i & a & b & Hi & Hj & Hab).
    rewrite (searchsorted_bucket t i a b c (diff_pos_sorted t Hd) Hi Hj Hab).
    apply lookup_lt_Some in Hj. lia.
Qed.

Lemma np_getitem_nat t i a :
  t !! i = Some a -> np_getitem t (Z.of_nat i) = Ok a.
Proof.
  intros Hi. pose proof (lookup_lt_Some _ _ _ Hi). unfold np_getitem.
  destruct (Z.leb_spec 0 (Z.of_nat i)); [|lia].
  destruct (Z.ltb_spec (Z.of_nat i) (Z.of_nat (length t))); [|lia].
  simpl. by rewrite Nat2Z.id, Hi.
Qed.

(** The symbols [ppf] finds are those whose intervals hold the values. *)
Lemma ppf_lanes prec tables (scaled : list (list Z)) :
  0 <= prec <= 31 ->
  Forall2 (fun t row => length t = S (length row) /\ stat_table prec t)
    tables scaled ->
  forall cf starts uppers,
    Forall (fun c => 0 <= c < 2 ^ prec) cf -> length cf = length tables ->
    _cdf_from_cumulative_buckets tables
      (zip_with (fun bucket c => np_searchsorted_right bucket c - 1) tables cf)
    = Ok starts ->
    _cdf_from_cumulative_buckets tables
      (Z.succ <$> zip_with (fun bucket c => np_searchsorted_right bucket c - 1)
                    tables cf)
    = Ok uppers ->
    Forall3 (fun a f c => a <= c < a + f) starts
      (zip_with (fun u l => uint64 (u - l)) uppers starts) cf.
Proof.
  intros Hp Ht.
  induction Ht as [|t row tables scaled [Hl Hst] Ht IH];
    intros cf starts uppers Hcf Hlen E1 E2.
  - destruct cf; [|done]. injection E1 as <-. injection E2 as <-. constructor.
  - destruct cf as [|c cf]; [done|].
    apply Forall_cons in Hcf as [Hc Hcf]. simpl in Hlen.
    cbn [zip_with fmap list_fmap] in E1, E2.
    pose proof Hst as (Hh & Hla & Hd & Hsum).
    destruct (table_bracket t 0 (2 ^ prec) c Hh Hla Hc)
      as (i & a & b & Hi & Hj & Hab).
    rewrite (searchsorted_bucket t i a b c (diff_pos_sorted t Hd) Hi Hj Hab)
      in E1, E2.
    rewrite cdf_from_buckets_cons in E1, E2
      by (rewrite ?length_fmap, length_zip_with; lia).
    rewrite (np_getitem_nat t i a Hi) in E1.
    rewrite <- Nat2Z.inj_succ, (np_getitem_nat t (S i) b Hj) in E2.
    rewrite bind_Ok in E1, E2.
    destruct (_cdf_from_cumulative_buckets tables (zip_with _ tables cf))
      as [starts'| |] eqn:F1; simpl in E1; try done.
    destruct (_cdf_from_cumulative_buckets tables (Z.succ <$> _))
      as [uppers'| |] eqn:F2; simpl in E2; try done.
    injection E1 as <-. injection E2 as <-. cbn [zip_with].
    pose proof (table_bounds prec t _ a Hst Hi).
    pose proof (table_bounds prec t _ b Hst Hj).
    assert (2 ^ prec < 2 ^ 64) by (apply Z.pow_lt_mono_r; lia).
    constructor; [rewrite uint64_small; lia|].
    apply IH; [done|lia|done..].
Qed.

Section Categorical_facts.
Context {tail : Type} {V : Vrans tail} {L : VransLaws tail}.

Lemma categorical_statfuns prec tables scaled :
  0 <= prec <= 31 ->
  Forall2 (fun t row => length t = S (length row) /\ stat_table prec t)
    tables scaled ->
  statfuns_return (length scaled)
    (_cdf_to_enc_statfun (_cdf_from_cumulative_buckets tables))
    (_ppf_from_cumulative_buckets tables) (scalar prec) (categorical_dom scaled).
Proof.
  intros Hp Ht s Hs.
  destruct (categorical_lanes prec tables scaled s Hp Ht Hs)
    as (starts & uppers & E1 & E2 & L1 & L2 & Hi & Hdec).
  pose proof (Forall2_length _ _ _ Ht) as Hlt.
  pose proof (Forall2_length _ _ _ Hs) as Hls.
  exists (array starts), (array (zip_with (fun u l => uint64 (u - l)) uppers starts)).
  unfold _cdf_to_enc_statfun. rewrite E1, E2. split; [done|]. split.
  - unfold intervals_ok. simpl. rewrite length_zip_with, <- Hlt.
    repeat split; [lia..|done].
  - intros cf Hcf. unfold in_intervals in Hcf. simpl in Hcf.
    unfold _ppf_from_cumulative_buckets. rewrite (Hdec cf Hcf).
    rewrite bool_decide_eq_true_2 by lia. done.
Qed.

(** X1.  A [Categorical] codec at a precision of at most 31 bits, built
    from rows of non-negative scaled probabilities, codes every vector of
    bucket indices (one per row, each inside its row): [push] returns a
    well-formed message and [pop] of it returns the message and the
    symbols pushed. *)
Theorem Categorical_roundtrip (scaled : list (list Z)) (prec : Z)
    (c : codec (Message tail) (list Z)) :
  0 <= prec <= 31 -> Forall scaled_row scaled ->
  Categorical scaled prec = Ok c ->
  roundtrip (wf_message (length scaled)) (categorical_dom scaled) c.
Proof.
  intros Hp Hrows Hc. unfold Categorical in Hc.
  destruct (_cumulative_buckets_from_probs_rows scaled prec) as [tables| |]
    eqn:Htab; simpl in Hc; try done.
  injection Hc as <-.
  apply roundtrip_NonUniform_raising, categorical_statfuns; [done|].
  eapply cumulative_buckets_tables; [|done..]. lia.
Qed.

(** X2.  Decoding with a [Categorical] codec never trips the assertion
    and never leaves the table: whenever [pop] returns on a well-formed
    message, every decoded symbol is the index of a bucket of its row,
    and pushing the symbols back gives the message popped from. *)
Theorem Categorical_pop_push (scaled : list (list Z)) (prec : Z)
    (c : codec (Message tail) (list Z)) :
  0 <= prec <= 31 -> Forall scaled_row scaled ->
  Categorical scaled prec = Ok c ->
  pop_push (wf_message (length scaled)) (categorical_dom scaled) c
  /\ forall m, wf_message (length scaled) m ->
       (exists m' s, c.2 m = Ok (m', s)) \/ c.2 m = Raise StackExhausted.
Proof.
  intros Hp Hrows Hc. unfold Categorical in Hc.
  destruct (_cumulative_buckets_from_probs_rows scaled prec) as [tables| |]
    eqn:Htab; simpl in Hc; try done.
  injection Hc as <-.
  assert (Forall2 (fun t row => length t = S (length row) /\ stat_table prec t)
            tables scaled) as Ht.
  { eapply cumulative_buckets_tables; [|done..]. lia. }
  pose proof (categorical_statfuns prec tables scaled Hp Ht) as Hstat.
  assert (Forall (fun p => 0 <= p <= 31) (lanes (length scaled) (scalar prec)))
    as Hps by (simpl; by apply Forall_replicate).
  split.
  - apply pop_push_NonUniform_raising; [done|done|].
    intros cf s start freq Hcf Hdec Henc Hin.
    apply Forall2_replicate_inv in Hcf as [Hlen Hcf].
    pose proof (ppf_in_dom prec tables scaled cf s Ht Hcf Hdec) as Hdom.
    split; [done|].
    destruct (Hstat s Hdom) as (start' & freq' & Henc' & Hi & _).
    rewrite Henc in Henc'. by injection Henc' as <- <-.
  - intros m Hm. cbn [snd NonUniform_raising].
    destruct (vrans_pop m (scalar prec)) as [cf finish] eqn:Hvp.
    destruct (pop_then_push _ m (scalar prec) cf finish Hm I Hps Hvp)
      as [Hcf _].
    apply Forall2_replicate_inv in Hcf as [Hlen Hcf].
    pose proof (Forall2_length _ _ _ Ht) as Hlt.
    destruct (_ppf_from_cumulative_buckets tables cf) as [s| |] eqn:Hdec;
      [|unfold _ppf_from_cumulative_buckets in Hdec;
        rewrite bool_decide_eq_true_2 in Hdec
          by (rewrite length_zip_with; lia); done..].
    pose proof (ppf_in_dom prec tables scaled cf s Ht Hcf Hdec) as Hdom.
    destruct (Hstat s Hdom) as (start & freq & Henc & Hi & _).
    rewrite bind_Ok, Henc, bind_Ok.
    assert (in_intervals (length scaled) start freq cf) as Hin.
    { unfold _ppf_from_cumulative_buckets in Hdec.
      case_bool_decide; [|done]. injection Hdec as <-.
      unfold _cdf_to_enc_statfun in Henc.
      destruct (_cdf_from_cumulative_buckets tables (zip_with _ tables cf))
        as [starts| |] eqn:F1; simpl in Henc; try done.
      destruct (_cdf_from_cumulative_buckets tables (Z.succ <$> _))
        as [uppers| |] eqn:F2; simpl in Henc; try done.
      injection Henc as <- <-. unfold in_intervals. simpl.
      eapply ppf_lanes; [done|done|done|lia|done..]. }
    rewrite (in_intervals_checks _ _ _ _ _ Hi Hin).
    destruct (finish start freq) as [m'|]; [left; by eexists _, _|by right].
Qed.

End Categorical_facts.

Lemma Categorical_roundtrip_witness :
  let scaled := [[100; 0; 100; 56]; [1; 1; 1; 253]] in
  let tables := [[0; 99; 100; 200; 256]; [0; 1; 2; 3; 256]] in
  roundtrip (wf_message 2) (categorical_dom scaled)
    (NonUniform_raising (tail := list Z)
       (_cdf_to_enc_statfun (_cdf_from_cumulative_buckets tables))
       (_ppf_from_cumulative_buckets tables) (scalar 8)).
Proof.
  apply (Categorical_roundtrip (L := reference_laws)
           [[100; 0; 100; 56]; [1; 1; 1; 253]] 8).
  - lia.
  - repeat constructor; vm_compute; congruence.
  - reflexivity.
Defined.

Lemma Categorical_pop_push_witness :
  let scaled := [[100; 0; 100; 56]; [1; 1; 1; 253]] in
  let tables := [[0; 99; 100; 200; 256]; [0; 1; 2; 3; 256]] in
  let c := NonUniform_raising (tail := list Z)
             (_cdf_to_enc_statfun (_cdf_from_cumulative_buckets tables))
             (_ppf_from_cumulative_buckets tables) (scalar 8) in
  pop_push (wf_message 2) (categorical_dom scaled) c
  /\ forall m, wf_message 2 m ->
       (exists m' s, c.2 m = Ok (m', s)) \/ c.2 m = Raise StackExhausted.
Proof.
  apply (Categorical_pop_push (L := reference_laws)
           [[100; 0; 100; 56]; [1; 1; 1; 253]] 8).
  - lia.
  - repeat constructor; vm_compute; congruence.
  - reflexivity.
Defined.

(** Two lanes coded with their tables on the reference primitive. *)
Example Categorical_scenario :
  let m : Message (list Z) := ([2 ^ 31 + 5; 2 ^ 40 + 3], [7]) in
  (Categorical [[100; 0; 100; 56]; [1; 1; 1; 253]] 8 ≫= fun c =>
   c.1 m [1; 3] ≫= c.2) = Ok (m, [1; 3])
  /\ (Categorical [[100; 0; 100; 56]; [1; 1; 1; 253]] 8 ≫= fun c => c.2 m)
     = Ok (([3566850926352269319; 1086626725888], []), [0; 3]).
Proof. split; vm_compute; reflexivity. Qed.

(** *** Symbols outside the table *)

Lemma np_cumsum_int64_length acc l : length (np_cumsum_int64 acc l) = length l.
Proof. revert acc. induction l as [|x l IH]; intros acc; simpl; [done|]. by rewrite IH. Qed.

Lemma cumulative_buckets_length scaled precision t :
  _cumulative_buckets_from_probs scaled precision = Ok t ->
  length t = S (length scaled).
Proof.
  unfold _cumulative_buckets_from_probs.
  destruct (np_argmax _) as [i|]; simpl; [|done].
  destruct (_ <=? 0); [done|]. intros [= <-].
  cbn [length]. f_equal.
  change (list_fmap Z Z ?f ?l) with (f <$> l).
  by rewrite length_fmap, np_cumsum_int64_length, length_insert, length_fmap.
Qed.

Lemma cumulative_buckets_lengths scaled precision tables :
  _cumulative_buckets_from_probs_rows scaled precision = Ok tables ->
  Forall2 (fun t row => length t = S (length row)) tables scaled.
Proof.
  unfold _cumulative_buckets_from_probs_rows. revert tables.
  induction scaled as [|row rows IH]; intros tables Hrun.
  - injection Hrun as <-. constructor.
  - cbn [mapM] in Hrun.
    destruct (_cumulative_buckets_from_probs row precision) as [t| |] eqn:Hrow;
      simpl in Hrun; try done.
    destruct (mapM _ rows) as [ts| |] eqn:Hrest; simpl in Hrun; try done.
    injection Hrun as <-.
    constructor; [by eapply cumulative_buckets_length|by apply IH].
Qed.

Lemma np_getitem_outcome t x :
  (- Z.of_nat (length t) <= x < Z.of_nat (length t)
   /\ exists v, np_getitem t x = Ok v)
  \/ (~ - Z.of_nat (length t) <= x < Z.of_nat (length t)
      /\ np_getitem t x = Raise IndexError).
Proof.
  unfold np_getitem.
  destruct (Z.leb_spec 0 x); destruct (Z.ltb_spec x (Z.of_nat (length t)));
    destruct (Z.leb_spec (- Z.of_nat (length t)) x); destruct (Z.ltb_spec x 0);
    simpl; try lia; try (right; split; [lia|done]); left; (split; [lia|]).
  - destruct (lookup_lt_is_Some_2 t (Z.to_nat x)) as [v ->]; [lia|]. by eexists.
  - destruct (lookup_lt_is_Some_2 t (Z.to_nat (Z.of_nat (length t) + x)))
      as [v ->]; [lia|]. by eexists.
Qed.

Lemma cdf_from_buckets_outcome tables s :
  length tables = length s ->
  (Forall2 (fun t x => - Z.of_nat (length t) <= x < Z.of_nat (length t)) tables s
   /\ exists vals, _cdf_from_cumulative_buckets tables s = Ok vals)
  \/ (~ Forall2 (fun t x => - Z.of_nat (length t) <= x < Z.of_nat (length t))
          tables s
      /\ _cdf_from_cumulative_buckets tables s = Raise IndexError).
Proof.
  revert s. induction tables as [|t tables IH]; intros [|x s] Hlen; try done.
  - left. split; [constructor|by eexists].
  - injection Hlen as Hlen. rewrite cdf_from_buckets_cons by done.
    destruct (np_getitem_outcome t x) as [[Hx [v ->]]|[Hx ->]].
    + destruct (IH s Hlen) as [[Hs [vals ->]]|[Hs ->]].
      * left. split; [by constructor|by eexists].
      * right. split; [|done]. intros H. by apply Forall2_cons_1 in H as [_ H].
    + right. split; [|done]. intros H. by apply Forall2_cons_1 in H as [H _].
Qed.

Section Categorical_errors.
Context {tail : Type} {V : Vrans tail}.

(** X3.  With one symbol per row, [push] of a [Categorical] codec raises
    [IndexError] exactly when some symbol [x] of a row of [n] buckets
    lies outside [-(n+1) <= x < n]; it returns for every other vector of
    symbols, the negative ones indexing the table from its end. *)
Theorem Categorical_symbol_bounds (scaled : list (list Z)) (prec : Z)
    (c : codec (Message tail) (list Z)) (m : Message tail) (s : list Z) :
  Categorical scaled prec = Ok c -> length s = length scaled ->
  (Forall2 (fun x row => - Z.of_nat (length row) - 1 <= x < Z.of_nat (length row))
     s scaled ->
   exists m', c.1 m s = Ok m')
  /\ (~ Forall2 (fun x row => - Z.of_nat (length row) - 1 <= x < Z.of_nat (length row))
          s scaled ->
      c.1 m s = Raise IndexError).
Proof.
  intros Hc Hlen. unfold Categorical in Hc.
  destruct (_cumulative_buckets_from_probs_rows scaled prec) as [tables| |]
    eqn:Htab; simpl in Hc; try done.
  injection Hc as <-.
  pose proof (cumulative_buckets_lengths _ _ _ Htab) as Ht.
  pose proof (Forall2_length _ _ _ Ht) as Hlt.
  set (P := fun (t : list Z) x => - Z.of_nat (length t) <= x < Z.of_nat (length t)).
  assert (Forall2 (fun x row => - Z.of_nat (length row) - 1 <= x < Z.of_nat (length row))
            s scaled
          <-> Forall2 P tables s /\ Forall2 P tables (Z.succ <$> s)) as Hiff.
  { rewrite !Forall2_same_length_lookup, length_fmap. split.
    - intros [_ Hin]. split; (split; [lia|]); intros i t y Hi Hy.
      + destruct (lookup_lt_is_Some_2 scaled i) as [row Hrow].
        { apply lookup_lt_Some in Hi. lia. }
        specialize (Hin i y row Hy Hrow).
        pose proof (Forall2_lookup_lr _ _ _ _ _ _ Ht Hi Hrow) as Hl.
        unfold P. simpl in *. lia.
      + rewrite list_lookup_fmap in Hy.
        destruct (s !! i) as [x|] eqn:Hx; [|done]. injection Hy as <-.
        destruct (lookup_lt_is_Some_2 scaled i) as [row Hrow].
        { apply lookup_lt_Some in Hi. lia. }
        specialize (Hin i x row Hx Hrow).
        pose proof (Forall2_lookup_lr _ _ _ _ _ _ Ht Hi Hrow) as Hl.
        unfold P. simpl in *. lia.
    - intros [[_ HA] [_ HB]]. split; [done|]. intros i x row Hx Hrow.
      destruct (lookup_lt_is_Some_2 tables i) as [t Hi].
      { apply lookup_lt_Some in Hrow. lia. }
      pose proof (Forall2_lookup_lr _ _ _ _ _ _ Ht Hi Hrow) as Hl.
      specialize (HA i t x Hi Hx).
      specialize (HB i t (Z.succ x) Hi). rewrite list_lookup_fmap, Hx in HB.
      specialize (HB eq_refl). unfold P in *. simpl in *. lia. }
  cbn [fst NonUniform_raising]. unfold _cdf_to_enc_statfun.
  destruct (cdf_from_buckets_outcome tables s ltac:(lia)) as [[HA [lo ->]]|[HA ->]];
    [|split; [intros Hin; apply Hiff in Hin as [? _]; done|done]].
  destruct (cdf_from_buckets_outcome tables (Z.succ <$> s)
              ltac:(rewrite length_fmap; lia)) as [[HB [up ->]]|[HB ->]].
  - split; [by eexists|]. intros Hn. destruct Hn. by apply Hiff.
  - split; [intros Hin; apply Hiff in Hin as [_ ?]; done|done].
Qed.

End Categorical_errors.

Lemma Categorical_symbol_bounds_witness :
  let scaled := [[100; 0; 100; 56]; [1; 1; 1; 253]] in
  let tables := [[0; 99; 100; 200; 256]; [0; 1; 2; 3; 256]] in
  let c := NonUniform_raising (tail := list Z)
             (_cdf_to_enc_statfun (_cdf_from_cumulative_buckets tables))
             (_ppf_from_cumulative_buckets tables) (scalar 8) in
  let m : Message (list Z) := ([2 ^ 31 + 5; 2 ^ 40 + 3], [7]) in
  (Forall2 (fun x row => - Z.of_nat (length row) - 1 <= x < Z.of_nat (length row))
     [3; 4] scaled ->
   exists m', c.1 m [3; 4] = Ok m')
  /\ (~ Forall2 (fun x row => - Z.of_nat (length row) - 1 <= x < Z.of_nat (length row))
          [3; 4] scaled ->
      c.1 m [3; 4] = Raise IndexError).
Proof.
  apply (Categorical_symbol_bounds [[100; 0; 100; 56]; [1; 1; 1; 253]] 8);
    reflexivity.
Defined.

(** The symbol one past the last bucket is refused, the symbol -1 is
    coded with the interval between the last and the first entry of the
    table. *)
Example Categorical_symbol_scenario :
  let m : Message (list Z) := ([2 ^ 31 + 5; 2 ^ 40 + 3], [7]) in
  (Categorical [[100; 0; 100; 56]; [1; 1; 1; 253]] 8 ≫= fun c => c.1 m [3; 4])
  = Raise IndexError
  /\ _cdf_to_enc_statfun
       (_cdf_from_cumulative_buckets [[0; 99; 100; 200; 256]; [0; 1; 2; 3; 256]])
       [-1; 0]
     = Ok (array [256; 0], array [2 ^ 64 - 256; 1]).
Proof. split; vm_compute; reflexivity. Qed.

(** ** Rebalancing in [_cumulative_buckets_from_probs] *)

Lemma np_argmax_from_max l :
  forall bi b i,
    (np_argmax_from bi b i l = bi /\ Forall (fun x => x <= b) l)
    \/ (exists k m, np_argmax_from bi b i l = (i + k)%nat /\ l !! k = Some m
                    /\ b < m /\ Forall (fun x => x <= m) l
                    /\ Forall (fun x => x < m) (take k l)).
Proof.
  induction l as [|x l IH]; intros bi b i; simpl.
  - left. done.
  - destruct (Z.ltb_spec b x) as [Hlt|Hge].
    + right. destruct (IH i x (S i)) as [[-> Hall]|(k & m & -> & Hk & Hm & Hall & Hpre)].
      * exists 0%nat, x. split; [lia|]. split; [done|]. split; [done|].
        split; [constructor; [lia|done]|constructor].
      * exists (S k), m. split; [lia|]. split; [done|]. split; [lia|].
        split; simpl; (constructor; [lia|done]).
    + destruct (IH bi b (S i)) as [[-> Hall]|(k & m & -> & Hk & Hm & Hall & Hpre)].
      * left. split; [done|]. by constructor.
      * right. exists (S k), m. split; [lia|]. split; [done|]. split; [done|].
        split; simpl; (constructor; [lia|done]).
Qed.

(** [np.argmax] returns the first index that holds the largest entry. *)
Lemma np_argmax_spec l i :
  np_argmax l = Some i ->
  exists m, l !! i = Some m /\ Forall (fun x => x <= m) l
            /\ Forall (fun x => x < m) (take i l).
Proof.
  destruct l as [|x l]; [done|]. simpl. intros [= <-].
  destruct (np_argmax_from_max l 0 x 1)
    as [[-> Hall]|(k & m & -> & Hk & Hm & Hall & Hpre)].
  - exists x. split; [done|]. split; [constructor; [lia|done]|constructor].
  - exists m. simpl. split; [done|]. split; (constructor; [lia|done]).
Qed.

Lemma Zsum_rest_le l i m :
  Forall (fun x => 1 <= x) l -> l !! i = Some m ->
  m + Z.of_nat (length l) - 1 <= Zsum l.
Proof.
  intros Hl. revert i. induction Hl as [|x l Hx Hl IH]; intros [|i] Hi;
    simpl in Hi; [done|done| |].
  - injection Hi as ->. rewrite Zsum_cons. cbn [length].
    assert (Z.of_nat (length l) <= Zsum l); [|lia].
    clear -Hl. induction Hl; [simpl; lia|]. rewrite Zsum_cons. cbn [length]. lia.
  - specialize (IH i Hi). rewrite Zsum_cons. cbn [length]. lia.
Qed.

(** The outcome of one row, with the arithmetic of numpy taken exactly:
    under the bounds nothing wraps and nothing is rounded. *)
Lemma cumulative_buckets_outcome scaled precision :
  0 <= precision <= 53 -> scaled_row scaled ->
  let probs := (fun x => if x =? 0 then 1 else x) <$> scaled in
  _cumulative_buckets_from_probs scaled precision =
  match np_argmax probs with
  | None => Raise ValueError
  | Some i =>
      let m := default 0 (probs !! i) in
      if m + (2 ^ precision - Zsum probs) <=? 0 then Raise AssertionError
      else Ok (0 :: prefix_sums 0 (<[i := m + (2 ^ precision - Zsum probs)]> probs))
  end.
Proof.
  intros Hp [Hnn Hsum]. cbv zeta. unfold _cumulative_buckets_from_probs.
  set (probs := (fun x => if x =? 0 then 1 else x) <$> scaled).
  assert (Forall (fun x => 1 <= x) probs) as Hpos.
  { unfold probs. apply Forall_fmap. eapply list.Forall_impl; [exact Hnn|].
    simpl. intros x Hx. destruct (Z.eqb_spec x 0); lia. }
  assert (Zsum probs <= Zsum scaled + Z.of_nat (length scaled)) as Hle.
  { unfold probs. clear. induction scaled as [|x l IH]; [simpl; lia|].
    rewrite fmap_cons, !Zsum_cons. cbn [length]. rewrite Nat2Z.inj_succ.
    destruct (Z.eqb_spec x 0); lia. }
  assert (Forall (fun x => 0 <= x) probs) as Hnn'
    by (by apply Forall_pos_nonneg).
  destruct (np_argmax probs) as [i|] eqn:Harg; simpl; [|done].
  apply np_argmax_lt in Harg.
  destruct (lookup_lt_is_Some_2 probs i Harg) as [m Hm].
  rewrite Hm. simpl.
  pose proof (Zsum_lookup_le _ _ _ Hnn' Hm) as Hmle.
  assert (1 <= m) as Hm1.
  { eapply (Forall_lookup_1 _ probs); done. }
  assert (0 < 2 ^ precision <= 2 ^ 53) as Hpow.
  { split; [apply Z.pow_pos_nonneg; lia|apply Z.pow_le_mono_r; lia]. }
  rewrite Z.shiftl_1_l.
  rewrite np_sum_int64_exact by (done || lia).
  rewrite (int64_small (2 ^ precision - Zsum probs)) by lia.
  rewrite (int64_small (m + _)) by lia.
  destruct (Z.leb_spec (m + (2 ^ precision - Zsum probs)) 0) as [|Hlow]; [done|].
  set (q := <[i:=m + (2 ^ precision - Zsum probs)]> probs).
  assert (Forall (fun x => 1 <= x) q) as Hq.
  { unfold q. apply Forall_insert; [done|lia]. }
  assert (Zsum q = 2 ^ precision) as Hqs.
  { unfold q. rewrite (Zsum_insert _ _ m) by done. lia. }
  assert (Forall (fun x => 0 <= x) q) as Hq0
    by (by apply Forall_pos_nonneg).
  rewrite np_cumsum_int64_exact by (done || lia).
  pose proof (prefix_sums_bounds 0 q Hq) as Hb. rewrite Hqs in Hb.
  assert ((fun c => uint64_of_float64 (float64_of_int c)) <$> (0 :: prefix_sums 0 q)
          = 0 :: prefix_sums 0 q) as Heq.
  { rewrite <- (list_fmap_id (0 :: prefix_sums 0 q)) at 2.
    apply Forall_fmap_ext_1. constructor.
    - reflexivity.
    - eapply list.Forall_impl; [exact Hb|]. simpl. intros c Hc.
      unfold id. apply table_entry_exact. lia. }
  simpl in Heq. by rewrite Heq.
Qed.

(** X4.  For a non-empty row of non-negative scaled probabilities and a
    precision of at most 53 bits, [_cumulative_buckets_from_probs] either
    returns a table or fails its assertion; it fails exactly when the
    buckets other than the largest, each at least 1 wide, already need
    [2 ** precision] or more, which is always so for a row of more than
    [2 ** precision] entries. *)
Theorem cumulative_buckets_assertion (scaled : list Z) (precision : Z) :
  0 <= precision <= 53 -> scaled_row scaled -> scaled <> [] ->
  let probs := (fun x => if x =? 0 then 1 else x) <$> scaled in
  exists i m,
    np_argmax probs = Some i /\ probs !! i = Some m
    /\ Forall (fun x => x <= m) probs
    /\ (_cumulative_buckets_from_probs scaled precision = Raise AssertionError
        <-> 2 ^ precision <= Zsum probs - m)
    /\ (Zsum probs - m < 2 ^ precision ->
        exists t, _cumulative_buckets_from_probs scaled precision = Ok t)
    /\ (2 ^ precision < Z.of_nat (length scaled) ->
        _cumulative_buckets_from_probs scaled precision = Raise AssertionError).
Proof.
  intros Hp Hrow Hne. cbv zeta.
  rewrite (cumulative_buckets_outcome scaled precision Hp Hrow). cbv zeta.
  set (probs := (fun x => if x =? 0 then 1 else x) <$> scaled).
  destruct (np_argmax probs) as [i|] eqn:Harg.
  2: { destruct scaled; [done|]. done. }
  destruct (np_argmax_spec probs i Harg) as (m & Hm & Hmax & _).
  exists i, m. rewrite Hm. simpl.
  assert (Forall (fun x => 1 <= x) probs) as Hpos.
  { unfold probs. apply Forall_fmap. destruct Hrow as [Hnn _].
    eapply list.Forall_impl; [exact Hnn|].
    simpl. intros x Hx. destruct (Z.eqb_spec x 0); lia. }
  pose proof (Zsum_rest_le probs i m Hpos Hm) as Hrest.
  assert (length probs = length scaled) as Hlen by apply length_fmap.
  repeat split; try done.
  - destruct (Z.leb_spec (m + (2 ^ precision - Zsum probs)) 0); [lia|done].
  - intros H. destruct (Z.leb_spec (m + (2 ^ precision - Zsum probs)) 0); [done|lia].
  - intros H. destruct (Z.leb_spec (m + (2 ^ precision - Zsum probs)) 0); [lia|].
    by eexists.
  - intros H. destruct (Z.leb_spec (m + (2 ^ precision - Zsum probs)) 0); [done|lia].
Qed.

Lemma cumulative_buckets_assertion_witness :
  let scaled := [1; 0; 3; 0; 2] in
  let probs := (fun x => if x =? 0 then 1 else x) <$> scaled in
  exists i m,
    np_argmax probs = Some i /\ probs !! i = Some m
    /\ Forall (fun x => x <= m) probs
    /\ (_cumulative_buckets_from_probs scaled 2 = Raise AssertionError
        <-> 2 ^ 2 <= Zsum probs - m)
    /\ (Zsum probs - m < 2 ^ 2 ->
        exists t, _cumulative_buckets_from_probs scaled 2 = Ok t)
    /\ (2 ^ 2 < Z.of_nat (length scaled) ->
        _cumulative_buckets_from_probs scaled 2 = Raise AssertionError).
Proof.
  apply (cumulative_buckets_assertion [1; 0; 3; 0; 2] 2).
  - lia.
  - split; [repeat constructor; lia|vm_compute; congruence].
  - done.
Defined.

(** X5.  When [_cumulative_buckets_from_probs] returns, every bucket has
    the width of its scaled probability, a zero counting as 1, except
    the first of the largest buckets, which takes what is left of
    [2 ** precision]; scaled probabilities without a zero that add up to
    [2 ** precision] are the widths as they are. *)
Theorem cumulative_buckets_widths (scaled : list Z) (precision : Z) (t : list Z) :
  0 <= precision <= 53 -> scaled_row scaled ->
  _cumulative_buckets_from_probs scaled precision = Ok t ->
  let probs := (fun x => if x =? 0 then 1 else x) <$> scaled in
  (exists i m,
     probs !! i = Some m
     /\ Forall (fun x => x <= m) probs
     /\ Forall (fun x => x < m) (take i probs)
     /\ 0 < m + (2 ^ precision - Zsum probs)
     /\ np_diff t = <[i := m + (2 ^ precision - Zsum probs)]> probs)
  /\ (Forall (fun x => 1 <= x) scaled -> Zsum scaled = 2 ^ precision ->
      np_diff t = scaled).
Proof.
  intros Hp Hrow. cbv zeta.
  rewrite (cumulative_buckets_outcome scaled precision Hp Hrow). cbv zeta.
  set (probs := (fun x => if x =? 0 then 1 else x) <$> scaled).
  destruct (np_argmax probs) as [i|] eqn:Harg; [|done].
  destruct (np_argmax_spec probs i Harg) as (m & Hm & Hmax & Hfirst).
  rewrite Hm. simpl.
  destruct (Z.leb_spec (m + (2 ^ precision - Zsum probs)) 0); [done|].
  intros [= <-]. split.
  - exists i, m. repeat split; try done. apply prefix_sums_diff.
  - intros Hpos Hsum. rewrite prefix_sums_diff.
    assert (probs = scaled) as Heq.
    { unfold probs. rewrite <- (list_fmap_id scaled) at 2.
      apply Forall_fmap_ext_1. eapply list.Forall_impl; [exact Hpos|].
      intros x Hx. simpl in *. destruct (Z.eqb_spec x 0); [lia|done]. }
    rewrite Heq in *. rewrite Hsum.
    replace (m + (2 ^ precision - 2 ^ precision)) with m by lia.
    by apply list_insert_id.
Qed.

Lemma cumulative_buckets_widths_witness :
  let scaled := [100; 0; 100; 56; 0] in
  let probs := (fun x => if x =? 0 then 1 else x) <$> scaled in
  (exists i m,
     probs !! i = Some m
     /\ Forall (fun x => x <= m) probs
     /\ Forall (fun x => x < m) (take i probs)
     /\ 0 < m + (2 ^ 8 - Zsum probs)
     /\ np_diff [0; 98; 99; 199; 255; 256]
        = <[i := m + (2 ^ 8 - Zsum probs)]> probs)
  /\ (Forall (fun x => 1 <= x) scaled -> Zsum scaled = 2 ^ 8 ->
      np_diff [0; 98; 99; 199; 255; 256] = scaled).
Proof.
  apply (cumulative_buckets_widths [100; 0; 100; 56; 0] 8).
  - lia.
  - split; [repeat constructor; lia|vm_compute; congruence].
  - reflexivity.
Defined.

(** ** [Bernoulli] *)

Lemma ensure_nonzero_fmap p precision :
  _ensure_nonzero_freq_bernoulli p precision
  = (fun x => let y := if x =? 0 then uint64 (x + 1) else x in
              if y =? 1 ≪ precision then uint64 (y - 1) else y) <$> p.
Proof.
  unfold _ensure_nonzero_freq_bernoulli. by rewrite <- list_fmap_compose.
Qed.

Lemma ensure_nonzero_length p precision :
  length (_ensure_nonzero_freq_bernoulli p precision) = length p.
Proof. by rewrite ensure_nonzero_fmap, length_fmap. Qed.

Lemma pow2_ge_2 p : 1 <= p -> 2 <= 2 ^ p.
Proof. intros Hp. change 2 with (2 ^ 1) at 1. apply Z.pow_le_mono_r; lia. Qed.

Lemma ensure_nonzero_inside p precision :
  1 <= precision <= 63 -> Forall (fun x => 0 <= x <= 2 ^ precision) p ->
  Forall (fun y => 1 <= y <= 2 ^ precision - 1)
    (_ensure_nonzero_freq_bernoulli p precision).
Proof.
  intros Hp Hall. rewrite ensure_nonzero_fmap. apply Forall_fmap.
  eapply list.Forall_impl; [exact Hall|]. intros x Hx. simpl in *.
  pose proof (pow2_ge_2 precision ltac:(lia)) as H2.
  assert (2 ^ precision < 2 ^ 64) by (apply Z.pow_lt_mono_r; lia).
  rewrite Z.shiftl_1_l.
  destruct (Z.eqb_spec x 0) as [->|Hx0].
  - change (uint64 (0 + 1)) with 1. destruct (Z.eqb_spec 1 (2 ^ precision)); lia.
  - destruct (Z.eqb_spec x (2 ^ precision)) as [->|]; [|lia].
    rewrite uint64_small; lia.
Qed.

(** X6.  [_ensure_nonzero_freq_bernoulli] on entries between 0 and
    [2 ** precision]: for a precision of at least 1 it moves 0 to 1 and
    [2 ** precision] to [2 ** precision - 1] and leaves every other entry
    as it is, so that the result lies strictly between the two ends; at
    precision 0 it returns 0 for both possible entries. *)
Theorem ensure_nonzero_freq_bernoulli_range (p : list Z) (precision : Z) :
  0 <= precision <= 63 -> Forall (fun x => 0 <= x <= 2 ^ precision) p ->
  Forall2 (fun x y =>
             (1 <= precision ->
              1 <= y <= 2 ^ precision - 1
              /\ (x = 0 -> y = 1) /\ (x = 2 ^ precision -> y = 2 ^ precision - 1)
              /\ (1 <= x <= 2 ^ precision - 1 -> y = x))
             /\ (precision = 0 -> y = 0))
    p (_ensure_nonzero_freq_bernoulli p precision).
Proof.
  intros Hp Hall. rewrite ensure_nonzero_fmap. apply Forall2_fmap_r.
  apply Forall_Forall2_diag.
  eapply list.Forall_impl; [exact Hall|]. intros x Hx. simpl in *.
  rewrite Z.shiftl_1_l.
  assert (2 ^ precision < 2 ^ 64) by (apply Z.pow_lt_mono_r; lia).
  split.
  - intros H1. pose proof (pow2_ge_2 precision H1) as H2.
    destruct (Z.eqb_spec x 0) as [->|Hx0].
    + change (uint64 (0 + 1)) with 1.
      destruct (Z.eqb_spec 1 (2 ^ precision)); lia.
    + destruct (Z.eqb_spec x (2 ^ precision)) as [->|].
      * rewrite uint64_small; lia.
      * lia.
  - intros ->. change (2 ^ 0) with 1 in *.
    destruct (Z.eqb_spec x 0) as [->|Hx0]; [reflexivity|].
    assert (x = 1) as -> by lia. reflexivity.
Qed.

Lemma ensure_nonzero_freq_bernoulli_range_witness :
  Forall2 (fun x y =>
             (1 <= 8 ->
              1 <= y <= 2 ^ 8 - 1
              /\ (x = 0 -> y = 1) /\ (x = 2 ^ 8 -> y = 2 ^ 8 - 1)
              /\ (1 <= x <= 2 ^ 8 - 1 -> y = x))
             /\ (8 = 0 -> y = 0))
    [0; 256; 77] (_ensure_nonzero_freq_bernoulli [0; 256; 77] 8).
Proof.
  apply (ensure_nonzero_freq_bernoulli_range [0; 256; 77] 8).
  - lia.
  - repeat constructor; lia.
Defined.

Lemma np_gt_half_small c o :
  0 <= c < 2 ^ 31 -> 0 <= o <= 2 ^ 31 -> np_gt_half c o = (o <=? c).
Proof.
  intros Hc Ho. unfold np_gt_half.
  rewrite !float64_of_int_small by lia.
  destruct (Z.ltb_spec c (2 ^ 52)); [done|lia].
Qed.

Lemma bernoulli_lanes prec onemp :
  1 <= prec <= 31 -> Forall (fun y => 1 <= y <= 2 ^ prec - 1) onemp ->
  forall s, length s = length onemp -> Forall (fun x => x = 0 \/ x = 1) s ->
  let g := fun si o => if si =? 2 then 1 ≪ prec else if si =? 1 then o else 0 in
  Forall3 interval_ok (zip_with g s onemp)
    (zip_with (fun u l => uint64 (u - l)) (zip_with g (Z.succ <$> s) onemp)
       (zip_with g s onemp))
    (replicate (length onemp) prec)
  /\ forall cf,
       Forall3 (fun a f c => a <= c < a + f) (zip_with g s onemp)
         (zip_with (fun u l => uint64 (u - l)) (zip_with g (Z.succ <$> s) onemp)
            (zip_with g s onemp)) cf ->
       zip_with (fun c o => if np_gt_half c o then 1 else 0) cf onemp = s.
Proof.
  intros Hp Ho. cbv zeta.
  assert (2 ^ prec <= 2 ^ 31) as Hpow by (apply Z.pow_le_mono_r; lia).
  pose proof (pow2_ge_2 prec ltac:(lia)) as H2.
  induction Ho as [|o onemp Hy Ho IH]; intros s Hlen Hs.
  - destruct s; [|done]. split; [constructor|]. intros cf Hcf. by inversion Hcf.
  - destruct s as [|x s]; [done|]. injection Hlen as Hlen.
    apply Forall_cons in Hs as [Hx Hs].
    destruct (IH s Hlen Hs) as [Hi Hdec].
    rewrite fmap_cons. cbn [zip_with length replicate].
    assert (forall c, 0 <= c < 2 ^ prec -> np_gt_half c o = (o <=? c)) as Hgt.
    { intros c Hc. apply np_gt_half_small; lia. }
    split.
    + constructor; [|done]. unfold interval_ok.
      destruct Hx as [-> | ->]; simpl; rewrite ?Z.shiftl_1_l, uint64_small; lia.
    + intros cf Hcf. inversion Hcf as [|? ? c ? ? cf' Hc Hcf']; subst.
      cbn [zip_with]. rewrite (Hdec cf' Hcf'). f_equal.
      destruct Hx as [-> | ->]; simpl in Hc;
        rewrite ?Z.shiftl_1_l, uint64_small in Hc by lia.
      * rewrite Hgt by lia. destruct (Z.leb_spec o c); [lia|done].
      * rewrite Hgt by lia. destruct (Z.leb_spec o c); [done|lia].
Qed.

Section Bernoulli_facts.
Context {tail : Type} {V : Vrans tail} {L : VransLaws tail}.

(** X7.  A [Bernoulli] codec at a precision from 1 to 31, with every
    scaled probability between 0 and [2 ** prec], codes every vector of
    bits, one per lane: [pop] after [push] returns the message and the
    bits, and whenever [pop] returns on a well-formed message it returns
    bits that [push] turns back into that message. *)
Theorem Bernoulli_roundtrip (onemp : list Z) (prec : Z) :
  1 <= prec <= 31 -> Forall (fun o => 0 <= o <= 2 ^ prec) onemp ->
  roundtrip (wf_message (length onemp))
    (fun s => length s = length onemp /\ Forall (fun x => x = 0 \/ x = 1) s)
    (Bernoulli onemp prec)
  /\ pop_push (wf_message (length onemp))
       (fun s => length s = length onemp /\ Forall (fun x => x = 0 \/ x = 1) s)
       (Bernoulli onemp prec).
Proof.
  intros Hp Ho.
  pose proof (ensure_nonzero_inside onemp prec ltac:(lia) Ho) as Ho'.
  pose proof (ensure_nonzero_length onemp prec) as Hlen'.
  pose proof (bernoulli_lanes prec _ Hp Ho') as Hlanes. cbv zeta in Hlanes.
  rewrite Hlen' in Hlanes.
  assert (statfuns_return (length onemp)
            (_cdf_to_enc_statfun (_bernoulli_cdf onemp prec true))
            (_bernoulli_ppf onemp prec true) (scalar prec)
            (fun s => length s = length onemp
                      /\ Forall (fun x => x = 0 \/ x = 1) s)) as Hstat.
  { intros s [Hlen Hs]. destruct (Hlanes s Hlen Hs) as [Hi Hdec].
    eexists _, _. unfold _cdf_to_enc_statfun, _bernoulli_cdf.
    rewrite !bool_decide_eq_true_2 by (rewrite ?length_fmap; done).
    rewrite !bind_Ok. split; [reflexivity|]. split.
    - unfold intervals_ok. simpl.
      rewrite !length_zip_with, length_fmap, Hlen', Hlen.
      repeat split; [lia..|done].
    - intros cf Hcf. unfold in_intervals in Hcf. simpl in Hcf.
      pose proof (Forall3_lengths _ _ _ _ Hcf) as [Hl1 Hl2].
      rewrite !length_zip_with, ?length_fmap in Hl1, Hl2.
      unfold _bernoulli_ppf, np_broadcast2.
      rewrite bool_decide_eq_true_2 by lia. simpl. f_equal. by apply Hdec. }
  split; [by apply roundtrip_NonUniform_raising|].
  apply pop_push_NonUniform_raising; [done|simpl; apply Forall_replicate; lia|].
  intros cf s start freq Hcf Hdec Henc Hin.
  apply Forall2_replicate_inv in Hcf as [Hlen Hcf].
  assert (length s = length onemp /\ Forall (fun x => x = 0 \/ x = 1) s) as Hdom.
  { unfold _bernoulli_ppf, np_broadcast2 in Hdec.
    rewrite bool_decide_eq_true_2 in Hdec by lia. injection Hdec as <-.
    split; [rewrite length_zip_with; lia|].
    clear. generalize (_ensure_nonzero_freq_bernoulli onemp prec).
    induction cf as [|c cf IH]; intros [|o l]; simpl; try constructor;
      [destruct (np_gt_half c o); auto|apply IH]. }
  split; [done|].
  destruct (Hstat s Hdom) as (start' & freq' & Henc' & Hi & _).
  rewrite Henc in Henc'. by injection Henc' as <- <-.
Qed.

End Bernoulli_facts.

Lemma Bernoulli_roundtrip_witness :
  roundtrip (wf_message 3)
    (fun s => length s = 3%nat /\ Forall (fun x => x = 0 \/ x = 1) s)
    (Bernoulli (tail := list Z) [0; 256; 77] 8)
  /\ pop_push (wf_message 3)
       (fun s => length s = 3%nat /\ Forall (fun x => x = 0 \/ x = 1) s)
       (Bernoulli (tail := list Z) [0; 256; 77] 8).
Proof.
  apply (Bernoulli_roundtrip (L := reference_laws) [0; 256; 77] 8).
  - lia.
  - repeat constructor; lia.
Defined.

(** Three lanes with probabilities 1, 0 and about 0.7 of a one: the bits
    come back, also the two that their lanes give probability 0; a
    vector of another length than [p] is refused. *)
Example Bernoulli_scenario :
  let m : Message (list Z) := ([2 ^ 31 + 5; 2 ^ 40 + 3; 2 ^ 62 + 1], [7]) in
  let c := Bernoulli [0; 256; 77] 8 in
  _cdf_to_enc_statfun (_bernoulli_cdf [0; 256; 77] 8 true) [0; 1; 1]
  = Ok (array [0; 255; 77], array [1; 1; 179])
  /\ (c.1 m [0; 1; 1] ≫= c.2) = Ok (m, [0; 1; 1])
  /\ c.1 m [0; 1] = Raise IndexError.
Proof. repeat split. Qed.

(** ** Decoding first: [pop] followed by [push] *)

Section Algebra.
Context {M : Type}.

Lemma serial_push_app {S} (l1 l2 : list (codec M S * S)) (m : M) :
  serial_push (l1 ++ l2) m = serial_push l1 m ≫= serial_push l2.
Proof.
  revert m. induction l1 as [|[[push pop] s] l1 IH]; intros m; simpl; [done|].
  destruct (push m s); simpl; [apply IH|done|done].
Qed.

Lemma serial_pop_length {S} (codecs : list (codec M S)) (m m' : M) symbols :
  serial_pop codecs m = Ok (m', symbols) -> length symbols = length codecs.
Proof.
  revert m m' symbols.
  induction codecs as [|[push pop] codecs IH]; intros m m' symbols; simpl.
  - by intros [= <- <-].
  - destruct (pop m) as [[m1 s]| |]; simpl; try done.
    destruct (serial_pop codecs m1) as [[m2 ss]| |] eqn:Hrest; simpl; try done.
    intros [= <- <-]. simpl. f_equal. by eapply IH.
Qed.

Lemma pop_times_push_each {Sym} (wf : M -> Prop) (dom : Sym -> Prop)
    (push_ : M -> Sym -> result M) (pop_ : M -> result (M * Sym)) k :
  (forall m m' s, wf m -> pop_ m = Ok (m', s) ->
     wf m' /\ dom s /\ push_ m' s = Ok m) ->
  forall m m' symbols, wf m -> pop_times pop_ k m = Ok (m', symbols) ->
    wf m' /\ length symbols = k /\ Forall dom symbols
    /\ push_each push_ m' (reverse symbols) = Ok m.
Proof.
  intros Hc. induction k as [|k IH]; intros m m' symbols Hm Hpop; simpl in Hpop.
  - injection Hpop as <- <-. done.
  - destruct (pop_ m) as [[m1 s]| |] eqn:Hp1; simpl in Hpop; try done.
    destruct (pop_times pop_ k m1) as [[m2 ss]| |] eqn:Hp2; simpl in Hpop;
      try done.
    injection Hpop as <- <-.
    destruct (Hc m m1 s Hm Hp1) as (Hm1 & Hs & Hback).
    destruct (IH m1 m2 ss Hm1 Hp2) as (Hm2 & Hlen & Hss & Hback2).
    split; [done|]. split; [simpl; lia|]. split; [by constructor|].
    rewrite reverse_cons, push_each_app, Hback2. simpl. by rewrite Hback.
Qed.

(** X8.  [repeat] keeps the decoding direction: if whenever the codec
    pops a symbol, pushing it back restores the message, then whenever
    [repeat(codec, k)] pops, it returns [k] symbols and pushing them back
    restores the message.  For a negative count [pop] returns no symbol
    and its message unchanged, and [push] refuses every list. *)
Theorem repeat_pop_push {Sym : Type} (wf : M -> Prop) (dom : Sym -> Prop)
    (c : codec M Sym) (k : nat) :
  pop_push wf dom c ->
  pop_push wf (fun l => length l = k /\ Forall dom l) (repeat c (Z.of_nat k))
  /\ forall n m symbols, n < 0 ->
       (repeat c n).2 m = Ok (m, []) /\ (repeat c n).1 m symbols = Raise AssertionError.
Proof.
  intros Hc. split.
  - unfold repeat. destruct c as [push_ pop_]. intros m m' symbols Hm Hpop.
    cbn [fst snd] in *. rewrite Nat2Z.id in Hpop.
    destruct (pop_times_push_each wf dom push_ pop_ k Hc m m' symbols Hm Hpop)
      as (Hm' & Hlen & Hdom & Hback).
    rewrite Hlen, Z.eqb_refl. done.
  - intros n m symbols Hn. unfold repeat. destruct c as [push_ pop_]. simpl.
    replace (Z.to_nat n) with 0%nat by lia. split; [done|].
    destruct (Z.eqb_spec (Z.of_nat (length symbols)) n); [lia|done].
Qed.

Lemma serial_two_way {S : Type} (wf : M -> Prop) (doms : list (S -> Prop))
    (codecs : list (codec M S)) :
  Forall2 (fun c dom => roundtrip wf dom c /\ pop_push wf dom c) codecs doms ->
  roundtrip wf (fun symbols => Forall2 (fun dom s => dom s) doms symbols)
    (serial codecs)
  /\ pop_push wf (fun symbols => Forall2 (fun dom s => dom s) doms symbols)
       (serial codecs).
Proof.
  intros Hcs. split.
  - induction Hcs as [|c dom codecs doms [Hc _] Hcs IH]; intros m symbols Hm Hs.
    + apply Forall2_nil_inv_l in Hs as ->. exists m. done.
    + apply Forall2_cons_inv_l in Hs as (s & ss & Hs & Hss & ->).
      destruct (IH m ss Hm Hss) as (m1 & Hpush & Hm1 & Hpop).
      destruct (Hc m1 s Hm1 Hs) as (m2 & Hpush2 & Hm2 & Hpop2).
      exists m2. unfold serial in *. simpl in *.
      rewrite reverse_cons, serial_push_app, Hpush. simpl.
      destruct c as [push pop]. simpl in *.
      rewrite Hpush2. split; [done|]. split; [done|].
      rewrite Hpop2. simpl. rewrite Hpop. done.
  - induction Hcs as [|c dom codecs doms [_ Hc] Hcs IH]; intros m m' symbols Hm Hpop.
    + simpl in Hpop. injection Hpop as <- <-. repeat split; [done|constructor].
    + unfold serial in *. simpl in *. destruct c as [push pop]. simpl in *.
      destruct (pop m) as [[m1 s]| |] eqn:Hp1; simpl in Hpop; try done.
      destruct (serial_pop codecs m1) as [[m2 ss]| |] eqn:Hp2; simpl in Hpop;
        try done.
      injection Hpop as <- <-.
      destruct (Hc m m1 s Hm Hp1) as (Hm1 & Hs & Hback). simpl in Hback.
      destruct (IH m1 m2 ss Hm1 Hp2) as (Hm2 & Hss & Hback2).
      cbn [fst] in Hback2.
      split; [done|]. split; [by constructor|].
      cbn [fst zip zip_with]. rewrite reverse_cons, serial_push_app, Hback2.
      simpl. by rewrite Hback.
Qed.

(** X9.  [serial] codes a list of symbols with a list of codecs both
    ways: if every codec round-trips on its symbols and restores the
    message when the symbol it popped is pushed back, so does
    [serial(codecs)] on the lists that hold one symbol per codec. *)
Theorem serial_roundtrip {S : Type} (wf : M -> Prop) (doms : list (S -> Prop))
    (codecs : list (codec M S)) :
  Forall2 (fun c dom => roundtrip wf dom c /\ pop_push wf dom c) codecs doms ->
  roundtrip wf (fun symbols => Forall2 (fun dom s => dom s) doms symbols)
    (serial codecs)
  /\ pop_push wf (fun symbols => Forall2 (fun dom s => dom s) doms symbols)
       (serial codecs).
Proof. apply serial_two_way. Qed.

(** X10.  [serial] never compares the number of symbols with the number
    of codecs: [push] ignores the symbols beyond the last codec, with
    fewer symbols it runs only the first codecs, and [pop], when it
    returns, returns one symbol per codec. *)
Theorem serial_lengths {S : Type} (codecs : list (codec M S)) :
  (forall m symbols extra, length symbols = length codecs ->
     (serial codecs).1 m (symbols ++ extra) = (serial codecs).1 m symbols)
  /\ (forall m symbols, (length symbols <= length codecs)%nat ->
        (serial codecs).1 m symbols
        = (serial (take (length symbols) codecs)).1 m symbols)
  /\ (forall m m' symbols, (serial codecs).2 m = Ok (m', symbols) ->
        length symbols = length codecs).
Proof.
  unfold serial. simpl. split; [|split].
  - intros m symbols extra Hlen. f_equal. f_equal.
    revert symbols Hlen. induction codecs as [|c codecs IH]; intros [|s ss] Hlen;
      simpl in *; try done.
    f_equal. apply IH. lia.
  - intros m symbols Hlen. f_equal. f_equal.
    revert symbols Hlen. induction codecs as [|c codecs IH]; intros [|s ss] Hlen;
      simpl in *; try done.
    f_equal. apply IH. lia.
  - intros m m' symbols. apply serial_pop_length.
Qed.

End Algebra.

Lemma repeat_pop_push_witness :
  pop_push (wf_message 2)
    (fun l => length l = 3%nat /\ Forall (uniform_dom 2 (scalar 8)) l)
    (repeat (Uniform (tail := list Z) (scalar 8)) (Z.of_nat 3))
  /\ forall n m symbols, n < 0 ->
       (repeat (Uniform (tail := list Z) (scalar 8)) n).2 m = Ok (m, [])
       /\ (repeat (Uniform (tail := list Z) (scalar 8)) n).1 m symbols
          = Raise AssertionError.
Proof.
  apply (repeat_pop_push (wf_message 2) (uniform_dom 2 (scalar 8))
           (Uniform (tail := list Z) (scalar 8)) 3).
  intros m m' s Hm Hpop.
  apply (Uniform_pop_push (L := reference_laws) 2 (scalar 8) m m' s Hm I); [|done].
  simpl. repeat constructor; lia.
Defined.

Lemma serial_roundtrip_witness :
  let codecs := [Uniform (tail := list Z) (scalar 8); Uniform (scalar 3)] in
  let doms := [uniform_dom 2 (scalar 8); uniform_dom 2 (scalar 3)] in
  roundtrip (wf_message 2) (fun symbols => Forall2 (fun dom s => dom s) doms symbols)
    (serial codecs)
  /\ pop_push (wf_message 2)
       (fun symbols => Forall2 (fun dom s => dom s) doms symbols) (serial codecs).
Proof.
  apply (serial_roundtrip (wf_message 2)
           [uniform_dom 2 (scalar 8); uniform_dom 2 (scalar 3)]
           [Uniform (tail := list Z) (scalar 8); Uniform (scalar 3)]).
  constructor; [split|constructor; [split|constructor]].
  - apply (Uniform_roundtrip (L := reference_laws)); [done|].
    simpl. repeat constructor; lia.
  - intros m m' s Hm Hpop.
    apply (Uniform_pop_push (L := reference_laws) 2 (scalar 8) m m' s Hm I); [|done].
    simpl. repeat constructor; lia.
  - apply (Uniform_roundtrip (L := reference_laws)); [done|].
    simpl. repeat constructor; lia.
  - intros m m' s Hm Hpop.
    apply (Uniform_pop_push (L := reference_laws) 2 (scalar 3) m m' s Hm I); [|done].
    simpl. repeat constructor; lia.
Defined.

(** Two codecs and three symbols: the third symbol is dropped without a
    word, and [pop] returns two. *)
Example serial_scenario :
  let m : Message (list Z) := ([2 ^ 31 + 5; 2 ^ 40 + 3], [7]) in
  let c := serial [Uniform (scalar 8); Uniform (scalar 3)] in
  c.1 m [[1; 2]; [3; 4]; [5; 6]] = c.1 m [[1; 2]; [3; 4]]
  /\ (c.1 m [[1; 2]; [3; 4]; [5; 6]] ≫= c.2) = Ok (m, [[1; 2]; [3; 4]]).
Proof. split; reflexivity. Qed.

Section Primitive_codecs.
Context {tail : Type} {V : Vrans tail} {L : VransLaws tail}.

(** X11.  The assertion of [NonUniform]'s [pop] makes decoding safe to
    undo, for precisions from 0 to 31 (a scalar, or one per lane):
    whenever [pop] returns on a well-formed message, the returned symbol
    is [dec_statfun] of the popped value and the asserted expression was
    true of its interval; and if that interval is a valid one at the
    precision ([0 < freq], [0 <= start], [start + freq <= 2 ** precision]
    on every lane), the popped value lies in it and pushing the symbol
    back gives the message popped from, whatever [dec_statfun] does
    elsewhere. *)
Theorem NonUniform_pop_push {S : Type} (n : nat)
    (enc_statfun : S -> ndarray * ndarray) (dec_statfun : list Z -> S)
    (precision : ndarray) (m m' : Message tail) (s : S) :
  wf_message n m -> shaped n precision ->
  Forall (fun p => 0 <= p <= 31) (lanes n precision) ->
  (NonUniform enc_statfun dec_statfun precision).2 m = Ok (m', s) ->
  s = dec_statfun (vrans_pop m precision).1
  /\ np_interval_check (enc_statfun s).1 (enc_statfun s).2
       (vrans_pop m precision).1 = Some true
  /\ (intervals_ok n (enc_statfun s).1 (enc_statfun s).2 precision ->
      in_intervals n (enc_statfun s).1 (enc_statfun s).2 (vrans_pop m precision).1
      /\ wf_message n m'
      /\ (NonUniform enc_statfun dec_statfun precision).1 m' s = Ok m).
Proof.
  intros Hm Hsp Hp Hpop. rewrite <- NonUniform_raising_total in Hpop.
  destruct (NonUniform_raising_pop_inv _ _ _ _ _ _ Hpop)
    as (start & freq & Hdec & Henc & Hchk & Hfin).
  injection Hdec as Hdec. injection Henc as Henc.
  destruct (vrans_pop m precision) as [cf finish] eqn:Hvp. simpl in *.
  destruct (pop_then_push n m precision cf finish Hm Hsp Hp Hvp) as [Hcf Hback].
  assert (length cf = n) as Hlen.
  { apply Forall2_length in Hcf. by rewrite lanes_length in Hcf. }
  rewrite Henc. simpl.
  split; [done|]. split; [done|]. intros Hi.
  assert (in_intervals n start freq cf) as Hin.
  { rewrite <- Hlen in Hi |- *. by eapply checks_in_intervals. }
  destruct (Hback start freq m' Hi Hin Hfin) as [Hm' Hpush].
  by rewrite Hpush.
Qed.

(** X12.  [Uniform(precision)], for precisions from 0 to 31, codes
    exactly the vectors with one value below [2 ** precision] per lane:
    [pop] after [push] returns message and symbol, every symbol that
    [pop] returns is such a vector, and pushing it back restores the
    message. *)
Theorem Uniform_two_way (n : nat) (precision : ndarray) :
  shaped n precision -> Forall (fun p => 0 <= p <= 31) (lanes n precision) ->
  roundtrip (wf_message n) (uniform_dom n precision) (Uniform precision)
  /\ pop_push (wf_message n) (uniform_dom n precision) (Uniform precision).
Proof.
  intros Hs Hp. split; [by apply Uniform_roundtrip|].
  intros m m' s Hm Hpop. by eapply Uniform_pop_push.
Qed.

(** X13.  [Benford64] codes every vector of head words (one per lane,
    each in [2^31, 2^63)) whose logarithms numpy takes exactly: [push]
    returns a well-formed message from which [pop] returns the message
    and the words. *)
Theorem Benford64_roundtrip (np_log2 : Z -> Z) (n : nat) :
  roundtrip (wf_message n)
    (fun x => length x = n /\ Forall word x /\ Forall (log2_exact np_log2) x)
    (Benford64 np_log2).
Proof.
  intros m x Hm (Hlen & Hw & Hlog). by apply Benford64_push_pop.
Qed.

(** X14.  Whatever [Benford64] pops from a well-formed message is a
    vector of head words, one per lane, each in [2^31, 2^63) and put
    together from a length below 32, that many high bits and 31 low
    bits; pushing the words back restores the message if numpy takes
    their logarithms exactly. *)
Theorem Benford64_pop_words (np_log2 : Z -> Z) (n : nat) (m m' : Message tail)
    (x : list Z) :
  wf_message n m -> (Benford64 np_log2).2 m = Ok (m', x) ->
  wf_message n m' /\ length x = n /\ Forall word x
  /\ Forall (fun xi => 0 <= benford_length xi <= 31
                       /\ xi = 2 ^ (benford_length xi + 31)
                               + benford_high xi * 2 ^ 31 + benford_low xi) x
  /\ (Forall (log2_exact np_log2) x -> (Benford64 np_log2).1 m' x = Ok m).
Proof.
  intros Hm Hpop.
  destruct (Benford64_pop_push np_log2 n m m' x Hm Hpop) as (Hm' & Hlen & Hw & Hback).
  repeat split; try done; try apply Hm'.
  eapply list.Forall_impl; [exact Hw|]. intros xi Hxi. simpl.
  destruct (benford_split xi Hxi) as (H1 & H2 & H3 & H4).
  split; [done|]. unfold benford_length in *.
  replace (Z.log2 xi - 31 + 31) with (Z.log2 xi) by lia. done.
Qed.

End Primitive_codecs.

Lemma NonUniform_pop_push_witness :
  let m : Message (list Z) := ([2 ^ 31 + 5; 2 ^ 40 + 3], [7]) in
  let m' : Message (list Z) := ([2 ^ 55 + 7; 2 ^ 32], []) in
  let s := [5; 3] in
  s = _uniform_dec_statfun (vrans_pop m (scalar 8)).1
  /\ np_interval_check (_uniform_enc_statfun s).1 (_uniform_enc_statfun s).2
       (vrans_pop m (scalar 8)).1 = Some true
  /\ (intervals_ok 2 (_uniform_enc_statfun s).1 (_uniform_enc_statfun s).2 (scalar 8) ->
      in_intervals 2 (_uniform_enc_statfun s).1 (_uniform_enc_statfun s).2
        (vrans_pop m (scalar 8)).1
      /\ wf_message 2 m'
      /\ (NonUniform _uniform_enc_statfun _uniform_dec_statfun (scalar 8)).1 m' s
         = Ok m).
Proof.
  apply (NonUniform_pop_push (L := reference_laws) 2 _uniform_enc_statfun
           _uniform_dec_statfun (scalar 8) ([2 ^ 31 + 5; 2 ^ 40 + 3], [7])).
  - repeat split; repeat constructor; lia.
  - done.
  - simpl. repeat constructor; lia.
  - reflexivity.
Defined.

Lemma Uniform_two_way_witness :
  roundtrip (wf_message 2) (uniform_dom 2 (array [8; 3]))
    (Uniform (tail := list Z) (array [8; 3]))
  /\ pop_push (wf_message 2) (uniform_dom 2 (array [8; 3]))
       (Uniform (tail := list Z) (array [8; 3])).
Proof.
  apply (Uniform_two_way (L := reference_laws) 2 (array [8; 3])).
  - reflexivity.
  - simpl. repeat constructor; lia.
Defined.

Lemma Benford64_pop_words_witness :
  let m : Message (list Z) := ([2 ^ 31 + 5; 2 ^ 40 + 3], [7; 9; 11; 13]) in
  let m' : Message (list Z) := ([18014398509481993; 8589934603], [13]) in
  let x := [83751862272; 17179869184] in
  wf_message 2 m' /\ length x = 2%nat /\ Forall word x
  /\ Forall (fun xi => 0 <= benford_length xi <= 31
                       /\ xi = 2 ^ (benford_length xi + 31)
                               + benford_high xi * 2 ^ 31 + benford_low xi) x
  /\ (Forall (log2_exact Reference.np_log2) x ->
      (Benford64 Reference.np_log2).1 m' x = Ok m).
Proof.
  apply (Benford64_pop_words (L := reference_laws) Reference.np_log2 2
           ([2 ^ 31 + 5; 2 ^ 40 + 3], [7; 9; 11; 13])).
  - repeat split; repeat constructor; lia.
  - reflexivity.
Defined.

(** ** [reshape_head] at the edges *)

Section Reshape_edges.
Context {tail : Type} {V : Vrans tail}.

(** X15.  Reshaping a head to the size it has returns the message as it
    is, for every message, the one with an empty head included, and
    without a call of a codec: the schedule has the single size. *)
Theorem reshape_head_same_size (np_log2 : Z -> Z) (m : Message tail) :
  resize_sizes (Z.of_nat (shape m)) (Z.of_nat (shape m)) = Ok [Z.of_nat (shape m)]
  /\ _resize_head_1d np_log2 m (Z.of_nat (shape m)) = Ok m
  /\ reshape_head np_log2 m (Z.of_nat (shape m)) = Ok m.
Proof.
  destruct m as [head t]. unfold shape. simpl.
  assert (resize_sizes (Z.of_nat (length head)) (Z.of_nat (length head))
          = Ok [Z.of_nat (length head)]) as Hs.
  { unfold resize_sizes, _fold_sizes, _fold_sizes_fuel, fold_fuel.
    rewrite Z.min_id, Z.max_id. simpl. by rewrite Z.eqb_refl. }
  assert (_resize_head_1d np_log2 (head, t) (Z.of_nat (length head)) = Ok (head, t))
    as Hr.
  { unfold _resize_head_1d. rewrite Hs, bind_Ok, Z.ltb_irrefl. done. }
  split; [done|]. split; [done|].
  unfold reshape_head. rewrite Hr, bind_Ok, Z.eqb_refl. done.
Qed.

(** X16.  [reshape_head] never returns when exactly one of the size of
    the head and the target size is zero: the loop of [_fold_sizes]
    doubles the zero and so never reaches the other size. *)
Theorem reshape_head_hangs (np_log2 : Z -> Z) (m : Message tail) (size : Z) :
  0 <= size -> size <> Z.of_nat (shape m) -> size = 0 \/ shape m = 0%nat ->
  reshape_head np_log2 m size = Diverge
  /\ forall fuel,
       _fold_sizes_fuel fuel (Z.min size (Z.of_nat (shape m)))
         (Z.max size (Z.of_nat (shape m))) = None.
Proof.
  intros Hsize Hne H0. destruct m as [head t]. unfold shape in *. simpl in *.
  assert (forall fuel,
            _fold_sizes_fuel fuel (Z.min size (Z.of_nat (length head)))
              (Z.max size (Z.of_nat (length head))) = None) as Hall.
  { intros fuel. unfold _fold_sizes_fuel. rewrite fold_loop_diverges; [done|lia|lia]. }
  split; [|done].
  unfold reshape_head, _resize_head_1d, resize_sizes.
  apply fold_fuel_adequate in Hall. rewrite Hall. done.
Qed.

End Reshape_edges.

Lemma reshape_head_hangs_witness :
  let m : Message (list Z) := ([], [7]) in
  reshape_head Reference.np_log2 m 3 = Diverge
  /\ forall fuel,
       _fold_sizes_fuel fuel (Z.min 3 (Z.of_nat (shape m)))
         (Z.max 3 (Z.of_nat (shape m))) = None.
Proof.
  apply (reshape_head_hangs Reference.np_log2 ([], [7]) 3).
  - lia.
  - unfold shape. simpl. lia.
  - by right.
Defined.

(** ** The bucket caches *)

Section Cache_facts.
Context {A B : Type}.
Variable bucket_endpoints : Z -> result A.
Variable bucket_centres : Z -> result B.

Lemma reachable_cached (st : caches) :
  reachable bucket_endpoints bucket_centres st ->
  (forall p b, std_gaussian_bucket_cache st !! p = Some b ->
               bucket_endpoints p = Ok b)
  /\ (forall p c, std_gaussian_centres_cache st !! p = Some c ->
                  bucket_centres p = Ok c).
Proof.
  induction 1 as [|st precision buckets st' Hst [IHb IHc] Hcall
                  |st precision centres st' Hst [IHb IHc] Hcall].
  - split; intros p x Hp; simpl in Hp; by rewrite lookup_empty in Hp.
  - unfold std_gaussian_buckets in Hcall.
    destruct (std_gaussian_bucket_cache st !! precision) as [b0|] eqn:Hlook.
    + injection Hcall as <- <-. done.
    + destruct (bucket_endpoints precision) as [b1| |] eqn:Hval;
        simpl in Hcall; try done.
      injection Hcall as <- <-. simpl. split; [|done].
      intros p b Hp. destruct (decide (p = precision)) as [->|Hne].
      * rewrite lookup_insert_eq in Hp. by injection Hp as <-.
      * rewrite lookup_insert_ne in Hp by done. by apply IHb.
  - unfold std_gaussian_centres in Hcall.
    destruct (std_gaussian_centres_cache st !! precision) as [c0|] eqn:Hlook.
    + injection Hcall as <- <-. done.
    + destruct (bucket_centres precision) as [c1| |] eqn:Hval;
        simpl in Hcall; try done.
      injection Hcall as <- <-. simpl. split; [done|].
      intros p c Hp. destruct (decide (p = precision)) as [->|Hne].
      * rewrite lookup_insert_eq in Hp. by injection Hp as <-.
      * rewrite lookup_insert_ne in Hp by done. by apply IHc.
Qed.

(** X17.  The caches are transparent: in every state that calls of
    [std_gaussian_buckets] and [std_gaussian_centres] lead to from the
    empty dicts, a call returns what its expression returns for the
    precision (or raises what it raises, leaving the dicts alone); a
    call that returns leaves the precision in its dict with the value
    returned, keeps every entry that was there, and does not touch the
    other dict. *)
Theorem std_gaussian_caches (st : caches) (precision : Z) :
  reachable bucket_endpoints bucket_centres st ->
  fst <$> std_gaussian_buckets bucket_endpoints precision st
    = bucket_endpoints precision
  /\ fst <$> std_gaussian_centres bucket_centres precision st
     = bucket_centres precision
  /\ (forall buckets st',
        std_gaussian_buckets bucket_endpoints precision st = Ok (buckets, st') ->
        std_gaussian_bucket_cache st' !! precision = Some buckets
        /\ std_gaussian_bucket_cache st ⊆ std_gaussian_bucket_cache st'
        /\ std_gaussian_centres_cache st' = std_gaussian_centres_cache st)
  /\ (forall centres st',
        std_gaussian_centres bucket_centres precision st = Ok (centres, st') ->
        std_gaussian_centres_cache st' !! precision = Some centres
        /\ std_gaussian_centres_cache st ⊆ std_gaussian_centres_cache st'
        /\ std_gaussian_bucket_cache st' = std_gaussian_bucket_cache st).
Proof.
  intros Hst. destruct (reachable_cached st Hst) as [Hb Hc].
  unfold std_gaussian_buckets, std_gaussian_centres.
  split; [|split; [|split]].
  - destruct (std_gaussian_bucket_cache st !! precision) as [b|] eqn:Hlook.
    + simpl. by rewrite (Hb precision b Hlook).
    + by destruct (bucket_endpoints precision).
  - destruct (std_gaussian_centres_cache st !! precision) as [c|] eqn:Hlook.
    + simpl. by rewrite (Hc precision c Hlook).
    + by destruct (bucket_centres precision).
  - intros buckets st'.
    destruct (std_gaussian_bucket_cache st !! precision) as [b|] eqn:Hlook.
    + intros [= <- <-]. done.
    + destruct (bucket_endpoints precision) as [b1| |]; simpl; try done.
      intros [= <- <-]. simpl. split; [by rewrite lookup_insert_eq|].
      split; [by apply insert_subseteq|done].
  - intros centres st'.
    destruct (std_gaussian_centres_cache st !! precision) as [c|] eqn:Hlook.
    + intros [= <- <-]. done.
    + destruct (bucket_centres precision) as [c1| |]; simpl; try done.
      intros [= <- <-]. simpl. split; [by rewrite lookup_insert_eq|].
      split; [by apply insert_subseteq|done].
Qed.

End Cache_facts.

(** The caches after one call for precision 3, with the number of
    endpoints and of centres standing for the arrays. *)
Lemma std_gaussian_caches_witness :
  let bucket_endpoints := fun p => if p <? 0 then Raise ValueError else Ok (2 ^ p + 1) in
  let bucket_centres := fun p => if p <? 0 then Raise ValueError else Ok (2 ^ p) in
  let st := {| std_gaussian_bucket_cache := <[3 := 9]> ∅;
               std_gaussian_centres_cache := ∅ |} in
  fst <$> std_gaussian_buckets bucket_endpoints 4 st = bucket_endpoints 4
  /\ fst <$> std_gaussian_centres bucket_centres 4 st = bucket_centres 4
  /\ (forall buckets st',
        std_gaussian_buckets bucket_endpoints 4 st = Ok (buckets, st') ->
        std_gaussian_bucket_cache st' !! 4 = Some buckets
        /\ std_gaussian_bucket_cache st ⊆ std_gaussian_bucket_cache st'
        /\ std_gaussian_centres_cache st' = std_gaussian_centres_cache st)
  /\ (forall centres st',
        std_gaussian_centres bucket_centres 4 st = Ok (centres, st') ->
        std_gaussian_centres_cache st' !! 4 = Some centres
        /\ std_gaussian_centres_cache st ⊆ std_gaussian_centres_cache st'
        /\ std_gaussian_bucket_cache st' = std_gaussian_bucket_cache st).
Proof.
  cbv zeta.
  apply (std_gaussian_caches
           (fun p => if p <? 0 then Raise ValueError else Ok (2 ^ p + 1))
           (fun p => if p <? 0 then Raise ValueError else Ok (2 ^ p))
           {| std_gaussian_bucket_cache := <[3 := 9]> ∅;
              std_gaussian_centres_cache := ∅ |} 4).
  eapply (reachable_buckets _ _ _ 3 9); [apply reachable_loaded|reflexivity].
Defined.

(** ** Shrinking a head and growing it back *)

Section Shrink_grow.
Context {tail : Type} {V : Vrans tail} {L : VransLaws tail}.

Lemma fold_push_pop np_log2 k d head (t : tail) x :
  wf_message k (head, t) -> (Z.to_nat d <= k)%nat ->
  length x = Z.to_nat d -> Forall word x -> Forall (log2_exact np_log2) x ->
  exists m', (_fold_codec np_log2 d).1 (head, t) x = Ok m'
             /\ wf_message k m'
             /\ (_fold_codec np_log2 d).2 m' = Ok ((head, t), x).
Proof.
  intros (Hlen & Hw & Ht) Hd Hlx Hwx Hlog. simpl in Hlen, Hw, Ht.
  unfold _fold_codec.
  destruct (Benford64_push_pop np_log2 (Z.to_nat d)
              (take (Z.to_nat d) head, t) x) as ([sub t1] & Hpush & Hm1 & Hpop);
    try done.
  { repeat split; simpl; [rewrite length_take; lia|by apply Forall_take|done]. }
  destruct Hm1 as (Hls & Hws & Hts). simpl in Hls, Hws, Hts.
  exists (sub ++ drop (Z.to_nat d) head, t1).
  rewrite substack_push_eq, fold_view_update. cbn [fst snd].
  rewrite Hpush, bind_Ok. split; [done|]. split.
  - repeat split; simpl; [|apply Forall_app; split; [done|by apply Forall_drop]|done].
    rewrite length_app, length_drop. lia.
  - rewrite substack_pop_eq, fold_view_update. cbn [fst snd].
    rewrite take_app_length' by done. rewrite Hpop, bind_Ok.
    rewrite drop_app_length' by done. by rewrite take_drop.
Qed.

Lemma resize_shrink_words_app steps1 steps2 (m : Message tail) :
  resize_shrink_words (steps1 ++ steps2) m
  = resize_shrink_words steps1 m
    ++ match resize_shrink steps1 m with
       | Ok m' => resize_shrink_words steps2 m'
       | _ => []
       end.
Proof.
  revert m. induction steps1 as [|[[push pop] new_size] steps1 IH]; intros [head t].
  - done.
  - cbn [app resize_shrink_words resize_shrink fst snd].
    rewrite <- app_assoc. f_equal.
    destruct (push _ _) as [m'| |]; simpl; [apply IH|done|done].
Qed.

Lemma shrink_then_grow np_log2 l :
  forall s head (t : tail),
    1 <= s -> schedule s l -> wf_message (Z.to_nat (List.last l s)) (head, t) ->
    Forall (log2_exact np_log2)
      (resize_shrink_words
         (reverse (zip (_fold_codecs np_log2 (s :: l)) (removelast (s :: l))))
         (head, t)) ->
    exists m1,
      resize_shrink
        (reverse (zip (_fold_codecs np_log2 (s :: l)) (removelast (s :: l))))
        (head, t) = Ok m1
      /\ wf_message (Z.to_nat s) m1
      /\ resize_grow (_fold_codecs np_log2 (s :: l)) m1 = Ok (head, t).
Proof.
  induction l as [|x l IH]; intros s head t Hs Hsch Hm Hlog.
  - exists (head, t). done.
  - destruct Hsch as [Hx Hsch]. rewrite last_cons_default in Hm.
    rewrite fold_codecs_cons, removelast_cons2 in *. cbn [zip zip_with] in *.
    rewrite reverse_cons in *.
    rewrite resize_shrink_words_app in Hlog.
    apply Forall_app in Hlog as [Hlog1 Hlog2].
    destruct (IH x head t ltac:(lia) Hsch Hm Hlog1)
      as ([head2 t2] & Hrun & (Hl2 & Hw2 & Ht2) & Hgrow).
    simpl in Hl2, Hw2, Ht2.
    rewrite Hrun in Hlog2. cbn [resize_shrink_words fst snd] in Hlog2.
    apply Forall_app in Hlog2 as [Hlog2 _].
    destruct (fold_push_pop np_log2 (Z.to_nat s) (x - s)
                (take (Z.to_nat s) head2) t2 (drop (Z.to_nat s) head2))
      as (m1 & Hpush & Hm1 & Hpop); try done.
    { repeat split; simpl; [rewrite length_take; lia|by apply Forall_take|done]. }
    { lia. }
    { rewrite length_drop. lia. }
    { by apply Forall_drop. }
    exists m1. rewrite resize_shrink_app, Hrun, bind_Ok, resize_shrink_cons.
    rewrite Hpush. split; [done|]. split; [done|].
    rewrite resize_grow_cons, Hpop, bind_Ok, take_drop. done.
Qed.

(** X18.  Shrinking a head and growing it back returns the message: for
    a well-formed message with [a] lanes and a target size [b] with
    [1 <= b <= a], if numpy takes exactly the logarithm of each word that
    shrinking pushes, [reshape_head] to [b] returns a well-formed message
    with [b] lanes, and [reshape_head] of that message to [a] returns
    the message started from. *)
Theorem reshape_shrink_grow (np_log2 : Z -> Z) (m : Message tail) (b : Z) :
  wf_message (shape m) m -> 1 <= b <= Z.of_nat (shape m) ->
  Forall (log2_exact np_log2) (reshape_shrink_words np_log2 m b) ->
  exists m1,
    reshape_head np_log2 m b = Ok m1
    /\ wf_message (Z.to_nat b) m1
    /\ reshape_head np_log2 m1 (Z.of_nat (shape m)) = Ok m.
Proof.
  destruct m as [head t]. unfold shape, reshape_shrink_words. simpl.
  intros Hm Hb Hlog.
  destruct (fold_sizes_schedule b (Z.of_nat (length head)) Hb)
    as (l & Hsizes & Hsch & Hlast).
  assert (resize_sizes b (Z.of_nat (length head)) = Ok (b :: l)) as Hrs.
  { unfold resize_sizes. rewrite Z.min_l, Z.max_r by lia. done. }
  assert (resize_sizes (Z.of_nat (length head)) b = Ok (b :: l)) as Hrs'.
  { unfold resize_sizes. rewrite Z.min_r, Z.max_l by lia. done. }
  rewrite Hrs in Hlog.
  destruct (shrink_then_grow np_log2 l b head t ltac:(lia) Hsch) as
    ([head1 t1] & Hshrink & Hm1 & Hgrow); [|done|].
  { rewrite Hlast, Nat2Z.id. done. }
  pose proof Hm1 as (Hl1 & _). simpl in Hl1.
  destruct (Z.ltb_spec b (Z.of_nat (length head))) as [Hlt|Hge].
  - exists (head1, t1). split; [|split; [done|]].
    + unfold reshape_head, _resize_head_1d. rewrite Hrs, bind_Ok.
      destruct (Z.ltb_spec b (Z.of_nat (length head))); [|lia].
      rewrite Hshrink, bind_Ok.
      destruct (Z.eqb_spec (Z.of_nat (length head1)) b); [done|lia].
    + unfold reshape_head, _resize_head_1d. rewrite Hl1, Z2Nat.id by lia.
      rewrite Hrs', bind_Ok.
      destruct (Z.ltb_spec (Z.of_nat (length head)) b); [lia|].
      destruct (Z.ltb_spec b (Z.of_nat (length head))); [|lia].
      rewrite Hgrow, bind_Ok. by rewrite Z.eqb_refl.
  - assert (b = Z.of_nat (length head)) as -> by lia.
    assert (l = []) as ->.
    { destruct l as [|x l]; [done|]. destruct Hsch as [Hx Hsch].
      rewrite last_cons_default in Hlast.
      assert (forall y k, schedule y k -> y <= List.last k y) as Hmono.
      { clear. intros y k. revert y. induction k as [|z k IH]; intros y Hk; [simpl; lia|].
        destruct Hk as [Hz Hk]. rewrite last_cons_default.
        specialize (IH z Hk). lia. }
      specialize (Hmono x l Hsch). lia. }
    exists (head, t). rewrite Nat2Z.id.
    assert (reshape_head np_log2 (head, t) (Z.of_nat (length head)) = Ok (head, t))
      as Hsame.
    { unfold reshape_head, _resize_head_1d. rewrite Hrs, bind_Ok, Z.ltb_irrefl.
      rewrite bind_Ok, Z.eqb_refl. done. }
    done.
Qed.

End Shrink_grow.

Lemma reshape_shrink_grow_witness :
  let m : Message (list Z) :=
    ([2 ^ 31 + 5; 2 ^ 40 + 3; 2 ^ 62 + 77; 2 ^ 33; 2 ^ 50 + 1], [1; 2; 3]) in
  exists m1,
    reshape_head Reference.np_log2 m 1 = Ok m1
    /\ wf_message (Z.to_nat 1) m1
    /\ reshape_head Reference.np_log2 m1 (Z.of_nat (shape m)) = Ok m.
Proof.
  apply (reshape_shrink_grow (L := reference_laws) Reference.np_log2
           ([2 ^ 31 + 5; 2 ^ 40 + 3; 2 ^ 62 + 77; 2 ^ 33; 2 ^ 50 + 1], [1; 2; 3]) 1).
  - repeat split; repeat constructor; lia.
  - unfold shape. simpl. lia.
  - match goal with
    | |- Forall ?P ?l =>
        let l' := eval vm_compute in l in
        replace l with l' by (vm_compute; reflexivity)
    end.
    repeat (constructor; [vm_compute; reflexivity|]). constructor.
Defined.

(** Five lanes folded into one and unfolded again. *)
Example reshape_flatten_scenario :
  let m : Message (list Z) :=
    ([2 ^ 31 + 5; 2 ^ 40 + 3; 2 ^ 62 + 77; 2 ^ 33; 2 ^ 50 + 1], [1; 2; 3]) in
  _fold_sizes 1 5 = Ok [1; 2; 4; 5]
  /\ (shape <$> reshape_head Reference.np_log2 m 1) = Ok 1%nat
  /\ (reshape_head Reference.np_log2 m 1 ≫= fun m1 =>
      reshape_head Reference.np_log2 m1 5) = Ok m.
Proof. repeat split. Qed.

(** ** [substack] and [parallel] *)

Lemma view_update_again v head subhead :
  (view_offset v + view_width v <= length head)%nat ->
  length subhead = view_width v ->
  (view_update ((view_update head v).2 subhead) v).1 = subhead
  /\ (view_update ((view_update head v).2 subhead) v).2 (view_update head v).1
     = head.
Proof.
  intros Hv Hs. destruct v as [off w]. unfold view_update. simpl in *.
  assert (length (take off head) = off) as Hoff by (rewrite length_take; lia).
  split.
  - rewrite drop_app_length' by done. by rewrite take_app_length'.
  - rewrite take_app_length' by done.
    assert (drop (off + w) (take off head ++ subhead ++ drop (off + w) head)
            = drop (off + w) head) as ->.
    { rewrite app_assoc. apply drop_app_length'. rewrite length_app. lia. }
    rewrite <- (drop_drop head w off), take_drop, take_drop. done.
Qed.

Section Substack_facts.
Context {tail : Type} {V : Vrans tail}.

Lemma view_update_wf v n head (t t' : tail) subhead :
  (view_offset v + view_width v <= n)%nat ->
  wf_message n (head, t) -> wf_message (view_width v) (subhead, t') ->
  wf_message (view_width v) ((view_update head v).1, t)
  /\ wf_message n ((view_update head v).2 subhead, t').
Proof.
  intros Hv (Hl & Hw & Ht) (Hls & Hws & Hts). simpl in *.
  destruct v as [off w]. unfold view_update. simpl in *. split.
  - repeat split; simpl; [|by apply Forall_take, Forall_drop|done].
    rewrite length_take, length_drop. lia.
  - repeat split; simpl; [|repeat (apply Forall_app; split)|done];
      [|by apply Forall_take|done|by apply Forall_drop].
    rewrite !length_app, length_take, length_drop. lia.
Qed.

Lemma substack_two_way {S : Type} (c : codec (Message tail) S) (v : view)
    (n : nat) (dom : S -> Prop) :
  (view_offset v + view_width v <= n)%nat ->
  roundtrip (wf_message (view_width v)) dom c
  /\ pop_push (wf_message (view_width v)) dom c ->
  roundtrip (wf_message n) dom (substack c v)
  /\ pop_push (wf_message n) dom (substack c v).
Proof.
  intros Hv [Hrt Hpp]. split.
  - intros [head t] s Hm Hs.
    assert (wf_message (view_width v) ((view_update head v).1, t)) as Hsub.
    { destruct Hm as (Hl & Hw & Ht). simpl in *.
      destruct v as [off w]. unfold view_update. simpl in *.
      repeat split; simpl; [|by apply Forall_take, Forall_drop|done].
      rewrite length_take, length_drop. lia. }
    destruct (Hrt _ s Hsub Hs) as ([sub t'] & Hpush & Hm' & Hpop).
    destruct (view_update_wf v n head t t' sub Hv Hm Hm') as [_ Hwf].
    pose proof Hm as (Hl & _). pose proof Hm' as (Hls & _). simpl in Hl, Hls.
    destruct (view_update_again v head sub ltac:(lia) Hls) as [Hview Hupd].
    exists ((view_update head v).2 sub, t').
    rewrite substack_push_eq, Hpush, bind_Ok. split; [done|]. split; [done|].
    rewrite substack_pop_eq, Hview, Hpop, bind_Ok, Hupd. done.
  - intros [head t] m' s Hm Hpop.
    assert (wf_message (view_width v) ((view_update head v).1, t)) as Hsub.
    { destruct Hm as (Hl & Hw & Ht). simpl in *.
      destruct v as [off w]. unfold view_update. simpl in *.
      repeat split; simpl; [|by apply Forall_take, Forall_drop|done].
      rewrite length_take, length_drop. lia. }
    rewrite substack_pop_eq in Hpop.
    destruct (c.2 ((view_update head v).1, t)) as [[[sub t'] s']| |] eqn:Hin;
      [rewrite bind_Ok in Hpop|simpl in Hpop; done..].
    injection Hpop as <- <-.
    destruct (Hpp _ _ _ Hsub Hin) as (Hm' & Hs & Hback).
    destruct (view_update_wf v n head t t' sub Hv Hm Hm') as [_ Hwf].
    pose proof Hm as (Hl & _). pose proof Hm' as (Hls & _). simpl in Hl, Hls.
    destruct (view_update_again v head sub ltac:(lia) Hls) as [Hview Hupd].
    change (take (view_offset v) head ++ sub
            ++ drop (view_offset v + view_width v) head)
      with ((view_update head v).2 sub).
    split; [done|]. split; [done|].
    rewrite substack_push_eq, Hview, Hback, bind_Ok, Hupd. done.
Qed.

(** X19.  [substack] keeps a codec two-way: if the codec round-trips
    and decodes on heads as wide as the sub-range, then on heads that
    hold the sub-range [substack(codec, view)] round-trips and decodes
    on the same symbols. *)
Theorem substack_roundtrip {S : Type} (c : codec (Message tail) S) (v : view)
    (n : nat) (dom : S -> Prop) :
  (view_offset v + view_width v <= n)%nat ->
  roundtrip (wf_message (view_width v)) dom c
  /\ pop_push (wf_message (view_width v)) dom c ->
  roundtrip (wf_message n) dom (substack c v)
  /\ pop_push (wf_message n) dom (substack c v).
Proof. apply substack_two_way. Qed.

Lemma parallel_serial {S : Type} (codecs : list (codec (Message tail) S))
    (view_funs : list view) :
  (forall m symbols,
     (parallel codecs view_funs).1 m symbols
     = if bool_decide (length symbols = length (zip_with substack codecs view_funs))
       then (serial (zip_with substack codecs view_funs)).1 m symbols
       else Raise AssertionError)
  /\ (forall m, (parallel codecs view_funs).2 m
                = (serial (zip_with substack codecs view_funs)).2 m).
Proof.
  unfold parallel, serial. cbn [fst snd]. split; [done|].
  intros m.
  destruct (serial_pop _ m) as [[m' symbols]| |] eqn:Hpop; simpl; try done.
  apply serial_pop_length in Hpop. by rewrite bool_decide_eq_true_2.
Qed.

(** X20.  [parallel] checks the number of symbols where [serial] does
    not: [push] raises [AssertionError] unless it is given one symbol
    per pair of a codec and a view, and otherwise is the [push] of
    [serial] on the substacked codecs; the assertion of [pop] never
    fails, so [pop] is the [pop] of [serial]; surplus codecs or views
    are dropped by [zip]. *)
Theorem parallel_checks {S : Type} (codecs : list (codec (Message tail) S))
    (view_funs : list view) :
  let substacks := zip_with substack codecs view_funs in
  length substacks = Nat.min (length codecs) (length view_funs)
  /\ (forall m symbols, length symbols <> length substacks ->
        (parallel codecs view_funs).1 m symbols = Raise AssertionError)
  /\ (forall m symbols, length symbols = length substacks ->
        (parallel codecs view_funs).1 m symbols = (serial substacks).1 m symbols)
  /\ (forall m, (parallel codecs view_funs).2 m = (serial substacks).2 m).
Proof.
  cbv zeta. destruct (parallel_serial codecs view_funs) as [Hpush Hpop].
  split; [apply length_zip_with|]. split; [|split].
  - intros m symbols Hne. by rewrite Hpush, bool_decide_eq_false_2.
  - intros m symbols Heq. by rewrite Hpush, bool_decide_eq_true_2.
  - done.
Qed.

(** X21.  [parallel] is two-way when its codecs are: if each codec
    round-trips and decodes on heads as wide as its sub-range, and every
    sub-range lies inside a head of [n] lanes, then [parallel] round-trips
    and decodes on such heads, on the lists of one symbol per codec.  The
    sub-ranges need not be disjoint. *)
Theorem parallel_roundtrip {S : Type} (codecs : list (codec (Message tail) S))
    (view_funs : list view) (doms : list (S -> Prop)) (n : nat) :
  Forall3 (fun c v dom =>
             (view_offset v + view_width v <= n)%nat
             /\ roundtrip (wf_message (view_width v)) dom c
             /\ pop_push (wf_message (view_width v)) dom c)
    codecs view_funs doms ->
  roundtrip (wf_message n) (fun symbols => Forall2 (fun dom s => dom s) doms symbols)
    (parallel codecs view_funs)
  /\ pop_push (wf_message n)
       (fun symbols => Forall2 (fun dom s => dom s) doms symbols)
       (parallel codecs view_funs).
Proof.
  intros Hall.
  assert (Forall2 (fun c dom => roundtrip (wf_message n) dom c
                                /\ pop_push (wf_message n) dom c)
            (zip_with substack codecs view_funs) doms) as Hsub.
  { induction Hall as [|c v dom codecs view_funs doms (Hv & Hrt & Hpp) Hall IH];
      [constructor|].
    cbn [zip_with]. constructor; [|done]. by apply substack_two_way. }
  pose proof (Forall2_length _ _ _ Hsub) as Hlen.
  destruct (serial_two_way _ _ _ Hsub) as [Hrt Hpp].
  destruct (parallel_serial codecs view_funs) as [Hpush Hpop].
  split.
  - intros m symbols Hm Hs. pose proof (Forall2_length _ _ _ Hs) as Hls.
    destruct (Hrt m symbols Hm Hs) as (m' & H1 & Hm' & H2).
    exists m'. rewrite Hpush, Hpop, bool_decide_eq_true_2 by lia. done.
  - intros m m' symbols Hm Hp. rewrite Hpop in Hp.
    destruct (Hpp m m' symbols Hm Hp) as (Hm' & Hs & Hback).
    pose proof (Forall2_length _ _ _ Hs) as Hls.
    rewrite Hpush, bool_decide_eq_true_2 by lia. done.
Qed.

End Substack_facts.

Lemma substack_roundtrip_witness :
  let v := {| view_offset := 1; view_width := 2 |} in
  roundtrip (wf_message 4) (uniform_dom 2 (scalar 8))
    (substack (Uniform (tail := list Z) (scalar 8)) v)
  /\ pop_push (wf_message 4) (uniform_dom 2 (scalar 8))
       (substack (Uniform (tail := list Z) (scalar 8)) v).
Proof.
  apply (substack_roundtrip (Uniform (tail := list Z) (scalar 8))
           {| view_offset := 1; view_width := 2 |} 4 (uniform_dom 2 (scalar 8))).
  - simpl. lia.
  - split.
    + apply (Uniform_roundtrip (L := reference_laws)); [done|].
      simpl. repeat constructor; lia.
    + intros m m' s Hm Hpop.
      apply (Uniform_pop_push (L := reference_laws) 2 (scalar 8) m m' s Hm I);
        [|done].
      simpl. repeat constructor; lia.
Defined.

(** Two codecs on two overlapping sub-ranges of a head of four lanes. *)
Example parallel_scenario :
  let m : Message (list Z) :=
    ([2 ^ 31 + 1; 2 ^ 31 + 2; 2 ^ 31 + 3; 2 ^ 31 + 4], [5]) in
  let c := parallel [Uniform (scalar 8); Uniform (scalar 3)]
             [{| view_offset := 0; view_width := 2 |};
              {| view_offset := 1; view_width := 3 |}] in
  (c.1 m [[1; 2]; [3; 4; 5]] ≫= c.2) = Ok (m, [[1; 2]; [3; 4; 5]])
  /\ c.1 m [[1; 2]] = Raise AssertionError
  /\ c.1 m [[1; 2]; [3; 4; 5]; [6]] = Raise AssertionError.
Proof. repeat split. Qed.

Lemma parallel_roundtrip_witness :
  let codecs := [Uniform (tail := list Z) (scalar 8); Uniform (scalar 3)] in
  let view_funs := [{| view_offset := 0; view_width := 2 |};
                    {| view_offset := 1; view_width := 3 |}] in
  let doms := [uniform_dom 2 (scalar 8); uniform_dom 3 (scalar 3)] in
  roundtrip (wf_message 4) (fun symbols => Forall2 (fun dom s => dom s) doms symbols)
    (parallel codecs view_funs)
  /\ pop_push (wf_message 4)
       (fun symbols => Forall2 (fun dom s => dom s) doms symbols)
       (parallel codecs view_funs).
Proof.
  apply (parallel_roundtrip
           [Uniform (tail := list Z) (scalar 8); Uniform (scalar 3)]
           [{| view_offset := 0; view_width := 2 |};
            {| view_offset := 1; view_width := 3 |}]
           [uniform_dom 2 (scalar 8); uniform_dom 3 (scalar 3)] 4).
  constructor; [|constructor; [|constructor]].
  - split; [simpl; lia|]. split.
    + apply (Uniform_roundtrip (L := reference_laws)); [done|].
      simpl. repeat constructor; lia.
    + intros m m' s Hm Hpop.
      apply (Uniform_pop_push (L := reference_laws) 2 (scalar 8) m m' s Hm I);
        [|done].
      simpl. repeat constructor; lia.
  - split; [simpl; lia|]. split.
    + apply (Uniform_roundtrip (L := reference_laws)); [done|].
      simpl. repeat constructor; lia.
    + intros m m' s Hm Hpop.
      apply (Uniform_pop_push (L := reference_laws) 3 (scalar 3) m m' s Hm I);
        [|done].
      simpl. repeat constructor; lia.
Defined.

(** ** [AutoRegressive]: decoding first *)

Section AutoRegressive_decoding.
Context {M E P : Type}.
Variable nonzero : P -> bool.
Variable astype_uint64 : E -> E.
Variable param_fn : list E -> option (list P * nat) -> list P.
Variable data_zeros : list E.
Variable params_zeros : list P.
Variable elem_codec : P -> nat -> codec M E.
Variable wf : M -> Prop.
Variable dom : E -> Prop.
Variable elem_idxs : list nat.

Lemma written_length (steps : list (@pop_step M E P)) (d : list E) :
  length (written d steps) = length d.
Proof.
  unfold written. revert d. induction steps as [|s steps IH]; intros d; [done|].
  simpl. by rewrite IH, length_insert.
Qed.

Lemma written_other (steps : list (@pop_step M E P)) (d : list E) i :
  i ∉ step_idx <$> steps -> written d steps !! i = d !! i.
Proof.
  unfold written. revert d. induction steps as [|s steps IH]; intros d Hi; [done|].
  rewrite fmap_cons in Hi. apply not_elem_of_cons in Hi as [Hne Hi].
  simpl. rewrite IH by done. by apply list_lookup_insert_ne.
Qed.

Lemma written_lookup (steps : list (@pop_step M E P)) (d : list E) :
  NoDup (step_idx <$> steps) ->
  Forall (fun s => (step_idx s < length d)%nat) steps ->
  Forall (fun s => written d steps !! step_idx s = Some (step_elem s)) steps.
Proof.
  revert d. induction steps as [|s steps IH]; intros d Hnd Hlt; [constructor|].
  rewrite fmap_cons in Hnd. apply NoDup_cons in Hnd as [Hs Hnd].
  apply Forall_cons in Hlt as [Hlt0 Hlt].
  constructor.
  - change (written d (s :: steps)) with (written (<[step_idx s:=step_elem s]> d) steps).
    rewrite written_other by done. by apply list_lookup_insert_eq.
  - change (written d (s :: steps)) with (written (<[step_idx s:=step_elem s]> d) steps).
    apply IH; [done|].
    eapply list.Forall_impl; [exact Hlt|]. intros s' Hs'. simpl in *.
    by rewrite length_insert.
Qed.

Lemma pop_run_bounds (m : M) d ps steps m' d' :
  pop_run param_fn elem_codec m d ps steps m' d' ->
  Forall (fun s => (step_idx s < length d)%nat) steps.
Proof.
  induction 1 as [|m d ps idx p m1 e steps m' d' Hp Hpop Hlt Hrun IH];
    [constructor|].
  constructor; [done|].
  eapply list.Forall_impl; [exact IH|]. intros s Hs. simpl in *.
  by rewrite length_insert in Hs.
Qed.

Hypothesis elem_pop_push : forall p idx, pop_push wf dom (elem_codec p idx).
Hypothesis astype_dom : forall e, dom e -> astype_uint64 e = e.
Hypothesis causal : forall data pre idx suf all_params,
  elem_idxs = pre ++ idx :: suf -> length data = length data_zeros ->
  param_fn (known data data_zeros pre) (Some (all_params, idx)) !! idx
  = param_fn data None !! idx.

Lemma pop_run_push (data : list E) (m : M) d ps steps m' d' :
  pop_run param_fn elem_codec m d ps steps m' d' ->
  forall pre,
    elem_idxs = pre ++ (step_idx <$> steps) ->
    d = known data data_zeros pre -> length data = length data_zeros ->
    Forall (fun s => data !! step_idx s = Some (step_elem s)) steps ->
    wf m ->
    wf m'
    /\ Forall (fun s => dom (step_elem s)) steps
    /\ AutoRegressive_push_loop astype_uint64 elem_codec
         (reverse (step_idx <$> steps)) (PyArray (param_fn data None)) data m'
       = Ok m.
Proof.
  induction 1 as [|m d ps idx p m1 e steps m' d' Hp Hpop Hlt Hrun IH];
    intros pre Hidxs Hd Hlen Hdata Hm.
  - split; [done|]. split; [constructor|done].
  - apply Forall_cons in Hdata as [He Hdata]. simpl in He.
    rewrite fmap_cons in Hidxs. simpl in Hidxs.
    destruct (elem_pop_push p idx m m1 e Hm Hpop) as (Hm1 & Hde & Hback).
    destruct (IH (pre ++ [idx])) as (Hm' & Hdoms & Hpush); try done.
    { by rewrite <- app_assoc. }
    { rewrite Hd. symmetry. by apply known_snoc. }
    split; [done|]. split; [by constructor|].
    rewrite fmap_cons, reverse_cons, AutoRegressive_push_loop_app, Hpush.
    cbn [step_idx]. simpl.
    rewrite <- (causal data pre idx (step_idx <$> steps) ps Hidxs Hlen), <- Hd, Hp.
    simpl. rewrite He. simpl.
    destruct (elem_codec p idx) as [elem_push elem_pop]. simpl in Hback.
    by rewrite (astype_dom e Hde), Hback.
Qed.

(** X22.  [AutoRegressive] decodes first as well: with indices that are
    all different, element codecs that restore the message when a popped
    element is pushed back, and a [param_fn] whose parameters at an index
    are the same on the finished data as on the data known when the index
    is decoded, whenever [pop] returns on a well-formed message, every
    element at a decoded index is one its codec codes, and [push] of the
    returned data gives the message popped from. *)
Theorem AutoRegressive_pop_push (m m' : M) (data : list E) :
  NoDup elem_idxs -> wf m ->
  (AutoRegressive nonzero astype_uint64 param_fn data_zeros params_zeros
     elem_idxs elem_codec).2 m = Ok (m', data) ->
  wf m' /\ length data = length data_zeros
  /\ (forall idx, idx ∈ elem_idxs -> exists e, data !! idx = Some e /\ dom e)
  /\ (AutoRegressive nonzero astype_uint64 param_fn data_zeros params_zeros
        elem_idxs elem_codec).1 m' data = Ok m.
Proof.
  intros Hnd Hm Hpop. cbn [snd AutoRegressive] in Hpop.
  unfold AutoRegressive_pop in Hpop.
  destruct (AutoRegressive_pop_loop _ _ _ _ _ _) as [[[m1 d1] steps]| |] eqn:Hloop;
    simpl in Hpop; try done.
  injection Hpop as <- <-.
  apply AutoRegressive_pop_loop_run in Hloop as [Hrun Hidx].
  destruct (pop_run_written _ _ _ _ _ _ _ _ Hrun) as [Hd _].
  pose proof (pop_run_bounds _ _ _ _ _ _ Hrun) as Hlt.
  assert (length d1 = length data_zeros) as Hlen
    by (rewrite Hd; apply written_length).
  assert (Forall (fun s => d1 !! step_idx s = Some (step_elem s)) steps) as Hdata.
  { rewrite Hd. apply written_lookup; [by rewrite Hidx|done]. }
  destruct (pop_run_push d1 _ _ _ _ _ _ Hrun [] ltac:(by rewrite Hidx) eq_refl
              Hlen Hdata Hm) as (Hm1 & Hdoms & Hpush).
  split; [done|]. split; [done|]. split.
  - intros idx Hin. rewrite <- Hidx in Hin.
    apply list_elem_of_fmap in Hin as (s & -> & Hs).
    exists (step_elem s). split.
    + by eapply (Forall_forall _ steps) in Hdata.
    + by eapply (Forall_forall _ steps) in Hdoms.
  - cbn [fst AutoRegressive]. unfold AutoRegressive_push. simpl.
    by rewrite <- Hidx.
Qed.

End AutoRegressive_decoding.

Lemma sum_codec_pop_push p idx :
  pop_push (wf_message 1) (uniform_dom 1 (scalar 8)) (SumModel.elem_codec p idx).
Proof.
  unfold SumModel.elem_codec. rewrite <- NonUniform_raising_total.
  apply (pop_push_NonUniform_raising (L := reference_laws));
    [done|simpl; repeat constructor; lia|].
  intros cf s start freq Hcf Hdec Henc Hin. injection Hdec as <-.
  assert (uniform_dom 1 (scalar 8) ((fun c => (c - p) mod 2 ^ 8) <$> cf)) as Hdom.
  { unfold uniform_dom. cbn [lanes] in *.
    apply Forall2_replicate_inv in Hcf as [Hlen Hcf].
    apply Forall2_replicate_const; [by rewrite length_fmap|].
    apply Forall_fmap, Forall_true. intros c. simpl.
    apply Z.mod_pos_bound. lia. }
  split; [done|].
  destruct (shifted_statfuns_ok 1 p _ Hdom) as [Hi _].
  injection Henc as <- <-. done.
Qed.

Lemma AutoRegressive_pop_push_witness :
  let m : Message (list Z) := ([2 ^ 31 + 5], [4; 6; 8; 10]) in
  let m' : Message (list Z) := ([549755813888], [6; 8; 10]) in
  let data := [[5]; [255]; [252]] in
  wf_message 1 m' /\ length data = length [[0]; [0]; [0]]
  /\ (forall idx, idx ∈ [0; 1; 2]%nat ->
      exists e, data !! idx = Some e /\ uniform_dom 1 (scalar 8) e)
  /\ (SumModel.Codec [0; 1; 2]%nat).1 m' data = Ok m.
Proof.
  cbv zeta.
  apply (AutoRegressive_pop_push (fun p => negb (p =? 0)) (fmap uint64)
           SumModel.param_fn [[0]; [0]; [0]] [0; 0; 0] SumModel.elem_codec
           (wf_message 1) (uniform_dom 1 (scalar 8)) [0; 1; 2]%nat
           sum_codec_pop_push (uniform_dom_uint64 1)).
  - intros data pre idx suf ps Hidxs Hlen.
    destruct data as [|a [|b [|c [|d data]]]]; try done.
    destruct pre as [|i [|j [|k pre]]]; simpl in Hidxs.
    + by simplify_eq.
    + by simplify_eq.
    + by simplify_eq.
    + exfalso. injection Hidxs as _ _ _ Hnil. by destruct pre.
  - by apply (bool_decide_unpack _).
  - repeat split; repeat constructor; lia.
  - reflexivity.
Defined.

(** ** The length of the folding schedule *)

Lemma fold_loop_length fuel small big l :
  _fold_sizes_loop fuel small big = Some l -> (length l <= fuel)%nat.
Proof.
  revert small l. induction fuel as [|fuel IH]; intros small l; simpl.
  - destruct (small =? big); [|done]. intros [= <-]. simpl. lia.
  - destruct (small =? big); [intros [= <-]; simpl; lia|].
    destruct (_fold_sizes_loop fuel _ big) as [l'|] eqn:Hrun; [|done].
    simpl. intros [= <-]. apply IH in Hrun. simpl. lia.
Qed.

(** X23.  The folding schedule is short: for [1 <= small <= big],
    [_fold_sizes(small, big)] returns at most [log2_up(big) + 2] sizes,
    all of them between [small] and [big], so that [_resize_head_1d] runs
    at most [log2_up(big) + 1] steps of [Benford64]. *)
Theorem fold_sizes_length {tail : Type} {V : Vrans tail} (small big : Z)
    (sizes : list Z) :
  1 <= small <= big -> _fold_sizes small big = Ok sizes ->
  Z.of_nat (length sizes) <= Z.log2_up big + 2
  /\ Forall (fun x => small <= x <= big) sizes
  /\ forall np_log2,
       Z.of_nat (length (_fold_codecs (tail := tail) np_log2 sizes))
       <= Z.log2_up big + 1.
Proof.
  intros Hs Hrun.
  destruct (fold_sizes_schedule small big Hs) as (l & Hsizes & Hsch & Hlast).
  rewrite Hsizes in Hrun. injection Hrun as <-.
  unfold _fold_sizes, _fold_sizes_fuel in Hsizes.
  destruct (_fold_sizes_loop (fold_fuel big) small big) as [l'|] eqn:Hloop;
    [|done].
  simpl in Hsizes. injection Hsizes as ->.
  apply fold_loop_length in Hloop. unfold fold_fuel in Hloop.
  pose proof (Z.log2_up_nonneg big) as Hlog.
  assert (Forall (fun x => small <= x <= big) (small :: l)) as Hrange.
  { constructor; [lia|]. clear Hloop.
    assert (forall y k, schedule y k -> List.last k y <= big ->
                        Forall (fun x => y <= x <= big) k) as Hgen.
    { clear. intros y k. revert y. induction k as [|z k IH]; intros y Hk Hl;
        [constructor|].
      destruct Hk as [Hz Hk]. rewrite last_cons_default in Hl.
      specialize (IH z Hk Hl).
      assert (z <= big).
      { destruct k as [|w k]; [simpl in Hl; lia|].
        apply Forall_cons in IH as [Hw _]. lia. }
      constructor; [lia|].
      eapply list.Forall_impl; [exact IH|]. intros x Hx. simpl in *. lia. }
    apply Hgen; [done|lia]. }
  split; [cbn [length]; lia|]. split; [done|].
  intros np_log2. unfold _fold_codecs, np_diff.
  change (list.tail (small :: l)) with l.
  rewrite length_fmap, length_zip_with. cbn [length]. lia.
Qed.

Lemma fold_sizes_length_witness :
  Z.of_nat (length [3; 6; 12; 20]) <= Z.log2_up 20 + 2
  /\ Forall (fun x => 3 <= x <= 20) [3; 6; 12; 20]
  /\ forall np_log2,
       Z.of_nat (length (_fold_codecs (tail := list Z) np_log2 [3; 6; 12; 20]))
       <= Z.log2_up 20 + 1.
Proof.
  apply (fold_sizes_length (tail := list Z) 3 20 [3; 6; 12; 20]); [lia|reflexivity].
Defined.

Lemma Benford64_roundtrip_witness :
  roundtrip (wf_message 2)
    (fun x => length x = 2%nat /\ Forall word x
              /\ Forall (log2_exact Reference.np_log2) x)
    (Benford64 (tail := list Z) Reference.np_log2).
Proof.
  apply (Benford64_roundtrip (L := reference_laws) Reference.np_log2 2).
Defined.
